(** * taskcluster-worker: the native sandbox, the QEMU virtual machine
      and image inspection

    A shallow embedding of
      - engines/native/sandbox.go   (module [Native]),
      - engines/qemu/vm/vm.go       (modules [VM] and [VMOptions]),
      - the image inspection helper (module [Image]),
      - commands/qemu-build/buildimage.go (module [QemuBuild]),
    with the properties the specification states about them (modules
    [NativeProps], [VMProps], [ImageProps]) and further properties of the
    code: of the sessions and the resolution of a sandbox
    ([NativeSessions], [NativeProgress]), of its construction
    ([NativeConstruction], [NativeFetch]), of the life of a virtual machine
    ([VMUse], [VMStart], [VMReady], [VMReturn], [VMKill]), of the options
    for QEMU ([VMOptionsProps]) and of [buildImage] ([QemuBuildProps]).

    Sequential code is embedded as functions; the goroutines of a sandbox
    and of a virtual machine are embedded as a pool of threads, each at a
    program point of its source function, stepped one at a time by a
    scheduler label. *)

From Stdlib Require Import ZArith Lia Ascii.
From stdpp Require Import base option list strings gmap.

Open Scope Z_scope.

(** ** Shared vocabulary *)

(** Go's [error] values.  [ErrSandboxTerminated] and [ErrSandboxAborted] are
    the two sentinel values of package [engines]; a malformed-payload error
    is built by [runtime.NewMalformedPayloadError]; everything else
    ([fmt.Errorf], errors of the operating system) is an [Errorf]. *)
Inductive error : Type :=
| ErrSandboxTerminated
| ErrSandboxAborted
| MalformedPayloadError (msg : string)
| Errorf (msg : string).

#[global] Instance error_eq_dec : EqDecision error.
Proof. solve_decision. Defined.

(** [err.Error()], used by the [%s] and [%v] verbs. *)
Definition error_string (e : error) : string :=
  match e with
  | ErrSandboxTerminated => "sandbox terminated"
  | ErrSandboxAborted => "sandbox aborted"
  | MalformedPayloadError msg => msg
  | Errorf msg => msg
  end.

(** A Go call returning [(value, error)] with a nil value on error. *)
Inductive res (A : Type) : Type :=
| Ok (a : A)
| Err (e : error).
Arguments Ok {A} a.
Arguments Err {A} e.

(** [fmt.Sprint] of a [[]string]. *)
Definition sprint_strings (l : list string) : string :=
  "[" +:+ String.concat " " l +:+ "]".

(** [filepath.Ext]: scanning backwards from the end of the path, stop at a
    path separator with no extension, or at the first dot and return the
    suffix that starts there. *)
Fixpoint ext_scan (rev_path : list ascii) (suffix : list ascii) : list ascii :=
  match rev_path with
  | [] => []
  | c :: r =>
      if Ascii.eqb c "/"%char then []
      else if Ascii.eqb c "."%char then c :: suffix
      else ext_scan r (c :: suffix)
  end.

Definition Ext (path : string) : string :=
  String.string_of_list_ascii (ext_scan (rev (String.list_ascii_of_string path)) []).

Module Native.

(** ** Data of engines/native *)

Record User := { Name : string; Home : string }.
Record TemporaryFolder := { Path : string }.
Record Process := { pid : nat }.

#[global] Instance User_eq_dec : EqDecision User.
Proof. solve_decision. Defined.
#[global] Instance TemporaryFolder_eq_dec : EqDecision TemporaryFolder.
Proof. solve_decision. Defined.
#[global] Instance Process_eq_dec : EqDecision Process.
Proof. solve_decision. Defined.

(** A shell is identified by its pointer. *)
Abbreviation shell := nat (only parsing).

Record resultSet := {
  rs_workingFolder : option TemporaryFolder;
  rs_user : User;
  rs_success : bool
}.

#[global] Instance resultSet_eq_dec : EqDecision resultSet.
Proof. solve_decision. Defined.

(** Modelled from the spec: [atomics.Once] is not among the sources.  The
    gate lets in exactly one executor and makes all others wait for that
    executor to finish before returning; [Wait] blocks until the gate has
    fired. *)
Inductive Once : Type := OnceIdle | OnceRunning | OnceDone.

#[global] Instance Once_eq_dec : EqDecision Once.
Proof. solve_decision. Defined.

(** Modelled from the spec: [atomics.WaitGroup] is not among the sources.  A
    counted gate: [Add] fails once draining has started, [Done] decrements
    the count, [Drain] stops intake without blocking, [Wait] and
    [WaitAndDrain] block until the count is zero. *)
Record WaitGroup := { wg_count : Z; wg_draining : bool }.

Definition wg_Add (n : Z) (wg : WaitGroup) : WaitGroup * option error :=
  if wg_draining wg then (wg, Some (Errorf "WaitGroup is draining"))
  else ({| wg_count := wg_count wg + n; wg_draining := false |}, None).

Definition wg_Done (wg : WaitGroup) : WaitGroup :=
  {| wg_count := wg_count wg - 1; wg_draining := wg_draining wg |}.

Definition wg_Drain (wg : WaitGroup) : WaitGroup :=
  {| wg_count := wg_count wg; wg_draining := true |}.

(** [None]: the caller stays blocked. *)
Definition wg_Wait (wg : WaitGroup) : option WaitGroup :=
  if decide (wg_count wg = 0) then Some wg else None.

Definition wg_WaitAndDrain (wg : WaitGroup) : option WaitGroup :=
  if decide (wg_count wg = 0) then Some (wg_Drain wg) else None.

(** The [sandbox] struct.  [engine], [context] and [monitor] are fixed
    references; of the engine only [config.CreateUser] is read. *)
Record sandbox := {
  createUser : bool;
  workingFolder : option TemporaryFolder;
  user : User;
  process : Process;
  env : gmap string string;
  resolve : Once;
  resultSet_ : option resultSet;
  resultErr : option error;
  abortErr : option error;
  sessions : WaitGroup;
  shells : list shell
}.

Definition set_resolve (o : Once) (s : sandbox) : sandbox :=
  {| createUser := createUser s; workingFolder := workingFolder s;
     user := user s; process := process s; env := env s;
     resolve := o; resultSet_ := resultSet_ s; resultErr := resultErr s;
     abortErr := abortErr s; sessions := sessions s; shells := shells s |}.

Definition set_resultSet (r : option resultSet) (s : sandbox) : sandbox :=
  {| createUser := createUser s; workingFolder := workingFolder s;
     user := user s; process := process s; env := env s;
     resolve := resolve s; resultSet_ := r; resultErr := resultErr s;
     abortErr := abortErr s; sessions := sessions s; shells := shells s |}.

Definition set_resultErr (e : option error) (s : sandbox) : sandbox :=
  {| createUser := createUser s; workingFolder := workingFolder s;
     user := user s; process := process s; env := env s;
     resolve := resolve s; resultSet_ := resultSet_ s; resultErr := e;
     abortErr := abortErr s; sessions := sessions s; shells := shells s |}.

Definition set_abortErr (e : option error) (s : sandbox) : sandbox :=
  {| createUser := createUser s; workingFolder := workingFolder s;
     user := user s; process := process s; env := env s;
     resolve := resolve s; resultSet_ := resultSet_ s; resultErr := resultErr s;
     abortErr := e; sessions := sessions s; shells := shells s |}.

Definition set_sessions (wg : WaitGroup) (s : sandbox) : sandbox :=
  {| createUser := createUser s; workingFolder := workingFolder s;
     user := user s; process := process s; env := env s;
     resolve := resolve s; resultSet_ := resultSet_ s; resultErr := resultErr s;
     abortErr := abortErr s; sessions := wg; shells := shells s |}.

Definition set_shells (l : list shell) (s : sandbox) : sandbox :=
  {| createUser := createUser s; workingFolder := workingFolder s;
     user := user s; process := process s; env := env s;
     resolve := resolve s; resultSet_ := resultSet_ s; resultErr := resultErr s;
     abortErr := abortErr s; sessions := sessions s; shells := l |}.

(** What the sandbox does to the operating system, in order. *)
Inductive event : Type :=
| EvNewFolder (f : TemporaryFolder)
| EvCreateUser (u : User)
| EvMonitorError (msg : string)
| EvStartProcess (p : Process)
| EvGoWaitForTermination
| EvUserRemove (u : User)
| EvFolderRemove (f : TemporaryFolder)
| EvKillProcessTree (p : Process)
| EvKillByOwner (u : User)
| EvShellAbort (sh : shell)
| EvResolveWatch (success : bool)
| EvResolveKill
| EvResolveAbort.

#[global] Instance event_eq_dec : EqDecision event.
Proof. solve_decision. Defined.

(** ** Construction: [fetchContext] and [newSandbox] *)

Record ProcessOptions := {
  Arguments_ : list string;
  Environment : gmap string string;
  WorkingFolder : string;
  Owner : User
}.

(** The collaborators [newSandbox] calls: temporary storage, package
    [system], [util.Download], [os.Chmod] and package [unpack]. *)
Class System := {
  NewFolder : res TemporaryFolder;
  CreateUser : string → list string → res User;
  CurrentUser : res User;
  Download : string → string → res string;
  Chmod : string → option error;
  ChangeOwner : string → User → option error;
  Unzip : string → option error;
  Gunzip : string → string * option error;
  Untar : string → option error;
  StartProcess : ProcessOptions → res Process
}.

Record sandboxBuilder := {
  b_CreateUser : bool;            (* b.engine.config.CreateUser *)
  b_groups : list string;         (* b.engine.groups *)
  b_Context : string;             (* b.payload.Context *)
  b_Command : list string;        (* b.payload.Command *)
  b_env : gmap string string
}.

Section Construction.
Context `{Sys : System}.

Definition fetchContext (context : string) (u : User) : option error :=
  match Download context (Home u) with
  | Err err =>
      Some (Errorf ("Error downloading '" +:+ context +:+ "': "
                      +:+ error_string err))
  | Ok filename =>
      match Chmod filename with
      | Some err =>
          Some (Errorf ("Error setting file '" +:+ filename
                          +:+ "' permissions: " +:+ error_string err))
      | None =>
          match ChangeOwner filename u with
          | Some err => Some err
          | None =>
              (* the switch has no default: err stays nil *)
              let '(unpackedFile, err) :=
                if decide (Ext filename = ".zip") then ("", Unzip filename)
                else if decide (Ext filename = ".gz") then Gunzip filename
                else ("", None) in
              match err with
              | Some err =>
                  Some (Errorf ("Error unpacking '" +:+ context +:+ "': "
                                  +:+ error_string err))
              | None =>
                  if decide (Ext unpackedFile = ".tar") then
                    match Untar unpackedFile with
                    | Some err =>
                        Some (Errorf ("Error unpacking '" +:+ context
                                        +:+ "': " +:+ error_string err))
                    | None => None
                    end
                  else None
              end
          end
      end
  end.

(** The variables the deferred function of [newSandbox] reads. *)
Record locals := {
  l_user : option User;
  l_workingFolder : option TemporaryFolder;
  l_err : option error
}.

(** The deferred function: on error remove the created user, then the
    working folder. *)
Definition deferred (b : sandboxBuilder) (l : locals) : list event :=
  match l_err l with
  | Some _ =>
      (match l_user l with
       | Some u => if b_CreateUser b then [EvUserRemove u] else []
       | None => []
       end)
      ++ (match l_workingFolder l with
          | Some f => [EvFolderRemove f]
          | None => []
          end)
  | None => []
  end.

(** [newSandbox] from the context download on, with [user] and
    [workingFolder] acquired. *)
Definition newSandbox_start (b : sandboxBuilder) (wf : option TemporaryFolder)
    (u : User) : locals * list event * res sandbox :=
  match (if decide (b_Context b = "") then None
         else fetchContext (b_Context b) u) with
  | Some err =>
      ({| l_user := Some u; l_workingFolder := wf; l_err := Some err |}, [],
       Err (MalformedPayloadError
              ("Error downloading " +:+ b_Context b +:+ ": "
                 +:+ error_string err)))
  | None =>
      let env' :=
        <["LOGNAME" := Name u]>
          (<["USER" := Name u]> (<["HOME" := Home u]> (b_env b))) in
      match StartProcess {| Arguments_ := b_Command b; Environment := env';
                            WorkingFolder := Home u; Owner := u |} with
      | Err err =>
          ({| l_user := Some u; l_workingFolder := wf; l_err := Some err |},
           [],
           Err (MalformedPayloadError
                  ("Unable to start specified command: "
                     +:+ sprint_strings (b_Command b) +:+ " error: "
                     +:+ error_string err)))
      | Ok p =>
          ({| l_user := Some u; l_workingFolder := wf; l_err := None |},
           [EvStartProcess p; EvGoWaitForTermination],
           Ok {| createUser := b_CreateUser b; workingFolder := wf;
                 user := u; process := p; env := b_env b;
                 resolve := OnceIdle; resultSet_ := None;
                 resultErr := None; abortErr := None;
                 sessions := {| wg_count := 0; wg_draining := false |};
                 shells := [] |})
      end
  end.

Definition newSandbox_body (b : sandboxBuilder)
    : locals * list event * res sandbox :=
  if b_CreateUser b then
    match NewFolder with
    | Err e =>
        let err := Errorf ("Failed to temporary folder, error: "
                             +:+ error_string e) in
        ({| l_user := None; l_workingFolder := None; l_err := Some err |},
         [EvMonitorError (error_string err)], Err err)
    | Ok wf =>
        match CreateUser (Path wf) (b_groups b) with
        | Err e =>
            let err := Errorf ("Failed to create temporary system user, error: "
                                 +:+ error_string e) in
            ({| l_user := None; l_workingFolder := Some wf;
                l_err := Some err |},
             [EvNewFolder wf], Err err)
        | Ok u =>
            let '(l, evs, r) := newSandbox_start b (Some wf) u in
            (l, [EvNewFolder wf; EvCreateUser u] ++ evs, r)
        end
    end
  else
    match CurrentUser with
    | Err err =>
        ({| l_user := None; l_workingFolder := None; l_err := Some err |},
         [], Err err)
    | Ok u => newSandbox_start b None u
    end.

(** [newSandbox]: the body, then the deferred function. *)
Definition newSandbox (b : sandboxBuilder) : list event * res sandbox :=
  let '(l, evs, r) := newSandbox_body b in
  (evs ++ deferred b l, r).

End Construction.

(** ** Sessions *)

(** [NewShell], run under [mShells].  [newShell] (shell.go) is not among the
    sources: [spawn] is what it returns.  On success the caller also starts
    the goroutine that waits for the shell ([shell_finished]). *)
Definition NewShell (spawn : res shell) (command : list string) (s : sandbox)
    : sandbox * res shell :=
  match wg_Add 1 (sessions s) with
  | (wg, Some _) => (set_sessions wg s, Err ErrSandboxTerminated)
  | (wg, None) =>
      let s1 := set_sessions wg s in
      match spawn with
      | Err err =>
          (set_sessions (wg_Done (sessions s1)) s1,
           Err (MalformedPayloadError
                  ("Unable to spawn command: " +:+ sprint_strings command
                     +:+ " error: " +:+ error_string err)))
      | Ok sh => (set_shells (shells s1 ++ [sh]) s1, Ok sh)
      end
  end.

(** The goroutine of [NewShell] once [S.Wait()] has returned: under
    [mShells], drop the shell from the list and mark the session done. *)
Definition shell_finished (sh : shell) (s : sandbox) : sandbox :=
  let s1 := set_shells (filter (λ s2, s2 ≠ sh) (shells s)) s in
  set_sessions (wg_Done (sessions s1)) s1.

(** ** Resolution: the three bodies passed to [s.resolve.Do] *)

(** The statements of the resolution bodies. *)
Inductive action : Type :=
| AKillProcessTree              (* system.KillProcessTree(s.process) *)
| AAbortShells                  (* abortShells, the part under mShells *)
| ASessionsWait                 (* abortShells: s.sessions.Wait() *)
| AKillByOwner                  (* if CreateUser { system.KillByOwner(s.user) } *)
| AUserRemove                   (* if CreateUser { s.user.Remove() } *)
| AFolderRemove                 (* if workingFolder != nil { Remove() } *)
| ASetResultSet (success : bool)
| ASetAbortErr (e : error)
| ASetResultErr (e : error).

#[global] Instance action_eq_dec : EqDecision action.
Proof. solve_decision. Defined.

Inductive body : Type := BWatch (success : bool) | BKill | BAbort.

#[global] Instance body_eq_dec : EqDecision body.
Proof. solve_decision. Defined.

Definition body_of (k : body) : list action :=
  match k with
  | BWatch success =>
      [AKillByOwner; ASetResultSet success; ASetAbortErr ErrSandboxTerminated]
  | BKill =>
      [AKillProcessTree; AAbortShells; ASessionsWait; AKillByOwner;
       ASetResultSet false; ASetAbortErr ErrSandboxTerminated]
  | BAbort =>
      [AKillProcessTree; AAbortShells; ASessionsWait; AKillByOwner;
       AUserRemove; AFolderRemove; ASetResultErr ErrSandboxAborted]
  end.

Definition ev_of (k : body) : event :=
  match k with
  | BWatch success => EvResolveWatch success
  | BKill => EvResolveKill
  | BAbort => EvResolveAbort
  end.

Definition mk_resultSet (s : sandbox) (success : bool) : resultSet :=
  {| rs_workingFolder := workingFolder s; rs_user := user s;
     rs_success := success |}.

(** A sandbox with its main process and the goroutines working on it. *)
Inductive caller : Type := CKill | CAbort | CWaitForResult.

Inductive thread : Type :=
| TProcessWait                      (* waitForTermination: s.process.Wait() *)
| TWaitAndDrain (success : bool)    (* s.sessions.WaitAndDrain() *)
| TDo (k : body)                    (* s.resolve.Do(func() { k }) *)
| TBody (k : body) (rest : list action)
| TWait (c : caller)                (* s.resolve.Wait() *)
| TRet (c : caller) (rs : option resultSet) (err : option error)
| TNewShell (command : list string) (tty : bool)
| TNewShellRet (r : res shell)
| TShellWait (sh : shell)            (* S.Wait() *)
| TShellRemove (sh : shell)
| TExit.

(** The program points at which the source functions start. *)
Definition waitForTermination : thread := TProcessWait.
Definition Kill : thread := TDo BKill.
Definition Abort : thread := TDo BAbort.
Definition WaitForResult : thread := TWait CWaitForResult.

(** Where a caller of [Do] continues: the watcher returns, [Kill] and
    [Abort] go on to [s.resolve.Wait()]. *)
Definition after_Do (k : body) : thread :=
  match k with
  | BWatch _ => TExit
  | BKill => TWait CKill
  | BAbort => TWait CAbort
  end.

(** What each caller returns after [s.resolve.Wait()]. *)
Definition returns (c : caller) (s : sandbox) : thread :=
  match c with
  | CKill => TRet CKill None (resultErr s)
  | CAbort => TRet CAbort None (abortErr s)
  | CWaitForResult => TRet CWaitForResult (resultSet_ s) (resultErr s)
  end.

Record config := {
  sb : sandbox;
  exited : option bool;     (* the main process: running, or exited *)
  pool : list thread;
  log : list event
}.

Definition exec (a : action) (s : sandbox) (ex : option bool)
    : option (sandbox * option bool * list event) :=
  match a with
  | AKillProcessTree =>
      Some (s, Some (default false ex), [EvKillProcessTree (process s)])
  | AAbortShells =>
      Some (set_shells [] (set_sessions (wg_Drain (sessions s)) s), ex,
            EvShellAbort <$> shells s)
  | ASessionsWait =>
      match wg_Wait (sessions s) with
      | Some wg => Some (set_sessions wg s, ex, [])
      | None => None
      end
  | AKillByOwner =>
      Some (s, ex, if createUser s then [EvKillByOwner (user s)] else [])
  | AUserRemove =>
      Some (s, ex, if createUser s then [EvUserRemove (user s)] else [])
  | AFolderRemove =>
      Some (s, ex, match workingFolder s with
                   | Some f => [EvFolderRemove f]
                   | None => []
                   end)
  | ASetResultSet success =>
      Some (set_resultSet (Some (mk_resultSet s success)) s, ex, [])
  | ASetAbortErr e => Some (set_abortErr (Some e) s, ex, [])
  | ASetResultErr e => Some (set_resultErr (Some e) s, ex, [])
  end.

Inductive label : Type :=
| LThread (i : nat)                       (* thread i runs to its next point *)
| LNewShell (i : nat) (spawn : res shell) (* thread i runs NewShell *)
| LProcessExit (success : bool).          (* the main process ends by itself *)

Section Step.
(** Whether a [Do] that finds the body running waits for it, as the spec
    words the gate, or returns at once and leaves the waiting to the
    [Wait] that follows it in [Kill] and [Abort]. *)
Variable blocking : bool.

(** One step of thread [t]: the new sandbox, process state, thread and
    events; [None] when the thread is blocked or has finished. *)
Definition thread_step (t : thread) (s : sandbox) (ex : option bool)
    : option (sandbox * option bool * thread * list event) :=
  match t with
  | TProcessWait =>
      match ex with
      | Some success => Some (s, ex, TWaitAndDrain success, [])
      | None => None
      end
  | TWaitAndDrain success =>
      match wg_WaitAndDrain (sessions s) with
      | Some wg => Some (set_sessions wg s, ex, TDo (BWatch success), [])
      | None => None
      end
  | TDo k =>
      match resolve s with
      | OnceIdle =>
          Some (set_resolve OnceRunning s, ex, TBody k (body_of k), [ev_of k])
      | OnceRunning =>
          if blocking then None else Some (s, ex, after_Do k, [])
      | OnceDone => Some (s, ex, after_Do k, [])
      end
  | TBody k [] => Some (set_resolve OnceDone s, ex, after_Do k, [])
  | TBody k (a :: rest) =>
      match exec a s ex with
      | Some (s', ex', evs) => Some (s', ex', TBody k rest, evs)
      | None => None
      end
  | TWait c =>
      match resolve s with
      | OnceDone => Some (s, ex, returns c s, [])
      | _ => None
      end
  | TShellWait sh => Some (s, ex, TShellRemove sh, [])
  | TShellRemove sh => Some (shell_finished sh s, ex, TExit, [])
  | TRet _ _ _ | TNewShell _ _ | TNewShellRet _ | TExit => None
  end.

Definition step (l : label) (c : config) : option config :=
  match l with
  | LThread i =>
      match pool c !! i with
      | Some t =>
          match thread_step t (sb c) (exited c) with
          | Some (s', ex', t', evs) =>
              Some {| sb := s'; exited := ex'; pool := <[i := t']> (pool c);
                      log := log c ++ evs |}
          | None => None
          end
      | None => None
      end
  | LNewShell i spawn =>
      match pool c !! i with
      | Some (TNewShell command tty) =>
          let '(s', r) := NewShell spawn command (sb c) in
          Some {| sb := s'; exited := exited c;
                  pool := <[i := TNewShellRet r]> (pool c)
                          ++ match r with
                             | Ok sh => [TShellWait sh]
                             | Err _ => []
                             end;
                  log := log c |}
      | _ => None
      end
  | LProcessExit success =>
      match exited c with
      | None => Some {| sb := sb c; exited := Some success; pool := pool c;
                        log := log c |}
      | Some _ => None
      end
  end.

Fixpoint run (ls : list label) (c : config) : option config :=
  match ls with
  | [] => Some c
  | l :: ls' =>
      match step l c with
      | Some c' => run ls' c'
      | None => None
      end
  end.

End Step.

(** A sandbox as [newSandbox] returns it, with the calls made on it. *)
Definition fresh (s : sandbox) : Prop :=
  resolve s = OnceIdle ∧ resultSet_ s = None ∧ resultErr s = None
  ∧ abortErr s = None.

Definition entry (t : thread) : bool :=
  match t with
  | TProcessWait | TDo BKill | TDo BAbort | TWait CWaitForResult
  | TNewShell _ _ => true
  | _ => false
  end.

Definition init (s : sandbox) (calls : list thread) : config :=
  {| sb := s; exited := None; pool := calls; log := [] |}.

Definition is_resolve (e : event) : bool :=
  match e with
  | EvResolveWatch _ | EvResolveKill | EvResolveAbort => true
  | _ => false
  end.

(** The resolution bodies that have started, in order. *)
Definition resolutions (lg : list event) : list event := filter is_resolve lg.

Definition is_kill_tree (e : event) : bool :=
  match e with EvKillProcessTree _ => true | _ => false end.

(** How often the process tree was killed. *)
Definition teardowns (lg : list event) : nat := length (filter is_kill_tree lg).

End Native.

Module VM.

(** ** Data of engines/qemu/vm *)

Definition vncSocketFile : string := "vnc.sock".
Definition qmpSocketFile : string := "qmp.sock".

(** [filepath.Join] of a folder and a file name. *)
Definition Join (folder file : string) : string := folder +:+ "/" +:+ file.

Record Network := { NetDev : string }.
Record Image := { DiskFile : string; Format : string }.
Abbreviation Handler := nat (only parsing).

(** The [VirtualMachine] struct.  [m] is true while the mutex is held;
    [doneClosed] is the state of the channel behind [qemuDone] and [Done];
    the process behind [qemu] is part of the [world]. *)
Record VirtualMachine := {
  m : bool;
  started : bool;
  network : option Network;
  image : option Image;
  socketFolder : string;
  doneClosed : bool;
  Error : option error
}.

(** The QEMU process: [Process] is nil until [qemu.Start()] succeeds; once
    it has ended [qemu.Wait()] returns [werr]. *)
Inductive proc : Type :=
| NotStarted
| Running
| Exited (werr : option error).

(** The channel [waitForSockets] returns: unbuffered, so a sender offers
    its value and stays blocked until [Start] has taken it. *)
Inductive chan : Type :=
| ChanOpen
| ChanOffer (err : error)
| ChanTaken
| ChanClosed.

(** What the fields of the machine point to. *)
Record world := {
  qemu : proc;
  handler : option Handler;       (* the handler installed on the network *)
  net_released : bool;
  image_released : bool;
  removed : list string;          (* folders given to os.RemoveAll *)
  stdout_closed : bool;           (* stdoutWriter *)
  stderr_closed : bool;           (* stderrWriter *)
  socketsReady : chan
}.

Definition set_m (b : bool) (v : VirtualMachine) : VirtualMachine :=
  {| m := b; started := started v; network := network v; image := image v;
     socketFolder := socketFolder v; doneClosed := doneClosed v;
     Error := Error v |}.

Definition set_started (b : bool) (v : VirtualMachine) : VirtualMachine :=
  {| m := m v; started := b; network := network v; image := image v;
     socketFolder := socketFolder v; doneClosed := doneClosed v;
     Error := Error v |}.

Definition set_network (n : option Network) (v : VirtualMachine)
    : VirtualMachine :=
  {| m := m v; started := started v; network := n; image := image v;
     socketFolder := socketFolder v; doneClosed := doneClosed v;
     Error := Error v |}.

Definition set_image (i : option Image) (v : VirtualMachine) : VirtualMachine :=
  {| m := m v; started := started v; network := network v; image := i;
     socketFolder := socketFolder v; doneClosed := doneClosed v;
     Error := Error v |}.

Definition set_socketFolder (f : string) (v : VirtualMachine)
    : VirtualMachine :=
  {| m := m v; started := started v; network := network v; image := image v;
     socketFolder := f; doneClosed := doneClosed v; Error := Error v |}.

Definition set_doneClosed (b : bool) (v : VirtualMachine) : VirtualMachine :=
  {| m := m v; started := started v; network := network v; image := image v;
     socketFolder := socketFolder v; doneClosed := b; Error := Error v |}.

Definition set_Error (e : option error) (v : VirtualMachine) : VirtualMachine :=
  {| m := m v; started := started v; network := network v; image := image v;
     socketFolder := socketFolder v; doneClosed := doneClosed v; Error := e |}.

Definition set_qemu (p : proc) (w : world) : world :=
  {| qemu := p; handler := handler w; net_released := net_released w;
     image_released := image_released w; removed := removed w;
     stdout_closed := stdout_closed w; stderr_closed := stderr_closed w;
     socketsReady := socketsReady w |}.

Definition set_handler (h : option Handler) (w : world) : world :=
  {| qemu := qemu w; handler := h; net_released := net_released w;
     image_released := image_released w; removed := removed w;
     stdout_closed := stdout_closed w; stderr_closed := stderr_closed w;
     socketsReady := socketsReady w |}.

Definition set_net_released (b : bool) (w : world) : world :=
  {| qemu := qemu w; handler := handler w; net_released := b;
     image_released := image_released w; removed := removed w;
     stdout_closed := stdout_closed w; stderr_closed := stderr_closed w;
     socketsReady := socketsReady w |}.

Definition set_image_released (b : bool) (w : world) : world :=
  {| qemu := qemu w; handler := handler w; net_released := net_released w;
     image_released := b; removed := removed w;
     stdout_closed := stdout_closed w; stderr_closed := stderr_closed w;
     socketsReady := socketsReady w |}.

Definition set_removed (l : list string) (w : world) : world :=
  {| qemu := qemu w; handler := handler w; net_released := net_released w;
     image_released := image_released w; removed := l;
     stdout_closed := stdout_closed w; stderr_closed := stderr_closed w;
     socketsReady := socketsReady w |}.

Definition set_stdout_closed (b : bool) (w : world) : world :=
  {| qemu := qemu w; handler := handler w; net_released := net_released w;
     image_released := image_released w; removed := removed w;
     stdout_closed := b; stderr_closed := stderr_closed w;
     socketsReady := socketsReady w |}.

Definition set_stderr_closed (b : bool) (w : world) : world :=
  {| qemu := qemu w; handler := handler w; net_released := net_released w;
     image_released := image_released w; removed := removed w;
     stdout_closed := stdout_closed w; stderr_closed := b;
     socketsReady := socketsReady w |}.

Definition set_socketsReady (c : chan) (w : world) : world :=
  {| qemu := qemu w; handler := handler w; net_released := net_released w;
     image_released := image_released w; removed := removed w;
     stdout_closed := stdout_closed w; stderr_closed := stderr_closed w;
     socketsReady := c |}.

(** [NewVirtualMachine], without the argument list it builds for QEMU:
    [slug] is the fresh name of the private socket folder. *)
Definition NewVirtualMachine (img : Image) (net : Network)
    (folder slug : string) : VirtualMachine :=
  {| m := false; started := false; network := Some net; image := Some img;
     socketFolder := Join folder slug; doneClosed := false; Error := None |}.

Definition new_world : world :=
  {| qemu := NotStarted; handler := None; net_released := false;
     image_released := false; removed := []; stdout_closed := false;
     stderr_closed := false; socketsReady := ChanOpen |}.

Inductive event : Type :=
| EvLogError (msg : string)
| EvLogInfo (msg : string)
| EvCloseStdout
| EvCloseStderr
| EvNetworkRelease
| EvImageRelease
| EvRemoveAll (folder : string)
| EvCloseDone
| EvProcessKill
| EvSetHandler (h : Handler)
| EvWatcherClose.

#[global] Instance event_eq_dec : EqDecision event.
Proof. solve_decision. Defined.

(** ** Statements *)

Inductive action : Type :=
| ALogErrorf (msg : string)
| ASetError (err : error)          (* vm.Error = err *)
| ACloseDone                       (* close(vm.qemuDone) *)
| ALock                            (* vm.m.Lock() *)
| AUnlock                          (* the deferred vm.m.Unlock() *)
| ASetErrorIfNil (e : option error) (* if vm.Error == nil { vm.Error = e } *)
| ACloseStdout
| ACloseStderr
| ANetworkRelease                  (* vm.network.Release() *)
| ANetworkNil                      (* vm.network = nil *)
| AImageRelease
| AImageNil
| ARemoveAll                       (* os.RemoveAll(vm.socketFolder) *)
| AFolderClear                     (* vm.socketFolder = "" *)
| ARecordReadyError (err : error)  (* lock; if vm.Error != nil { vm.Error = err }; unlock *)
| AKill                            (* the body of Kill *)
| ASetHTTPHandler (h : Handler)    (* the body of SetHTTPHandler *)
| ASendReady (err : error)         (* done <- err: offer the value *)
| ASendWait                        (* done <- err: blocked until taken *)
| AWatcherClose                    (* w.Close() *)
| ACloseReady.                     (* close(done) in waitForSockets *)

#[global] Instance action_eq_dec : EqDecision action.
Proof. solve_decision. Defined.

(** The error of a process ended by [Process.Kill()]. *)
Definition killed : error := Errorf "signal: killed".

(** The result of a statement: the new machine and world, what it did, and
    whether it panicked. *)
Record outcome := {
  o_vm : VirtualMachine;
  o_world : world;
  o_events : list event;
  o_panic : bool
}.

Definition ok (v : VirtualMachine) (w : world) (evs : list event) : outcome :=
  {| o_vm := v; o_world := w; o_events := evs; o_panic := false |}.

Definition panic (v : VirtualMachine) (w : world) : outcome :=
  {| o_vm := v; o_world := w; o_events := []; o_panic := true |}.

(** One statement; [None] when it blocks.  The statements that take the
    mutex for a few assignments run in one step once the mutex is free. *)
Definition exec (a : action) (v : VirtualMachine) (w : world) : option outcome :=
  match a with
  | ALogErrorf msg => Some (ok v w [EvLogError msg])
  | ASetError err => Some (ok (set_Error (Some err) v) w [])
  | ACloseDone =>
      if doneClosed v then Some (panic v w)
      else Some (ok (set_doneClosed true v) w [EvCloseDone])
  | ALock => if m v then None else Some (ok (set_m true v) w [])
  | AUnlock => Some (ok (set_m false v) w [])
  | ASetErrorIfNil e =>
      match Error v with
      | None => Some (ok (set_Error e v) w [])
      | Some _ => Some (ok v w [])
      end
  | ACloseStdout => Some (ok v (set_stdout_closed true w) [EvCloseStdout])
  | ACloseStderr => Some (ok v (set_stderr_closed true w) [EvCloseStderr])
  | ANetworkRelease =>
      match network v with
      | Some _ => Some (ok v (set_net_released true w) [EvNetworkRelease])
      | None => Some (panic v w)
      end
  | ANetworkNil => Some (ok (set_network None v) w [])
  | AImageRelease =>
      match image v with
      | Some _ => Some (ok v (set_image_released true w) [EvImageRelease])
      | None => Some (panic v w)
      end
  | AImageNil => Some (ok (set_image None v) w [])
  | ARemoveAll =>
      Some (ok v (set_removed (socketFolder v :: removed w) w)
              [EvRemoveAll (socketFolder v)])
  | AFolderClear => Some (ok (set_socketFolder "" v) w [])
  | ARecordReadyError err =>
      if m v then None
      else match Error v with
           | Some _ => Some (ok (set_Error (Some err) v) w [])
           | None => Some (ok v w [])
           end
  | AKill =>
      if doneClosed v then Some (ok v w [])
      else match qemu w with
           | NotStarted => Some (panic v w)
           | Running => Some (ok v (set_qemu (Exited (Some killed)) w)
                                [EvProcessKill])
           | Exited _ => Some (ok v w [EvProcessKill])
           end
  | ASetHTTPHandler h =>
      if m v then None
      else match network v with
           | Some _ => Some (ok v (set_handler (Some h) w) [EvSetHandler h])
           | None => Some (ok v w [])
           end
  | ASendReady err =>
      Some (ok v (set_socketsReady (ChanOffer err) w) [])
  | ASendWait =>
      match socketsReady w with
      | ChanTaken => Some (ok v w [])
      | _ => None
      end
  | AWatcherClose => Some (ok v w [EvWatcherClose])
  | ACloseReady => Some (ok v (set_socketsReady ChanClosed w) [])
  end.

(** ** Goroutines *)

Inductive thread : Type :=
| T_Seq (acts : list action) (next : thread)   (* statements, then [next] *)
| S_Begin                   (* Start: lock; check and set started; unlock *)
| S_WaitForSockets          (* Start: socketsReady, err := vm.waitForSockets() *)
| S_QemuStart               (* Start: vm.Error = vm.qemu.Start() *)
| S_Select                  (* Start: the select on socketsReady and vm.Done *)
| S_Return
| W_Wait                    (* exit watcher: werr := vm.qemu.Wait() *)
| W_Done
| M_Loop (vncReady qmpReady : bool)   (* waitForSockets: head of the loop *)
| M_Exit
| F_Scan (stderr : bool)    (* the goroutines forwarding stdout and stderr *)
| F_Exit
| K_Return
| H_Return
| V_Call                    (* VNCSocket *)
| V_Return (path : string).

(** The source functions. *)
Definition Start : thread := S_Begin.
Definition Kill : thread := T_Seq [AKill] K_Return.
Definition SetHTTPHandler (h : Handler) : thread :=
  T_Seq [ASetHTTPHandler h] H_Return.

(** The exit watcher once [vm.qemu.Wait()] has returned [werr]. *)
Definition exit_watcher (werr : option error) : list action :=
  [ALock; ASetErrorIfNil werr; ACloseStdout; ACloseStderr;
   ANetworkRelease; ANetworkNil; AImageRelease; AImageNil;
   ARemoveAll; AFolderClear; ACloseDone; AUnlock].

Definition timeout_error : error :=
  Errorf "vnc and qmp sockets didn't show up in 90s".

(** What the scheduler and the environment decide at a step. *)
Inductive choice : Type :=
| Go                                  (* nothing to decide *)
| Setup (newWatcher add : option error)  (* fsnotify.NewWatcher and w.Add *)
| Spawn (r : option error)            (* vm.qemu.Start() *)
| RecvReady                           (* select: a value on socketsReady *)
| RecvDone                            (* select: vm.Done is closed *)
| FsEvent (create : bool) (name : string)   (* select: an event of w.Events *)
| After90s                            (* select: time.After(90 * time.Second) *)
| FsError (err : error)               (* select: an error of w.Errors *)
| Line (text : string).               (* the scanner has read a line *)

Record config := {
  vm : VirtualMachine;
  wd : world;
  pool : list thread;
  log : list event;
  panicked : bool
}.

(** One step of a thread: the outcome, where the thread continues and the
    goroutines it starts. *)
Definition thread_step (t : thread) (ch : choice) (v : VirtualMachine)
    (w : world) : option (outcome * thread * list thread) :=
  match t, ch with
  | T_Seq [] next, Go => Some (ok v w [], next, [])
  | T_Seq (a :: rest) next, Go =>
      match exec a v w with
      | Some o => Some (o, T_Seq rest next, [])
      | None => None
      end
  | S_Begin, Go =>
      if m v then None
      else if started v then Some (panic v w, S_Begin, [])
      else Some (ok (set_started true v) w [], S_WaitForSockets, [])
  | S_WaitForSockets, Setup (Some err) _ =>
      let e := Errorf ("Failed to setup file system monitoring, error: "
                         +:+ error_string err) in
      Some (ok v w [],
            T_Seq [ALogErrorf ("Error configuring socketFolder monitoring, error: "
                                 +:+ error_string e);
                   ASetError e; ACloseDone] S_Return, [])
  | S_WaitForSockets, Setup None (Some err) =>
      let e := Errorf ("Failed to monitor socket folder, error: "
                         +:+ error_string err) in
      Some (ok v w [],
            T_Seq [ALogErrorf ("Error configuring socketFolder monitoring, error: "
                                 +:+ error_string e);
                   ASetError e; ACloseDone] S_Return, [])
  | S_WaitForSockets, Setup None None =>
      Some (ok v w [], S_QemuStart, [M_Loop false false])
  | S_QemuStart, Spawn (Some err) =>
      match qemu w with
      | NotStarted =>
          Some (ok (set_Error (Some err) v) w [], T_Seq [ACloseDone] S_Return, [])
      | _ => None
      end
  | S_QemuStart, Spawn None =>
      match qemu w with
      | NotStarted =>
          Some (ok (set_Error None v) (set_qemu Running w) [], S_Select,
                [F_Scan false; F_Scan true; W_Wait])
      | _ => None
      end
  | S_Select, RecvReady =>
      match socketsReady w with
      | ChanOffer err =>
          Some (ok v (set_socketsReady ChanTaken w) [],
                T_Seq [ALogErrorf ("Error monitoring socketFolder, error: "
                                     +:+ error_string err);
                       ARecordReadyError err; AKill] S_Return, [])
      | ChanClosed => Some (ok v w [], S_Return, [])
      | _ => None
      end
  | S_Select, RecvDone =>
      if doneClosed v then Some (ok v w [], S_Return, []) else None
  | W_Wait, Go =>
      match qemu w with
      | Exited werr => Some (ok v w [], T_Seq (exit_watcher werr) W_Done, [])
      | _ => None
      end
  | M_Loop true true, Go =>
      Some (ok v w [], T_Seq [AWatcherClose; ACloseReady] M_Exit, [])
  | M_Loop vncReady qmpReady, FsEvent create name =>
      if vncReady && qmpReady then None
      else Some (ok v w [],
                 M_Loop (if create && bool_decide (name = vncSocketFile)
                         then true else vncReady)
                        (if create && bool_decide (name = qmpSocketFile)
                         then true else qmpReady), [])
  | M_Loop vncReady qmpReady, RecvDone =>
      if vncReady && qmpReady then None
      else if doneClosed v then Some (ok v w [], T_Seq [AWatcherClose] M_Exit, [])
      else None
  | M_Loop vncReady qmpReady, After90s =>
      if vncReady && qmpReady then None
      else Some (ok v w [],
                 T_Seq [ASendReady timeout_error; ASendWait; AWatcherClose]
                       M_Exit, [])
  | M_Loop vncReady qmpReady, FsError err =>
      if vncReady && qmpReady then None
      else Some (ok v w [],
                 T_Seq [ASendReady (Errorf ("Error monitoring file system, error: "
                                              +:+ error_string err));
                        ASendWait; AWatcherClose] M_Exit, [])
  | F_Scan stderr, Line text =>
      if (if stderr then stderr_closed w else stdout_closed w) then None
      else Some (ok v w [if stderr then EvLogError ("QEMU: " +:+ text)
                         else EvLogInfo ("QEMU: " +:+ text)],
                 F_Scan stderr, [])
  | F_Scan stderr, Go =>
      if (if stderr then stderr_closed w else stdout_closed w)
      then Some (ok v w [], F_Exit, [])
      else None
  | V_Call, Go =>
      if m v then None
      else Some (ok v w [],
                 V_Return (if decide (socketFolder v = "") then ""
                           else Join (socketFolder v) vncSocketFile), [])
  | _, _ => None
  end.

Inductive label : Type :=
| LThread (i : nat) (ch : choice)     (* thread i takes a step *)
| LProcessExit (werr : option error). (* QEMU ends by itself *)

(** A panic ends the program: nothing steps any more. *)
Definition step (l : label) (c : config) : option config :=
  if panicked c then None
  else match l with
       | LThread i ch =>
           match pool c !! i with
           | Some t =>
               match thread_step t ch (vm c) (wd c) with
               | Some (o, t', new) =>
                   Some {| vm := o_vm o; wd := o_world o;
                           pool := <[i := t']> (pool c) ++ new;
                           log := log c ++ o_events o;
                           panicked := o_panic o |}
               | None => None
               end
           | None => None
           end
       | LProcessExit werr =>
           match qemu (wd c) with
           | Running =>
               Some {| vm := vm c; wd := set_qemu (Exited werr) (wd c);
                       pool := pool c; log := log c; panicked := false |}
           | _ => None
           end
       end.

Fixpoint run (ls : list label) (c : config) : option config :=
  match ls with
  | [] => Some c
  | l :: ls' =>
      match step l c with
      | Some c' => run ls' c'
      | None => None
      end
  end.

(** The calls that can be made on a machine. *)
Definition entry (t : thread) : bool :=
  match t with
  | S_Begin => true
  | T_Seq [AKill] K_Return => true
  | T_Seq [ASetHTTPHandler _] H_Return => true
  | V_Call => true
  | _ => false
  end.

Definition init (v : VirtualMachine) (calls : list thread) : config :=
  {| vm := v; wd := new_world; pool := calls; log := []; panicked := false |}.

(** How often the done channel was closed. *)
Definition closes (lg : list event) : nat :=
  length (filter (λ e, e = EvCloseDone) lg).

End VM.

Module Image.

Inductive imageFormat : Type := imageRawFormat | imageQCOW2Format.

#[global] Instance imageFormat_eq_dec : EqDecision imageFormat.
Proof. solve_decision. Defined.

Record snapshot := {
  snap_Name : string;
  snap_ID : string;
  snap_StateSize : Z
}.

Record information := {
  File : string;
  Format : string;
  VirtualSize : Z;
  ClusterSize : Z;
  ActualSize : Z;
  DirtyFlag : bool;
  BackingFormat : string;
  BackingFile : string;
  Snapshots : list snapshot
}.

(** [&information{}] *)
Definition empty_information : information :=
  {| File := ""; Format := ""; VirtualSize := 0; ClusterSize := 0;
     ActualSize := 0; DirtyFlag := false; BackingFormat := "";
     BackingFile := ""; Snapshots := [] |}.

Section Inspect.
(** [exec.Command(name, args...)] run in directory [dir] with
    [p.Output()]; [json.Unmarshal(data, info)], which fills [info] as far
    as it gets; [filepath.Base] and [filepath.Dir]. *)
Variable Output : string → list string → string → string * option error.
Variable Unmarshal : string → information → information * option error.
Variable Base Dir : string → string.

Definition inspectImageFile (imageFile : string) (format : imageFormat)
    : option information :=
  let f := if decide (format = imageQCOW2Format) then "qcow2" else "raw" in
  let '(data, err) :=
    Output "qemu-img"
      ["info"; "-f"; f; "--output"; "json"; "--"; Base imageFile]
      (Dir imageFile) in
  match err with
  | Some _ => None
  | None =>
      let '(info, err) := Unmarshal data empty_information in
      match err with
      | Some _ => None
      | None => Some info
      end
  end.

End Inspect.

End Image.

(** * The options [NewVirtualMachine] builds for QEMU *)

Module VMOptions.

(** The closure [arg] of [NewVirtualMachine]: [entries] are the entries of
    the map [opts] in the order in which [range] yields them. *)
Definition arg (kind : string) (entries : list (string * string)) : string :=
  foldl (λ result kv,
           (if decide (result = "") then result else result +:+ ",")
           +:+ (kv.1 +:+ "=" +:+ kv.2))
        kind entries.

End VMOptions.

(** * commands/qemu-build: [buildImage], a caller of the virtual machine *)

Module QemuBuild.

Inductive event : Type :=
| EvError (msg : string)          (* monitor.Error *)
| EvInfo (msg : string)           (* monitor.Info *)
| EvTempDir (folder : string)     (* ioutil.TempDir has created the folder *)
| EvRemoveAll (folder : string)   (* os.RemoveAll *)
| EvSetHandler                    (* net.SetHandler(&logService{...}) *)
| EvStart                         (* machine.Start() *)
| EvExposeVNC (port : Z)          (* go qemurun.ExposeVNC(...) *)
| EvKill                          (* machine.Kill() *)
| EvWaitDone                      (* <-machine.Done *)
| EvSignalStop                    (* signal.Stop(interrupted) *)
| EvDispose                       (* img.Dispose() *)
| EvPackage (output : string).    (* img.Package(outputFile) *)

(** What [ioext.BoundedReadFile] returns: the data, the sentinel
    [ioext.ErrFileTooBig], or another error. *)
Inductive read_result : Type :=
| ReadOk (data : string)
| ReadTooBig
| ReadErr (err : error).

(** What [vm.MachineSchema.Validate] returns: nil, a
    [*schematypes.ValidationError] with its issues, or another error. *)
Inductive validation : Type :=
| Valid
| Issues (issues : list string)
| Invalid (err : error).

(** Which case of the select in [buildImage] fires: the interrupt, or the
    done channel of the machine, whose [Error] is then read. *)
Inductive finish : Type :=
| Interrupted
| Done (machineError : option error).

(** The collaborators of [buildImage] and [newMachineFromFile], with the
    types of the machine definition as parsed JSON, of [vm.Machine],
    [*image.MutableImage], the user-space network and
    [*vm.VirtualMachine]. *)
Class Host := {
  Json : Type;
  Machine : Type;
  MutableImage : Type;
  Network : Type;
  VirtualMachine : Type;
  Abs : string → res string;
  TempDir : string → res string;
  BoundedReadFile : string → Z → read_result;
  Unmarshal : string → res Json;
  Validate : Json → validation;
  MergeMalformedPayload : list string → error;
  NewMachine : Json → Machine;
  NewMutableImage : string → Z → Machine → res MutableImage;
  NewMutableImageFromFile : string → string → res MutableImage;
  NewUserNetwork : string → res Network;
  NewVirtualMachine :
    MutableImage → Network → string → string → string → res VirtualMachine;
  (* the select on the interrupt and machine.Done *)
  select : VirtualMachine → finish;
  (* Stderr, if the error is an exec.ExitError *)
  ExitError_Stderr : error → option string;
  Package : MutableImage → string → option error
}.

Section Build.
Context `{H : Host}.

(** [newMachineFromFile]: load a [vm.Machine] from a file. *)
Definition newMachineFromFile (machineFile : string) : res Machine :=
  match BoundedReadFile machineFile (1024 * 1024) with
  | ReadTooBig =>
      Err (MalformedPayloadError
             "The file 'machine.json' larger than 1MiB. JSON files must be small.")
  | ReadErr err =>
      Err (Errorf ("faild to read 'machine.json': " +:+ error_string err))
  | ReadOk machineData =>
      match Unmarshal machineData with
      | Err err =>
          Err (MalformedPayloadError
                 ("Invalid JSON in 'machine.json', error: "
                    +:+ error_string err))
      | Ok data =>
          match Validate data with
          | Issues issues =>
              Err (MergeMalformedPayload
                     ("Invalid machine definition in 'machine.json'"
                        :: issues))
          | Invalid verr =>
              Err (MalformedPayloadError
                     ("task.payload schema violation: "
                        +:+ error_string verr))
          | Valid => Ok (NewMachine data)
          end
      end
  end.

Definition sigint : error :=
  Errorf "SIGINT received, aborting virtual machine".

(** [buildImage] once the machine is created: start it, wait for it or
    for an interrupt, dispose the image at the end, and package it if the
    machine ended without error. *)
Definition run_machine (img : MutableImage) (machine : VirtualMachine)
    (outputFile : string) (vncPort : Z) : list event * option error :=
  let started :=
    [EvInfo "Starting virtual machine"; EvStart]
    ++ (if decide (vncPort = 0) then [] else [EvExposeVNC vncPort]) in
  (* errors.New never yields an *exec.ExitError *)
  let '(killed, err, stderr) :=
    match select machine with
    | Interrupted => ([EvKill], Some sigint, None)
    | Done machineError => ([], machineError, machineError ≫= ExitError_Stderr)
    end in
  let waited := started ++ killed ++ [EvWaitDone; EvSignalStop] in
  match err with
  | Some err =>
      (waited
       ++ match stderr with
          | Some stderr => [EvError ("QEMU error: " +:+ stderr)]
          | None => []
          end
       ++ [EvInfo ("Error running virtual machine: " +:+ error_string err);
           EvDispose],
       Some err)
  | None =>
      match Package img outputFile with
      | Some err =>
          (waited
           ++ [EvInfo "Package virtual machine image"; EvPackage outputFile;
               EvError ("Failed to package finished image, error: "
                          +:+ error_string err);
               EvDispose],
           Some err)
      | None =>
          (waited
           ++ [EvInfo "Package virtual machine image"; EvPackage outputFile;
               EvDispose],
           None)
      end
  end.

(** [buildImage] once the image is loaded: the folder for the sockets,
    removed at the end, the network and the machine. *)
Definition with_image (img : MutableImage) (tempFolder outputFile : string)
    (vncPort : Z) (boot cdrom : string) : list event * option error :=
  match TempDir "taskcluster-worker-sockets-" with
  | Err err =>
      ([EvError ("Failed to create temporary folder, error: "
                   +:+ error_string err)], Some err)
  | Ok socketFolder =>
      let '(evs, r) :=
        match NewUserNetwork tempFolder with
        | Err err =>
            ([EvInfo "Creating user-space network";
              EvError ("Failed to create user-space network, error: "
                         +:+ error_string err)], Some err)
        | Ok net =>
            match NewVirtualMachine img net socketFolder boot cdrom with
            | Err err =>
                ([EvInfo "Creating user-space network"; EvSetHandler;
                  EvInfo "Creating virtual machine";
                  EvError ("Failed to recreated virtual-machine, error: "
                             +:+ error_string err)], Some err)
            | Ok machine =>
                let '(evs, r) := run_machine img machine outputFile vncPort in
                ([EvInfo "Creating user-space network"; EvSetHandler;
                  EvInfo "Creating virtual machine"] ++ evs, r)
            end
        end in
      (EvTempDir socketFolder :: evs ++ [EvRemoveAll socketFolder], r)
  end.

Definition buildImage (inputFile outputFile : string) (fromImage : bool)
    (vncPort : Z) (boot cdrom : string) (size : Z)
    : list event * option error :=
  match Abs outputFile with
  | Err err =>
      ([EvError ("Failed to resolve output file, error: "
                   +:+ error_string err)], Some err)
  | Ok outputFile =>
      match TempDir "taskcluster-worker-build-image-" with
      | Err err =>
          ([EvError ("Failed to create temporary folder, error: "
                       +:+ error_string err)], Some err)
      | Ok tempFolder =>
          let '(evs, r) :=
            if negb fromImage then
              match newMachineFromFile inputFile with
              | Err err2 =>
                  ([EvError ("Failed to load machine file from " +:+ inputFile
                               +:+ " error: " +:+ error_string err2)],
                   Some err2)
              | Ok machine =>
                  match NewMutableImage tempFolder size machine with
                  | Err err2 =>
                      ([EvInfo "Creating MutableImage";
                        EvError ("Failed to create image, error: "
                                   +:+ error_string err2)], Some err2)
                  | Ok img =>
                      let '(evs, r) :=
                        with_image img tempFolder outputFile vncPort boot
                          cdrom in
                      (EvInfo "Creating MutableImage" :: evs, r)
                  end
              end
            else
              match NewMutableImageFromFile inputFile tempFolder with
              | Err err =>
                  ([EvError ("Failed to load image, error: "
                               +:+ error_string err)], Some err)
              | Ok img =>
                  with_image img tempFolder outputFile vncPort boot cdrom
              end in
          (EvTempDir tempFolder :: evs ++ [EvRemoveAll tempFolder], r)
      end
  end.

End Build.

End QemuBuild.

Module NativeProps.
Import Native.

(** What the invariant reads of a configuration: the gate, the three result
    fields, the result set the bodies would build, the resolutions that
    have begun and the number of process-tree kills. *)
Definition fields (s : sandbox)
    : option resultSet * option error * option error :=
  (resultSet_ s, resultErr s, abortErr s).

Definition view (s : sandbox) (lg : list event) :=
  (resolve s, fields s, mk_resultSet s, resolutions lg, teardowns lg).

(** The fields when body [k] has run to its end. *)
Definition final (mk : bool → resultSet) (k : body)
    : option resultSet * option error * option error :=
  match k with
  | BWatch success => (Some (mk success), None, Some ErrSandboxTerminated)
  | BKill => (Some (mk false), None, Some ErrSandboxTerminated)
  | BAbort => (None, Some ErrSandboxAborted, None)
  end.

(** The assignment an action makes to the fields. *)
Definition assign (mk : bool → resultSet)
    (f : option resultSet * option error * option error) (a : action) :=
  match a with
  | ASetResultSet success => (Some (mk success), f.1.2, f.2)
  | ASetAbortErr e => (f.1.1, f.1.2, Some e)
  | ASetResultErr e => (f.1.1, Some e, f.2)
  | _ => f
  end.

Definition kills_in (rest : list action) : nat :=
  length (filter (λ a, a = AKillProcessTree) rest).

Definition is_body (t : thread) : bool :=
  match t with TBody _ _ => true | _ => false end.

(** Threads whose program point says nothing about the gate. *)
Definition quiet (t : thread) : bool :=
  match t with TBody _ _ | TRet _ _ _ => false | _ => true end.

Definition ret_of (c : caller)
    (f : option resultSet * option error * option error) : thread :=
  match c with
  | CKill => TRet CKill None f.1.2
  | CAbort => TRet CAbort None f.2
  | CWaitForResult => TRet CWaitForResult f.1.1 f.1.2
  end.

Definition thread_ok
    (v : Once * (option resultSet * option error * option error)
         * (bool → resultSet) * list event * nat) (t : thread) : Prop :=
  let '(gate, f, mk, rs, kills) := v in
  match t with
  | TBody k rest =>
      gate = OnceRunning ∧ rs = [ev_of k]
      ∧ foldl (assign mk) f rest = final mk k
      ∧ (kills + kills_in rest ≤ 1)%nat
  | TRet c _ _ => gate = OnceDone ∧ t = ret_of c f
  | _ => True
  end.

Definition gate_ok
    (v : Once * (option resultSet * option error * option error)
         * (bool → resultSet) * list event * nat) : Prop :=
  let '(gate, f, mk, rs, kills) := v in
  (kills ≤ 1)%nat ∧
  match gate with
  | OnceIdle => rs = [] ∧ f = (None, None, None) ∧ kills = 0%nat
  | OnceRunning => ∃ k, rs = [ev_of k]
  | OnceDone => ∃ k, rs = [ev_of k] ∧ f = final mk k
  end.

Definition unique_body (p : list thread) : Prop :=
  ∀ i j ti tj, p !! i = Some ti → p !! j = Some tj →
    is_body ti = true → is_body tj = true → i = j.

Record Inv (c : config) : Prop := {
  inv_gate : gate_ok (view (sb c) (log c));
  inv_threads : ∀ i t, pool c !! i = Some t → thread_ok (view (sb c) (log c)) t;
  inv_unique : unique_body (pool c)
}.

Lemma quiet_ok v t : quiet t = true → thread_ok v t.
Proof. destruct v as [[[[g f] mk] rs] n]; destruct t; simpl; done. Qed.

Lemma quiet_not_body t : quiet t = true → is_body t = false.
Proof. by destruct t. Qed.

Lemma lookup_updated (p : list thread) i t' extra j tj :
  (<[i := t']> p ++ extra) !! j = Some tj →
  (j = i ∧ tj = t') ∨ (j ≠ i ∧ p !! j = Some tj) ∨ (length p ≤ j)%nat ∧ tj ∈ extra.
Proof.
  intros H. apply lookup_app_Some in H as [H | [Hlen H]].
  - apply list_lookup_insert_Some in H as [(-> & -> & _) | [? ?]]; auto.
  - rewrite length_insert in Hlen. right; right. split; [done |].
    by eapply list_elem_of_lookup_2.
Qed.

(** A step of thread [i] that leaves the view alone. *)
Lemma inv_silent c i t t' s' ex' evs extra :
  Inv c → pool c !! i = Some t →
  view s' (log c ++ evs) = view (sb c) (log c) →
  (is_body t' = true → is_body t = true) →
  thread_ok (view (sb c) (log c)) t' →
  Forall (λ x, quiet x = true) extra →
  Inv {| sb := s'; exited := ex'; pool := <[i := t']> (pool c) ++ extra;
         log := log c ++ evs |}.
Proof.
  intros [Hg Ht Hu] Hi Hv Hb Hok Hex. split; cbn [sb log pool]; rewrite ?Hv.
  - done.
  - intros j tj Hj. apply lookup_updated in Hj as [[-> ->] | [[? Hj] | [_ Hin]]].
    + done.
    + by eapply Ht.
    + apply quiet_ok. by eapply (proj1 (Forall_forall _ _) Hex).
  - assert (Hlen : (i < length (pool c))%nat) by by eapply lookup_lt_Some.
    intros j1 j2 t1 t2 H1 H2 B1 B2.
    apply lookup_updated in H1 as [[-> ->] | [[? H1] | [? Hin]]];
      apply lookup_updated in H2 as [[-> ->] | [[? H2] | [? Hin2]]];
      try done.
    + eapply Hu; eauto.
    + apply (proj1 (Forall_forall _ _) Hex), quiet_not_body in Hin2. congruence.
    + eapply Hu; eauto.
    + eapply Hu; eauto.
    + apply (proj1 (Forall_forall _ _) Hex), quiet_not_body in Hin2. congruence.
    + apply (proj1 (Forall_forall _ _) Hex), quiet_not_body in Hin. congruence.
    + apply (proj1 (Forall_forall _ _) Hex), quiet_not_body in Hin. congruence.
    + apply (proj1 (Forall_forall _ _) Hex), quiet_not_body in Hin. congruence.
Qed.

Lemma inv_silent_nil c i t t' s' ex' :
  Inv c → pool c !! i = Some t →
  view s' (log c) = view (sb c) (log c) →
  (is_body t' = true → is_body t = true) →
  thread_ok (view (sb c) (log c)) t' →
  Inv {| sb := s'; exited := ex'; pool := <[i := t']> (pool c);
         log := log c ++ [] |}.
Proof.
  intros HI Hi Hv Hb Hok.
  rewrite <- (app_nil_r (<[i := t']> (pool c))).
  eapply inv_silent; eauto. by rewrite app_nil_r.
Qed.

(** A step of thread [i] while every other thread is quiet. *)
Lemma inv_alone c i t t' s' ex' evs :
  pool c !! i = Some t →
  (∀ j tj, j ≠ i → pool c !! j = Some tj → quiet tj = true) →
  gate_ok (view s' (log c ++ evs)) →
  thread_ok (view s' (log c ++ evs)) t' →
  Inv {| sb := s'; exited := ex'; pool := <[i := t']> (pool c);
         log := log c ++ evs |}.
Proof.
  intros Hi Hq Hg Hok. split; cbn [sb log pool].
  - done.
  - intros j tj Hj. apply list_lookup_insert_Some in Hj as [(-> & -> & _) | [? Hj]].
    + done.
    + apply quiet_ok. eapply Hq; eauto.
  - intros j1 j2 t1 t2 H1 H2 B1 B2.
    apply list_lookup_insert_Some in H1 as [(-> & -> & _) | [? H1]];
      apply list_lookup_insert_Some in H2 as [(-> & -> & _) | [? H2]]; try done.
    + apply Hq in H2; [|done]. apply quiet_not_body in H2. congruence.
    + apply Hq in H1; [|done]. apply quiet_not_body in H1. congruence.
    + apply Hq in H1; [|done]. apply quiet_not_body in H1. congruence.
Qed.

(** While the gate is idle, and next to the thread that runs the body,
    every thread is quiet. *)
Lemma others_quiet_idle c :
  Inv c → resolve (sb c) = OnceIdle →
  ∀ j tj, pool c !! j = Some tj → quiet tj = true.
Proof.
  intros [_ Ht _] Hidle j tj Hj. specialize (Ht _ _ Hj).
  unfold view in Ht. rewrite Hidle in Ht.
  destruct tj; simpl in *; try done; by destruct Ht.
Qed.

Lemma others_quiet_body c i k rest :
  Inv c → pool c !! i = Some (TBody k rest) →
  ∀ j tj, j ≠ i → pool c !! j = Some tj → quiet tj = true.
Proof.
  intros [_ Ht Hu] Hi j tj Hne Hj.
  pose proof (Ht _ _ Hi) as Hbody. pose proof (Ht _ _ Hj) as Hother.
  unfold view in *. destruct tj; simpl in *; try done.
  - exfalso. apply Hne. symmetry. eapply Hu; eauto.
  - destruct Hbody as [Hb _], Hother as [Ho _]. congruence.
Qed.

Lemma resolutions_app l1 l2 :
  resolutions (l1 ++ l2) = resolutions l1 ++ resolutions l2.
Proof. apply filter_app. Qed.

Lemma teardowns_app l1 l2 :
  teardowns (l1 ++ l2) = (teardowns l1 + teardowns l2)%nat.
Proof. unfold teardowns. by rewrite filter_app, length_app. Qed.

Lemma shell_aborts_plain (l : list nat) :
  resolutions (EvShellAbort <$> l) = [] ∧ teardowns (EvShellAbort <$> l) = 0%nat.
Proof. induction l as [| x l [IH1 IH2]]; [done |]. split; [apply IH1 | apply IH2]. Qed.

(** What an action of a body changes in the view. *)
Lemma exec_view a s ex s' ex' evs :
  exec a s ex = Some (s', ex', evs) →
  resolve s' = resolve s
  ∧ fields s' = assign (mk_resultSet s) (fields s) a
  ∧ mk_resultSet s' = mk_resultSet s
  ∧ resolutions evs = []
  ∧ teardowns evs = kills_in [a].
Proof.
  destruct a; simpl; intros H; try (injection H as <- <- <-; done).
  - injection H as <- <- <-. by destruct (shell_aborts_plain (shells s)).
  - destruct (wg_Wait (sessions s)); [| done]. by injection H as <- <- <-.
  - injection H as <- <- <-. by destruct (createUser s).
  - injection H as <- <- <-. by destruct (createUser s).
  - injection H as <- <- <-. by destruct (workingFolder s).
Qed.

Lemma NewShell_view spawn command s lg :
  view (NewShell spawn command s).1 lg = view s lg.
Proof.
  unfold NewShell, wg_Add. destruct (wg_draining (sessions s)); [done |].
  by destruct spawn.
Qed.

Lemma ev_of_view k :
  resolutions [ev_of k] = [ev_of k] ∧ teardowns [ev_of k] = 0%nat.
Proof. by destruct k. Qed.

Lemma kills_in_cons a rest :
  kills_in (a :: rest) = (kills_in [a] + kills_in rest)%nat.
Proof.
  unfold kills_in. rewrite !filter_cons, filter_nil.
  by destruct (decide (a = AKillProcessTree)).
Qed.

Lemma body_of_final mk k :
  foldl (assign mk) (None, None, None) (body_of k) = final mk k.
Proof. by destruct k. Qed.

Lemma body_of_kills k : (kills_in (body_of k) ≤ 1)%nat.
Proof. destruct k; vm_compute; lia. Qed.

Lemma returns_ret_of c s : returns c s = ret_of c (fields s).
Proof. by destruct c. Qed.

Lemma after_Do_quiet k : quiet (after_Do k) = true.
Proof. by destruct k. Qed.

(** Every step keeps the invariant. *)
Lemma step_inv blocking l c c' : Inv c → step blocking l c = Some c' → Inv c'.
Proof.
  intros HI Hstep. destruct l as [i | i spawn | success]; simpl in Hstep.
  - destruct (pool c !! i) as [t |] eqn:Hi; [| done].
    destruct (thread_step blocking t (sb c) (exited c))
      as [[[[s' ex'] t'] evs] |] eqn:Hts; [| done].
    injection Hstep as <-.
    pose proof (inv_threads _ HI _ _ Hi) as Hok.
    pose proof (inv_gate _ HI) as Hg.
    destruct t as [| success | k | k rest | cl | | | | sh | sh |];
      simpl in Hts; try done.
    + (* s.process.Wait() *)
      destruct (exited c); [| done]. injection Hts as <- <- <- <-.
      by eapply inv_silent_nil.
    + (* s.sessions.WaitAndDrain() *)
      destruct (wg_WaitAndDrain (sessions (sb c))); [| done].
      injection Hts as <- <- <- <-. by eapply inv_silent_nil.
    + (* s.resolve.Do *)
      destruct (resolve (sb c)) eqn:Hr.
      * injection Hts as <- <- <- <-.
        eapply inv_alone; [done | | |].
        -- intros j tj _ Hj. by eapply others_quiet_idle.
        -- unfold view in *. rewrite resolutions_app, teardowns_app.
           destruct (ev_of_view k) as [-> ->]. simpl.
           rewrite Hr in Hg. destruct Hg as (Hk & -> & _ & Hz). split.
           ++ lia.
           ++ by exists k.
        -- unfold view in *. rewrite resolutions_app, teardowns_app.
           destruct (ev_of_view k) as [-> ->]. simpl.
           rewrite Hr in Hg. destruct Hg as (Hk & -> & Hf & Hz).
           unfold fields in Hf. injection Hf as Hf1 Hf2 Hf3.
           unfold fields; simpl. rewrite Hf1, Hf2, Hf3, Hz.
           split; [done |]. split; [done |].
           split; [apply body_of_final |].
           pose proof (body_of_kills k). lia.
      * destruct blocking; [done |]. injection Hts as <- <- <- <-.
        eapply inv_silent_nil; eauto.
        -- by rewrite quiet_not_body by apply after_Do_quiet.
        -- apply quiet_ok, after_Do_quiet.
      * injection Hts as <- <- <- <-.
        eapply inv_silent_nil; eauto.
        -- by rewrite quiet_not_body by apply after_Do_quiet.
        -- apply quiet_ok, after_Do_quiet.
    + (* inside the body *)
      destruct rest as [| a rest].
      * injection Hts as <- <- <- <-.
        eapply inv_alone; [done | by eapply others_quiet_body | |].
        -- unfold view in *. rewrite app_nil_r. simpl in *.
           destruct Hok as (Hr & Hrs & Hf & Hk). rewrite Hr in Hg.
           split; [lia |]. by exists k.
        -- apply quiet_ok, after_Do_quiet.
      * destruct (exec a (sb c) (exited c)) as [[[s1 ex1] evs1] |] eqn:Hex;
          [| done].
        injection Hts as <- <- <- <-.
        apply exec_view in Hex as (Hr' & Hf' & Hmk & Hres & Htd).
        eapply inv_alone; [done | by eapply others_quiet_body | |].
        -- unfold view in *. rewrite resolutions_app, teardowns_app.
           rewrite Hr', Hres, Htd, app_nil_r.
           destruct Hok as (Hr & Hrs & Hf & Hk). rewrite Hr.
           rewrite kills_in_cons in Hk.
           split; [lia | by exists k].
        -- unfold view in *. rewrite resolutions_app, teardowns_app.
           rewrite Hr', Hf', Hmk, Hres, Htd, app_nil_r.
           destruct Hok as (Hr & Hrs & Hf & Hk).
           rewrite kills_in_cons in Hk.
           split; [done |]. split; [done |]. split; [exact Hf | lia].
    + (* s.resolve.Wait() *)
      destruct (resolve (sb c)) eqn:Hr; try done.
      injection Hts as <- <- <- <-.
      eapply inv_silent_nil; eauto.
      * by destruct cl.
      * unfold view. rewrite Hr, returns_ret_of. by destruct cl.
    + injection Hts as <- <- <- <-. by eapply inv_silent_nil.
    + injection Hts as <- <- <- <-. by eapply inv_silent_nil.
  - destruct (pool c !! i) as [t |] eqn:Hi; [| done].
    destruct t; try done.
    pose proof (NewShell_view spawn command (sb c) (log c)) as Hv.
    destruct (NewShell spawn command (sb c)) as [s' r]. injection Hstep as <-.
    rewrite <- (app_nil_r (log c)) at 1. eapply inv_silent; eauto.
    + by rewrite app_nil_r.
    + done.
    + destruct r; by repeat constructor.
  - destruct (exited c); [done |]. injection Hstep as <-.
    destruct HI as [Hg Ht Hu]. by split.
Qed.

Lemma run_inv blocking ls c c' : Inv c → run blocking ls c = Some c' → Inv c'.
Proof.
  revert c. induction ls as [| l ls IH]; simpl; intros c HI Hrun.
  - by injection Hrun as <-.
  - destruct (step blocking l c) as [c1 |] eqn:Hs; [| done].
    eapply IH; [| done]. by eapply step_inv.
Qed.

Lemma init_inv s calls :
  fresh s → Forall (λ t, entry t = true) calls → Inv (init s calls).
Proof.
  intros (Hr & H1 & H2 & H3) Hcalls.
  assert (Hq : ∀ i t, calls !! i = Some t → quiet t = true).
  { intros i t Hi. apply list_elem_of_lookup_2 in Hi.
    apply (proj1 (Forall_forall _ _) Hcalls) in Hi. by destruct t. }
  split; cbn [sb log pool init].
  - unfold view, fields. rewrite Hr, H1, H2, H3.
    change (teardowns []) with 0%nat. split; [lia | done].
  - intros i t Hi. apply quiet_ok. by eapply Hq.
  - intros i j ti tj Hi Hj Bi _. apply Hq, quiet_not_body in Hi. congruence.
Qed.

Lemma reachable_inv blocking s calls ls c :
  fresh s → Forall (λ t, entry t = true) calls →
  run blocking ls (init s calls) = Some c → Inv c.
Proof. intros Hs Hc Hrun. eapply run_inv; [by apply init_inv | done]. Qed.

(** What a returned caller holds, read off the invariant. *)
Lemma returned_fields c i cl rs err :
  Inv c → pool c !! i = Some (TRet cl rs err) →
  resolve (sb c) = OnceDone
  ∧ TRet cl rs err = ret_of cl (fields (sb c))
  ∧ ∃ k, resolutions (log c) = [ev_of k]
         ∧ fields (sb c) = final (mk_resultSet (sb c)) k.
Proof.
  intros [Hg Ht _] Hi. specialize (Ht _ _ Hi). unfold view in *.
  destruct Ht as [Hd Hret]. rewrite Hd in Hg. by destruct Hg as [_ Hk].
Qed.

(** A sandbox to run the theorems on: a created user, a working folder, and
    the watcher next to two [Kill], an [Abort] and a [WaitForResult]. *)
Definition demo_sandbox : sandbox :=
  {| createUser := true; workingFolder := Some {| Path := "/tmp/task" |};
     user := {| Name := "task"; Home := "/tmp/task" |};
     process := {| pid := 1 |}; env := ∅;
     resolve := OnceIdle; resultSet_ := None; resultErr := None;
     abortErr := None;
     sessions := {| wg_count := 0; wg_draining := false |}; shells := [] |}.

Definition demo_calls : list thread :=
  [waitForTermination; Kill; Abort; WaitForResult; Kill].

(** [Kill] (thread 1) wins the gate and returns; then the second [Kill],
    [WaitForResult], [Abort] and the watcher run. *)
Definition demo_schedule : list label :=
  replicate 9 (LThread 1) ++ replicate 2 (LThread 4) ++ [LThread 3]
  ++ replicate 2 (LThread 2) ++ replicate 3 (LThread 0).

Definition demo_final : config :=
  default (init demo_sandbox demo_calls)
          (run true demo_schedule (init demo_sandbox demo_calls)).

(** [Abort] alone on the sandbox, run to its return. *)
Definition abort_schedule : list label := replicate 10 (LThread 0).

Definition abort_final : config :=
  default (init demo_sandbox [Abort])
          (run true abort_schedule (init demo_sandbox [Abort])).

(** [newSandbox] hands out a sandbox whose gate is idle and whose result
    fields are nil. *)
Lemma newSandbox_fresh `{Sys : System} b evs s :
  newSandbox b = (evs, Ok s) → fresh s.
Proof.
  unfold newSandbox, newSandbox_body, newSandbox_start. intros H.
  repeat case_match; simplify_eq; done.
Qed.

(** C1: under every interleaving of the watcher with any calls of Kill,
    Abort, WaitForResult and NewShell, at most one resolution body starts,
    at most one thread is ever inside a body, the process tree is killed at
    most once, and every returned WaitForResult and Kill holds the stored
    result set and error, so all callers agree. *)
Theorem resolution_exactly_once (blocking : bool) (s : sandbox)
    (calls : list thread) (ls : list label) (c : config) :
  fresh s → Forall (λ t, entry t = true) calls →
  run blocking ls (init s calls) = Some c →
  (length (resolutions (log c)) ≤ 1)%nat
  ∧ unique_body (pool c)
  ∧ (teardowns (log c) ≤ 1)%nat
  ∧ (∀ i rs err, pool c !! i = Some (TRet CWaitForResult rs err) →
       rs = resultSet_ (sb c) ∧ err = resultErr (sb c))
  ∧ (∀ i rs err, pool c !! i = Some (TRet CKill rs err) →
       err = resultErr (sb c))
  ∧ (∀ i j rs err rs' err',
       pool c !! i = Some (TRet CWaitForResult rs err) →
       pool c !! j = Some (TRet CWaitForResult rs' err') →
       rs = rs' ∧ err = err')
  ∧ (∀ i j rs err rs' err',
       pool c !! i = Some (TRet CWaitForResult rs err) →
       pool c !! j = Some (TRet CKill rs' err') → err' = err).
Proof.
  intros Hs Hc Hrun. pose proof (reachable_inv _ _ _ _ _ Hs Hc Hrun) as HI.
  assert (Hw : ∀ i rs err, pool c !! i = Some (TRet CWaitForResult rs err) →
                 rs = resultSet_ (sb c) ∧ err = resultErr (sb c)).
  { intros i rs err Hi.
    destruct (returned_fields _ _ _ _ _ HI Hi) as (_ & Hret & _).
    by injection Hret as -> ->. }
  assert (Hk : ∀ i rs err, pool c !! i = Some (TRet CKill rs err) →
                 err = resultErr (sb c)).
  { intros i rs err Hi.
    destruct (returned_fields _ _ _ _ _ HI Hi) as (_ & Hret & _).
    by injection Hret as -> ->. }
  split; [| split; [| split; [| split; [| split; [| split]]]]].
  - destruct HI as [[_ Hg] _ _]. unfold view in Hg.
    destruct (resolve (sb c)).
    + destruct Hg as [-> _]. simpl. lia.
    + destruct Hg as [k ->]. done.
    + destruct Hg as [k [-> _]]. done.
  - apply HI.
  - apply HI.
  - exact Hw.
  - exact Hk.
  - intros i j rs err rs' err' Hi Hj.
    apply Hw in Hi as [-> ->]. by apply Hw in Hj as [-> ->].
  - intros i j rs err rs' err' Hi Hj.
    apply Hw in Hi as [_ ->]. by apply Hk in Hj as ->.
Qed.

Lemma resolution_exactly_once_witness :
  (length (resolutions (log demo_final)) ≤ 1)%nat
  ∧ unique_body (pool demo_final)
  ∧ (teardowns (log demo_final) ≤ 1)%nat
  ∧ (∀ i rs err, pool demo_final !! i = Some (TRet CWaitForResult rs err) →
       rs = resultSet_ (sb demo_final) ∧ err = resultErr (sb demo_final))
  ∧ (∀ i rs err, pool demo_final !! i = Some (TRet CKill rs err) →
       err = resultErr (sb demo_final))
  ∧ (∀ i j rs err rs' err',
       pool demo_final !! i = Some (TRet CWaitForResult rs err) →
       pool demo_final !! j = Some (TRet CWaitForResult rs' err') →
       rs = rs' ∧ err = err')
  ∧ (∀ i j rs err rs' err',
       pool demo_final !! i = Some (TRet CWaitForResult rs err) →
       pool demo_final !! j = Some (TRet CKill rs' err') → err' = err).
Proof.
  apply (resolution_exactly_once true demo_sandbox demo_calls demo_schedule).
  - repeat split.
  - repeat constructor.
  - vm_compute. reflexivity.
Defined.

(** C8: a returned Kill holds nil whenever the resolution was run by Kill
    or by the natural-completion watcher; a non-nil error can only be the
    aborted error stored by a winning Abort. *)
Theorem Kill_returns_nil_unless_aborted (blocking : bool) (s : sandbox)
    (calls : list thread) (ls : list label) (c : config) (i : nat)
    (rs : option resultSet) (err : option error) :
  fresh s → Forall (λ t, entry t = true) calls →
  run blocking ls (init s calls) = Some c →
  pool c !! i = Some (TRet CKill rs err) →
  ((resolutions (log c) = [EvResolveKill]
    ∨ (∃ success, resolutions (log c) = [EvResolveWatch success])) →
   err = None)
  ∧ (err ≠ None →
     resolutions (log c) = [EvResolveAbort] ∧ err = Some ErrSandboxAborted).
Proof.
  intros Hs Hc Hrun Hi.
  pose proof (reachable_inv _ _ _ _ _ Hs Hc Hrun) as HI.
  destruct (returned_fields _ _ _ _ _ HI Hi) as (_ & Hret & k & Hres & Hf).
  rewrite Hf in Hret. rewrite Hres.
  destruct k; simpl in Hret; injection Hret as -> ->; split; try done.
  - intros [Hk | [b Hw]]; discriminate.
Qed.

Lemma Kill_returns_nil_unless_aborted_witness :
  ((resolutions (log demo_final) = [EvResolveKill]
    ∨ (∃ success, resolutions (log demo_final) = [EvResolveWatch success])) →
   (None : option error) = None)
  ∧ ((None : option error) ≠ None →
     resolutions (log demo_final) = [EvResolveAbort]
     ∧ None = Some ErrSandboxAborted).
Proof.
  apply (Kill_returns_nil_unless_aborted true demo_sandbox demo_calls
           demo_schedule demo_final 1 None None).
  - repeat split.
  - repeat constructor.
  - vm_compute. reflexivity.
  - vm_compute. reflexivity.
Defined.

(** C4, as the spec words it, fails: an Abort that wins the gate returns
    nil, not the aborted error. *)
Lemma Abort_winner_returns_aborted_fails :
  ¬ (∀ (blocking : bool) (s : sandbox) (calls : list thread)
       (ls : list label) (c : config) (i : nat) (rs : option resultSet)
       (err : option error),
       fresh s → Forall (λ t, entry t = true) calls →
       run blocking ls (init s calls) = Some c →
       resolutions (log c) = [EvResolveAbort] →
       pool c !! i = Some (TRet CAbort rs err) →
       err = Some ErrSandboxAborted).
Proof.
  intros H.
  specialize (H true demo_sandbox [Abort] abort_schedule abort_final 0%nat
                None None).
  discriminate H.
  - repeat split.
  - repeat constructor.
  - vm_compute. reflexivity.
  - vm_compute. reflexivity.
  - vm_compute. reflexivity.
Qed.

(** C4, amended: when Abort wins the gate, Abort returns nil, and the
    aborted error is what WaitForResult (with no result set) and Kill
    return; when Kill wins, WaitForResult returns the result set of a failed
    run with a nil error, Kill returns nil and Abort returns the terminated
    error.  The two errors differ. *)
Theorem Abort_and_Kill_outcomes (blocking : bool) (s : sandbox)
    (calls : list thread) (ls : list label) (c : config) (i : nat)
    (cl : caller) (rs : option resultSet) (err : option error) :
  fresh s → Forall (λ t, entry t = true) calls →
  run blocking ls (init s calls) = Some c →
  pool c !! i = Some (TRet cl rs err) →
  (resolutions (log c) = [EvResolveAbort] →
   match cl with
   | CAbort => err = None
   | CKill => err = Some ErrSandboxAborted
   | CWaitForResult => rs = None ∧ err = Some ErrSandboxAborted
   end)
  ∧ (resolutions (log c) = [EvResolveKill] →
     match cl with
     | CAbort => err = Some ErrSandboxTerminated
     | CKill => err = None
     | CWaitForResult =>
         rs = Some (mk_resultSet (sb c) false) ∧ err = None
     end)
  ∧ ErrSandboxAborted ≠ ErrSandboxTerminated.
Proof.
  intros Hs Hc Hrun Hi.
  pose proof (reachable_inv _ _ _ _ _ Hs Hc Hrun) as HI.
  destruct (returned_fields _ _ _ _ _ HI Hi) as (_ & Hret & k & Hres & Hf).
  rewrite Hf in Hret. rewrite Hres.
  split; [| split; [| done]].
  - intros Hk. destruct k; try discriminate.
    destruct cl; simpl in Hret; by injection Hret as -> ->.
  - intros Hk. destruct k; try discriminate.
    destruct cl; simpl in Hret; by injection Hret as -> ->.
Qed.

Lemma Abort_and_Kill_outcomes_witness :
  (resolutions (log abort_final) = [EvResolveAbort] → (None : option error) = None)
  ∧ (resolutions (log abort_final) = [EvResolveKill] →
     None = Some ErrSandboxTerminated)
  ∧ ErrSandboxAborted ≠ ErrSandboxTerminated.
Proof.
  apply (Abort_and_Kill_outcomes true demo_sandbox [Abort] abort_schedule
           abort_final 0 CAbort None None).
  - repeat split.
  - repeat constructor.
  - vm_compute. reflexivity.
  - vm_compute. reflexivity.
Defined.

(** No step takes the session registry out of draining. *)
Lemma draining_step blocking l c c' :
  wg_draining (sessions (sb c)) = true → step blocking l c = Some c' →
  wg_draining (sessions (sb c')) = true.
Proof.
  intros Hd Hstep. destruct l as [i | i spawn | success]; simpl in Hstep.
  - destruct (pool c !! i) as [t |]; [| done].
    destruct (thread_step blocking t (sb c) (exited c))
      as [[[[s' ex'] t'] evs] |] eqn:Hts; [| done].
    injection Hstep as <-. simpl.
    destruct t as [| success | k | k rest | cl | | | | sh | sh |];
      simpl in Hts; try done.
    + destruct (exited c); [| done]. by injection Hts as <- <- <- <-.
    + unfold wg_WaitAndDrain in Hts. case_decide; [| done].
      by injection Hts as <- <- <- <-.
    + destruct (resolve (sb c)); [| destruct blocking; [done |] |];
        by injection Hts as <- <- <- <-.
    + destruct rest as [| a rest]; [by injection Hts as <- <- <- <- |].
      destruct (exec a (sb c) (exited c)) as [[[s1 ex1] evs1] |] eqn:Hex;
        [| done].
      injection Hts as <- <- <- <-.
      destruct a; simpl in Hex; try (by injection Hex as <- <- <-).
      unfold wg_Wait in Hex. case_decide; [| done]. by injection Hex as <- <- <-.
    + destruct (resolve (sb c)); try done. by injection Hts as <- <- <- <-.
    + by injection Hts as <- <- <- <-.
    + by injection Hts as <- <- <- <-.
  - destruct (pool c !! i) as [t |]; [| done]. destruct t; try done.
    unfold NewShell, wg_Add in Hstep. rewrite Hd in Hstep.
    by injection Hstep as <-.
  - destruct (exited c); [done |]. by injection Hstep as <-.
Qed.

Lemma draining_run blocking ls c c' :
  wg_draining (sessions (sb c)) = true → run blocking ls c = Some c' →
  wg_draining (sessions (sb c')) = true.
Proof.
  revert c. induction ls as [| l ls IH]; simpl; intros c Hd Hrun.
  - by injection Hrun as <-.
  - destruct (step blocking l c) as [c1 |] eqn:Hs; [| done].
    eapply IH; [| done]. by eapply draining_step.
Qed.

(** C5: once the session registry drains, in every later state NewShell
    fails with the terminated error and leaves sessions and shells as they
    were; and on any sandbox a failed spawn leaves the sessions as they
    were (the increment is undone) and, unless draining, is reported as a
    malformed-payload error. *)
Theorem NewShell_draining_and_rollback (blocking : bool) (c0 c : config)
    (ls : list label) (spawn : res shell) (command : list string) :
  wg_draining (sessions (sb c0)) = true → run blocking ls c0 = Some c →
  ((NewShell spawn command (sb c)).2 = Err ErrSandboxTerminated
   ∧ sessions (NewShell spawn command (sb c)).1 = sessions (sb c)
   ∧ shells (NewShell spawn command (sb c)).1 = shells (sb c))
  ∧ (∀ (s : sandbox) (e : error),
       sessions (NewShell (Err e) command s).1 = sessions s
       ∧ shells (NewShell (Err e) command s).1 = shells s
       ∧ wg_Wait (sessions (NewShell (Err e) command s).1) = wg_Wait (sessions s)
       ∧ (wg_draining (sessions s) = false →
          ∃ msg, (NewShell (Err e) command s).2
                 = Err (MalformedPayloadError msg))).
Proof.
  intros Hd Hrun. split.
  - apply (draining_run _ _ _ _ Hd) in Hrun.
    unfold NewShell, wg_Add. by rewrite Hrun.
  - intros s e.
    assert (Hs : sessions (NewShell (Err e) command s).1 = sessions s).
    { unfold NewShell, wg_Add. destruct (sessions s) as [n d] eqn:Hwg.
      destruct d; simpl; rewrite ?Hwg; [done |].
      unfold wg_Done; simpl. f_equal. lia. }
    split; [done |]. split.
    { unfold NewShell, wg_Add. by destruct (wg_draining (sessions s)). }
    split; [by rewrite Hs |].
    intros Hn. unfold NewShell, wg_Add. rewrite Hn. simpl. eauto.
Qed.

Lemma NewShell_draining_and_rollback_witness :
  ((NewShell (Ok 7%nat) ["sh"] (sb demo_final)).2 = Err ErrSandboxTerminated
   ∧ sessions (NewShell (Ok 7%nat) ["sh"] (sb demo_final)).1
     = sessions (sb demo_final)
   ∧ shells (NewShell (Ok 7%nat) ["sh"] (sb demo_final)).1
     = shells (sb demo_final))
  ∧ (∀ (s : sandbox) (e : error),
       sessions (NewShell (Err e) ["sh"] s).1 = sessions s
       ∧ shells (NewShell (Err e) ["sh"] s).1 = shells s
       ∧ wg_Wait (sessions (NewShell (Err e) ["sh"] s).1) = wg_Wait (sessions s)
       ∧ (wg_draining (sessions s) = false →
          ∃ msg, (NewShell (Err e) ["sh"] s).2
                 = Err (MalformedPayloadError msg))).
Proof.
  apply (NewShell_draining_and_rollback true demo_final demo_final []).
  - vm_compute. reflexivity.
  - reflexivity.
Defined.

(** A host on which every collaborator succeeds and the downloaded context
    is a plain text file, and one on which unpacking a zip archive fails. *)
Definition text_host : System :=
  {| NewFolder := Ok {| Path := "/tmp/task" |};
     CreateUser := λ home _, Ok {| Name := "task"; Home := home |};
     CurrentUser := Ok {| Name := "worker"; Home := "/home/worker" |};
     Download := λ _ home, Ok (home +:+ "/context.txt");
     Chmod := λ _, None;
     ChangeOwner := λ _ _, None;
     Unzip := λ _, None;
     Gunzip := λ _, ("", None);
     Untar := λ _, None;
     StartProcess := λ _, Ok {| pid := 1 |} |}.

Definition bad_zip_host : System :=
  {| NewFolder := Ok {| Path := "/tmp/task" |};
     CreateUser := λ home _, Ok {| Name := "task"; Home := home |};
     CurrentUser := Ok {| Name := "worker"; Home := "/home/worker" |};
     Download := λ _ home, Ok (home +:+ "/context.zip");
     Chmod := λ _, None;
     ChangeOwner := λ _ _, None;
     Unzip := λ _, Some (Errorf "zip: not a valid zip file");
     Gunzip := λ _, ("", None);
     Untar := λ _, None;
     StartProcess := λ _, Ok {| pid := 1 |} |}.

Definition demo_builder : sandboxBuilder :=
  {| b_CreateUser := true; b_groups := [];
     b_Context := "https://example.com/context"; b_Command := ["echo"; "ok"];
     b_env := ∅ |}.

(** C7, as the spec words it, fails: with a context whose file has an
    unrecognised extension the construction succeeds, and nothing is
    removed. *)
Lemma unrecognized_extension_fails_construction_fails :
  ¬ (∀ (Sys : System) (b : sandboxBuilder) (wf : TemporaryFolder) (u : User)
       (filename : string),
       b_CreateUser b = true → b_Context b ≠ "" →
       NewFolder = Ok wf → CreateUser (Path wf) (b_groups b) = Ok u →
       Download (b_Context b) (Home u) = Ok filename →
       Ext filename ≠ ".zip" → Ext filename ≠ ".gz" → Ext filename ≠ ".tar" →
       ∃ msg, (newSandbox b).2 = Err (MalformedPayloadError msg)).
Proof.
  intros H.
  destruct (H text_host demo_builder {| Path := "/tmp/task" |}
              {| Name := "task"; Home := "/tmp/task" |}
              "/tmp/task/context.txt") as [msg Hmsg]; try done.
Qed.

Lemma fetchContext_unrecognized `{Sys : System} context u filename :
  Download context (Home u) = Ok filename →
  Chmod filename = None → ChangeOwner filename u = None →
  Ext filename ≠ ".zip" → Ext filename ≠ ".gz" →
  fetchContext context u = None.
Proof.
  intros Hd Hc Ho Hz Hg. unfold fetchContext. rewrite Hd, Hc, Ho.
  rewrite (decide_False (P := Ext filename = ".zip")) by done.
  rewrite (decide_False (P := Ext filename = ".gz")) by done.
  done.
Qed.

(** C7, amended: a fetched file with an unrecognised extension is left as
    downloaded and [fetchContext] reports no error; whenever [fetchContext]
    does fail, construction fails with a malformed-payload error and the
    deferred function removes the created user and then the working folder,
    the reverse of their acquisition (with the ambient user nothing is
    removed). *)
Theorem newSandbox_context_failure (Sys : System) (b : sandboxBuilder) :
  b_Context b ≠ "" →
  (∀ u filename,
     Download (b_Context b) (Home u) = Ok filename →
     Chmod filename = None → ChangeOwner filename u = None →
     Ext filename ≠ ".zip" → Ext filename ≠ ".gz" →
     fetchContext (b_Context b) u = None)
  ∧ (∀ wf u err,
       b_CreateUser b = true →
       NewFolder = Ok wf → CreateUser (Path wf) (b_groups b) = Ok u →
       fetchContext (b_Context b) u = Some err →
       newSandbox b
       = ([EvNewFolder wf; EvCreateUser u; EvUserRemove u; EvFolderRemove wf],
          Err (MalformedPayloadError
                 ("Error downloading " +:+ b_Context b +:+ ": "
                    +:+ error_string err))))
  ∧ (∀ u err,
       b_CreateUser b = false → CurrentUser = Ok u →
       fetchContext (b_Context b) u = Some err →
       newSandbox b
       = ([], Err (MalformedPayloadError
                     ("Error downloading " +:+ b_Context b +:+ ": "
                        +:+ error_string err)))).
Proof.
  intros Hctx. split; [| split].
  - intros u filename. apply fetchContext_unrecognized.
  - intros wf u err Hcu Hnf Hu Hf.
    unfold newSandbox, newSandbox_body, newSandbox_start.
    rewrite Hcu, Hnf, Hu. rewrite (decide_False (P := b_Context b = "")) by done.
    rewrite Hf. unfold deferred. simpl. by rewrite Hcu.
  - intros u err Hcu Hu Hf.
    unfold newSandbox, newSandbox_body, newSandbox_start.
    rewrite Hcu, Hu. rewrite (decide_False (P := b_Context b = "")) by done.
    rewrite Hf. unfold deferred. simpl. by rewrite Hcu.
Qed.

Lemma newSandbox_context_failure_witness :
  @fetchContext text_host (b_Context demo_builder)
     {| Name := "task"; Home := "/tmp/task" |} = None
  ∧ (@newSandbox bad_zip_host demo_builder).1
    = [EvNewFolder {| Path := "/tmp/task" |};
       EvCreateUser {| Name := "task"; Home := "/tmp/task" |};
       EvUserRemove {| Name := "task"; Home := "/tmp/task" |};
       EvFolderRemove {| Path := "/tmp/task" |}].
Proof.
  split.
  - refine (proj1 (newSandbox_context_failure text_host demo_builder _)
              {| Name := "task"; Home := "/tmp/task" |}
              "/tmp/task/context.txt" _ _ _ _ _);
      vm_compute; congruence.
  - rewrite (proj1 (proj2 (newSandbox_context_failure bad_zip_host
                             demo_builder ltac:(vm_compute; congruence)))
               {| Path := "/tmp/task" |}
               {| Name := "task"; Home := "/tmp/task" |}
               (Errorf "Error unpacking 'https://example.com/context': zip: not a valid zip file"));
      vm_compute; reflexivity.
Defined.

End NativeProps.

Module VMProps.
Import VM.

(** A machine to run the theorems on, and a call of Start on it. *)
Definition demo_vm : VirtualMachine :=
  NewVirtualMachine {| DiskFile := "/images/disk.qcow2"; Format := "qcow2" |}
    {| NetDev := "tap0" |} "/tmp/sockets" "Zm9vYmFy".

(** Monitoring of the socket folder cannot be set up. *)
Definition setup_failure_schedule : list label :=
  [LThread 0 Go; LThread 0 (Setup (Some (Errorf "too many open files")) None)]
  ++ replicate 4 (LThread 0 Go).

(** QEMU cannot be spawned. *)
Definition spawn_failure_schedule : list label :=
  [LThread 0 Go; LThread 0 (Setup None None);
   LThread 0 (Spawn (Some (Errorf "exec: qemu-system-x86_64: not found")))]
  ++ replicate 2 (LThread 0 Go).

(** Both sockets show up, Start returns, QEMU ends and the exit watcher
    (thread 4) runs to its end. *)
Definition normal_schedule : list label :=
  [LThread 0 Go; LThread 0 (Setup None None); LThread 0 (Spawn None);
   LThread 1 (FsEvent true "vnc.sock"); LThread 1 (FsEvent true "qmp.sock")]
  ++ replicate 4 (LThread 1 Go)
  ++ [LThread 0 RecvReady; LProcessExit None]
  ++ replicate 14 (LThread 4 Go).

(** No socket shows up: the monitor (thread 1) times out, Start takes the
    error and kills QEMU, and the exit watcher runs to its end. *)
Definition timeout_schedule : list label :=
  [LThread 0 Go; LThread 0 (Setup None None); LThread 0 (Spawn None);
   LThread 1 After90s; LThread 1 Go; LThread 0 RecvReady]
  ++ replicate 4 (LThread 0 Go)
  ++ replicate 3 (LThread 1 Go)
  ++ replicate 14 (LThread 4 Go).

Definition final_of (ls : list label) : config :=
  default (init demo_vm [Start]) (run ls (init demo_vm [Start])).

(** *** Counting over the pool *)

Fixpoint total (f : thread → nat) (p : list thread) : nat :=
  match p with
  | [] => 0
  | t :: p' => f t + total f p'
  end.

Lemma total_app f p1 p2 : total f (p1 ++ p2) = (total f p1 + total f p2)%nat.
Proof. induction p1 as [| t p1 IH]; simpl; [done | lia]. Qed.

Lemma total_insert f p i t t' :
  p !! i = Some t →
  (total f (<[i := t']> p) + f t = total f p + f t')%nat.
Proof.
  revert i. induction p as [| x p IH]; intros [| i] Hi; simpl in *; try done.
  - injection Hi as ->. lia.
  - specialize (IH _ Hi). lia.
Qed.

Lemma total_ge f p i t : p !! i = Some t → (f t ≤ total f p)%nat.
Proof.
  revert i. induction p as [| x p IH]; intros [| i] Hi; simpl in *; try done.
  - injection Hi as ->. lia.
  - specialize (IH _ Hi). lia.
Qed.

Lemma total_two f p i j ti tj :
  p !! i = Some ti → p !! j = Some tj → i ≠ j →
  (f ti + f tj ≤ total f p)%nat.
Proof.
  revert i j. induction p as [| x p IH]; intros [| i] [| j] Hi Hj Hne;
    simpl in *; try done.
  - injection Hi as ->. pose proof (total_ge f _ _ _ Hj). lia.
  - injection Hj as ->. pose proof (total_ge f _ _ _ Hi). lia.
  - assert (i ≠ j) by congruence. specialize (IH _ _ Hi Hj H). lia.
Qed.

Lemma total_pos f p : (1 ≤ total f p)%nat → ∃ i t, p !! i = Some t ∧ (1 ≤ f t)%nat.
Proof.
  induction p as [| x p IH]; simpl; [lia |]. intros H.
  destruct (decide (1 ≤ f x)%nat) as [Hx | Hx].
  - by exists 0%nat, x.
  - destruct IH as (i & t & Hi & Ht); [lia |]. by exists (S i), t.
Qed.

(** *** The invariant *)

Definition closes_in (acts : list action) : nat :=
  length (filter (λ a, a = ACloseDone) acts).

(** The closes of the done channel a thread still has before it. *)
Definition weight (t : thread) : nat :=
  match t with
  | T_Seq acts _ => closes_in acts
  | S_WaitForSockets | S_QemuStart | W_Wait => 1
  | _ => 0
  end.

Definition is_watcher (t : thread) : nat :=
  match t with
  | W_Wait | W_Done | T_Seq _ W_Done => 1
  | _ => 0
  end.

Definition tail_action (a : action) : bool :=
  match a with
  | ALogErrorf _ | ASetError _ | ACloseDone | ARecordReadyError _ | AKill => true
  | _ => false
  end.

Definition monitor_action (a : action) : bool :=
  match a with
  | ASendReady _ | ASendWait | AWatcherClose | ACloseReady => true
  | _ => false
  end.

Definition handler_action (a : action) : bool :=
  match a with ASetHTTPHandler _ => true | _ => false end.

(** The fields only the exit watcher writes. *)
Definition res_view (v : VirtualMachine) (w : world) :=
  (m v, network v, image v, socketFolder v, net_released w, image_released w,
   removed w, stdout_closed w, stderr_closed w).

Lemma closes_app l1 l2 : closes (l1 ++ l2) = (closes l1 + closes l2)%nat.
Proof. unfold closes. by rewrite filter_app, length_app. Qed.

Lemma closes_one : closes [EvCloseDone] = 1%nat.
Proof. done. Qed.

Lemma closes_other e : e ≠ EvCloseDone → closes [e] = 0%nat.
Proof. intros H. unfold closes. by rewrite filter_cons_False. Qed.

Lemma closes_in_close rest : closes_in (ACloseDone :: rest) = S (closes_in rest).
Proof. unfold closes_in. by rewrite filter_cons_True. Qed.

Lemma closes_in_other a rest :
  a ≠ ACloseDone → closes_in (a :: rest) = closes_in rest.
Proof. intros H. unfold closes_in. by rewrite filter_cons_False. Qed.

Lemma lookup_stepped (p : list thread) i t' extra j tj :
  (<[i := t']> p ++ extra) !! j = Some tj →
  (j = i ∧ tj = t') ∨ (j ≠ i ∧ p !! j = Some tj) ∨ tj ∈ extra.
Proof.
  intros H. apply lookup_app_Some in H as [H | [Hlen H]].
  - apply list_lookup_insert_Some in H as [(-> & -> & _) | [? ?]]; auto.
  - right; right. by eapply list_elem_of_lookup_2.
Qed.

(** Unfold the records of a step, and settle the counting goals. *)
Ltac red_step :=
  cbn [o_vm o_world o_events o_panic ok panic vm wd log pool
       m started network image socketFolder doneClosed Error
       qemu handler net_released image_released removed stdout_closed
       stderr_closed socketsReady
       set_m set_started set_network set_image set_socketFolder
       set_doneClosed set_Error set_qemu set_handler set_net_released
       set_image_released set_removed set_stdout_closed set_stderr_closed
       set_socketsReady total weight is_watcher] in *.

Ltac counts :=
  red_step;
  repeat (rewrite closes_in_close || rewrite closes_in_other by done);
  rewrite ?closes_one;
  rewrite ?closes_other by done;
  change (closes []) with 0%nat;
  change (closes_in []) with 0%nat;
  repeat match goal with
         | H : ?x = _ |- context [if ?x then _ else _] => rewrite H
         | H : ?x = _ |- context [match ?x with NotStarted => _ | _ => _ end] =>
             rewrite H
         end;
  repeat match goal with
         | |- context [if ?b then _ else _] => destruct b
         | |- context [match ?q with NotStarted => _ | _ => _ end] => destruct q
         end;
  lia.

Section Invariant.
(** The machine as [NewVirtualMachine] returned it. *)
Variable v0 : VirtualMachine.

(** The resources when the exit watcher has run [k] of its statements. *)
Definition at_stage (k : nat) (v : VirtualMachine) (w : world) : Prop :=
  res_view v w
  = ((1 <=? k)%nat && (k <=? 11)%nat,
     if (6 <=? k)%nat then None else network v0,
     if (8 <=? k)%nat then None else image v0,
     if (10 <=? k)%nat then "" else socketFolder v0,
     (5 <=? k)%nat, (7 <=? k)%nat,
     if (9 <=? k)%nat then [socketFolder v0] else [],
     (3 <=? k)%nat, (4 <=? k)%nat).

Definition watcher_at (k : nat) (werr : option error) (v : VirtualMachine)
    (w : world) : Prop :=
  qemu w = Exited werr ∧ at_stage k v w
  ∧ doneClosed v = (11 <=? k)%nat
  ∧ ((2 ≤ k)%nat → werr ≠ None → Error v ≠ None).

Definition thread_ok (v : VirtualMachine) (w : world) (t : thread) : Prop :=
  match t with
  | T_Seq acts S_Return =>
      Forall (λ a, tail_action a = true) acts
      ∧ ((1 ≤ closes_in acts)%nat → qemu w = NotStarted)
      ∧ ((1 ≤ closes_in acts)%nat ∨ doneClosed v = true ∨ qemu w ≠ NotStarted)
  | T_Seq acts W_Done =>
      ∃ werr k, (k ≤ 12)%nat ∧ acts = drop k (exit_watcher werr)
                ∧ watcher_at k werr v w
  | T_Seq acts M_Exit => Forall (λ a, monitor_action a = true) acts
  | T_Seq acts K_Return => Forall (λ a, a = AKill) acts
  | T_Seq acts H_Return => Forall (λ a, handler_action a = true) acts
  | T_Seq _ _ => False
  | S_WaitForSockets | S_QemuStart => qemu w = NotStarted
  | S_Select => qemu w ≠ NotStarted
  | S_Return => doneClosed v = true ∨ qemu w ≠ NotStarted
  | W_Wait => qemu w ≠ NotStarted ∧ at_stage 0 v w ∧ doneClosed v = false
  | W_Done => ∃ werr, watcher_at 12 werr v w
  | _ => True
  end.

Record Inv (c : config) : Prop := {
  inv_closes : closes (log c) = if doneClosed (vm c) then 1%nat else 0%nat;
  inv_tokens :
    (total weight (pool c) + closes (log c))%nat
    = if started (vm c) then 1%nat else 0%nat;
  inv_watcher :
    total is_watcher (pool c)
    = match qemu (wd c) with NotStarted => 0%nat | _ => 1%nat end;
  inv_pristine : qemu (wd c) = NotStarted → at_stage 0 (vm c) (wd c);
  inv_started : qemu (wd c) ≠ NotStarted → started (vm c) = true;
  inv_threads : ∀ i t, pool c !! i = Some t → thread_ok (vm c) (wd c) t
}.

(** What a step of one thread has to respect for another thread to stay
    in order. *)
Lemma others_ok v w v' w' tj :
  thread_ok v w tj →
  (doneClosed v = true → doneClosed v' = true) →
  (qemu w ≠ NotStarted → qemu w' ≠ NotStarted) →
  ((1 ≤ weight tj)%nat → qemu w = NotStarted → qemu w' = NotStarted) →
  (is_watcher tj = 1%nat →
   res_view v' w' = res_view v w ∧ doneClosed v' = doneClosed v
   ∧ (Error v ≠ None → Error v' ≠ None)
   ∧ (∀ werr, qemu w = Exited werr → qemu w' = Exited werr)) →
  thread_ok v' w' tj.
Proof.
  intros Hok Hd Hq Hw Hwat.
  destruct tj as [acts next | | | | | | | | | | | | | | |]; simpl in *;
    try done; try tauto.
  - destruct next; try done.
    + destruct Hok as (Hf & Hc & Hor). repeat split; [done | tauto | tauto].
    + destruct Hok as (werr & k & Hk & Ha & Hq0 & Hst & Hdc & He).
      destruct Hwat as (Hrv & Hdc' & He' & Hq'); [done |].
      exists werr, k. unfold watcher_at, at_stage. rewrite Hrv, Hdc'.
      repeat split; auto.
  - apply Hw; [lia | done].
  - apply Hw; [lia | done].
  - destruct Hok as (Hq0 & Hst & Hdc).
    destruct Hwat as (Hrv & Hdc' & He' & Hq'); [done |].
    unfold at_stage. rewrite Hrv, Hdc'. auto.
  - destruct Hok as (werr & Hq0 & Hst & Hdc & He).
    destruct Hwat as (Hrv & Hdc' & He' & Hq'); [done |].
    exists werr. unfold watcher_at, at_stage. rewrite Hrv, Hdc'.
    repeat split; auto.
Qed.

(** Thread [i] steps from [t] to [t'] and starts the goroutines [new]. *)
Lemma inv_update c i t t' new v' w' evs :
  Inv c → pool c !! i = Some t →
  ((if doneClosed (vm c) then 1 else 0) + closes evs
   = if doneClosed v' then 1 else 0)%nat →
  (weight t' + total weight new + closes evs
     + (if started (vm c) then 1 else 0)
   = weight t + if started v' then 1 else 0)%nat →
  (is_watcher t' + total is_watcher new
     + match qemu (wd c) with NotStarted => 0 | _ => 1 end
   = is_watcher t + match qemu w' with NotStarted => 0 | _ => 1 end)%nat →
  (qemu w' = NotStarted → at_stage 0 v' w') →
  (qemu w' ≠ NotStarted → started v' = true) →
  thread_ok v' w' t' →
  Forall (thread_ok v' w') new →
  (∀ j tj, j ≠ i → pool c !! j = Some tj → thread_ok v' w' tj) →
  Inv {| vm := v'; wd := w'; pool := <[i := t']> (pool c) ++ new;
         log := log c ++ evs; panicked := false |}.
Proof.
  intros [Hc Ht Hw Hp Hs Hok] Hi Hc' Ht' Hw' Hp' Hs' Hok' Hnew Hoth.
  split; cbn [vm wd pool log].
  - rewrite closes_app, Hc. done.
  - rewrite closes_app, total_app.
    pose proof (total_insert weight (pool c) i t t' Hi). lia.
  - rewrite total_app.
    pose proof (total_insert is_watcher (pool c) i t t' Hi). lia.
  - done.
  - done.
  - intros j tj Hj. apply lookup_stepped in Hj as [[-> ->] | [[? Hj] | Hin]].
    + done.
    + by eapply Hoth.
    + by eapply (proj1 (Forall_forall _ _) Hnew).
Qed.

Lemma others_frame v w v' w' tj :
  thread_ok v w tj →
  res_view v' w' = res_view v w → doneClosed v' = doneClosed v →
  qemu w' = qemu w → (Error v ≠ None → Error v' ≠ None) →
  thread_ok v' w' tj.
Proof.
  intros Hok Hr Hd Hq He. eapply others_ok; [exact Hok | ..].
  - by rewrite Hd.
  - by rewrite Hq.
  - by rewrite Hq.
  - intros _. repeat split; try done. intros werr. by rewrite Hq.
Qed.

Lemma watcher_started v w t :
  thread_ok v w t → is_watcher t = 1%nat → qemu w ≠ NotStarted.
Proof.
  destruct t as [acts next | | | | | | | | | | | | | | |]; simpl; try done.
  - destruct next; try done.
    intros (werr & k & _ & _ & Hq & _) _. by rewrite Hq.
  - by intros (Hq & _) _.
  - intros (werr & Hq & _) _. by rewrite Hq.
Qed.

Lemma light_others c i t j tj :
  Inv c → pool c !! i = Some t → (1 ≤ weight t)%nat →
  j ≠ i → pool c !! j = Some tj → weight tj = 0%nat.
Proof.
  intros HI Hi Hw Hne Hj.
  pose proof (total_two weight _ _ _ _ _ Hi Hj ltac:(congruence)).
  pose proof (inv_tokens _ HI). destruct (started (vm c)); lia.
Qed.

Lemma sole_watcher c i t j tj :
  Inv c → pool c !! i = Some t → is_watcher t = 1%nat →
  j ≠ i → pool c !! j = Some tj → is_watcher tj = 0%nat.
Proof.
  intros HI Hi Hw Hne Hj.
  pose proof (total_two is_watcher _ _ _ _ _ Hi Hj ltac:(congruence)).
  pose proof (inv_watcher _ HI). destruct (qemu (wd c)); lia.
Qed.

Lemma heavy_open c i t :
  Inv c → pool c !! i = Some t → (1 ≤ weight t)%nat →
  doneClosed (vm c) = false ∧ started (vm c) = true.
Proof.
  intros HI Hi Hw.
  pose proof (total_ge weight _ _ _ Hi).
  pose proof (inv_tokens _ HI). pose proof (inv_closes _ HI).
  destruct (started (vm c)), (doneClosed (vm c)); split; try done; lia.
Qed.

(** A statement of Start after its select or on a failure path. *)
Lemma tail_step_inv c i a rest o :
  Inv c → pool c !! i = Some (T_Seq (a :: rest) S_Return) →
  exec a (vm c) (wd c) = Some o → o_panic o = false →
  Inv {| vm := o_vm o; wd := o_world o;
         pool := <[i := T_Seq rest S_Return]> (pool c) ++ [];
         log := log c ++ o_events o; panicked := false |}.
Proof.
  intros HI Hi Hex Hp. pose proof (inv_threads _ HI _ _ Hi) as Hok.
  simpl in Hok. destruct Hok as (Hf & Hc & Hor).
  inversion Hf as [| ? ? Ha Hf']; subst.
  destruct a; try discriminate Ha; simpl in Hex.
  - (* vm.log.Errorf *)
    injection Hex as <-. rewrite closes_in_other in Hc, Hor by done.
    eapply inv_update;
      [exact HI | exact Hi | counts | counts | counts
      | apply HI | apply HI | done | done |].
    intros j tj _ Hj. by eapply inv_threads.
  - (* vm.Error = err *)
    injection Hex as <-. rewrite closes_in_other in Hc, Hor by done.
    eapply inv_update;
      [exact HI | exact Hi | counts | counts | counts
      | apply HI | apply HI | done | done |].
    intros j tj _ Hj. eapply others_frame; [by eapply inv_threads | done..].
  - (* close(vm.qemuDone) *)
    destruct (doneClosed (vm c)) eqn:Hd; injection Hex as <-; [done |].
    rewrite closes_in_close in Hc, Hor. specialize (Hc ltac:(lia)).
    eapply inv_update;
      [exact HI | exact Hi | counts | counts | counts
      | apply HI | apply HI | | done |].
    + split; [done |]. split; [by intros _ | auto].
    + intros j tj _ Hj. pose proof (inv_threads _ HI _ _ Hj) as Hokj.
      eapply others_ok; [exact Hokj | done..|].
      intros Hw. by destruct (watcher_started _ _ _ Hokj Hw).
  - (* the readiness error *)
    destruct (m (vm c)); [done |].
    rewrite closes_in_other in Hc, Hor by done.
    destruct (Error (vm c)) eqn:He; injection Hex as <-.
    + eapply inv_update;
        [exact HI | exact Hi | counts | counts | counts
        | apply HI | apply HI | done | done |].
      intros j tj _ Hj. eapply others_frame; [by eapply inv_threads | done..].
    + eapply inv_update;
        [exact HI | exact Hi | counts | counts | counts
        | apply HI | apply HI | done | done |].
      intros j tj _ Hj. by eapply inv_threads.
  - (* vm.Kill() *)
    rewrite closes_in_other in Hc, Hor by done.
    destruct (doneClosed (vm c)) eqn:Hd.
    { injection Hex as <-.
      eapply inv_update;
        [exact HI | exact Hi | counts | counts | counts
        | apply HI | apply HI | | done |].
      - simpl. rewrite Hd. repeat split; auto.
      - intros j tj _ Hj. by eapply inv_threads. }
    destruct (qemu (wd c)) eqn:Hq; injection Hex as <-; [done | |].
    + eapply inv_update;
        [exact HI | exact Hi | counts | counts | counts
        | done | | | done |].
      * intros _. apply (inv_started _ HI). by rewrite Hq.
      * split; [done |]. split; [| by right; right].
        intros Hr. by specialize (Hc Hr).
      * intros j tj _ Hj. pose proof (inv_threads _ HI _ _ Hj) as Hokj.
        eapply others_ok; [exact Hokj | done | done | | ].
        -- intros _. by rewrite Hq.
        -- intros _. repeat split; try done. intros werr. by rewrite Hq.
    + eapply inv_update;
        [exact HI | exact Hi | counts | counts | counts
        | | | | done |].
      * red_step. by rewrite Hq.
      * intros _. apply (inv_started _ HI). by rewrite Hq.
      * simpl. rewrite Hq. split; [done |]. split; [done | by right; right].
      * intros j tj _ Hj. by eapply inv_threads.
Qed.

Ltac stage n := exists n; split; [lia | split; [reflexivity |]].

(** A statement of the exit watcher. *)
Lemma watcher_step_inv c i a rest o :
  Inv c → pool c !! i = Some (T_Seq (a :: rest) W_Done) →
  exec a (vm c) (wd c) = Some o → o_panic o = false →
  Inv {| vm := o_vm o; wd := o_world o;
         pool := <[i := T_Seq rest W_Done]> (pool c) ++ [];
         log := log c ++ o_events o; panicked := false |}.
Proof.
  intros HI Hi Hex Hp. pose proof (inv_threads _ HI _ _ Hi) as Hok.
  simpl in Hok. destruct Hok as (werr & k & Hk & Ha & Hq & Hst & Hd & He).
  assert (Hoth : ∀ v' w',
             (doneClosed (vm c) = true → doneClosed v' = true) →
             qemu w' = qemu (wd c) →
             ∀ j tj, j ≠ i → pool c !! j = Some tj → thread_ok v' w' tj).
  { intros v' w' Hd' Hq' j tj Hne Hj.
    pose proof (sole_watcher _ _ _ _ _ HI Hi eq_refl Hne Hj) as Hnw.
    eapply others_ok; [by eapply inv_threads | done | | |].
    - by rewrite Hq'.
    - by rewrite Hq'.
    - by rewrite Hnw. }
  unfold at_stage, res_view in Hst.
  injection Hst as Hm Hnet Himg Hsf Hnr Hir Hrem Hso Hse.
  do 12 (destruct k as [| k];
    [ solve
      [ simpl in Ha, Hm, Hnet, Himg, Hsf, Hnr, Hir, Hrem, Hso, Hse, Hd;
        injection Ha as -> ->; simpl in Hex;
        rewrite ?Hm, ?Hnet, ?Himg in Hex;
        repeat match type of Hex with
               | context [match ?x with _ => _ end] => destruct x eqn:?
               end;
        injection Hex as <-; try discriminate Hp;
        (eapply inv_update;
         [ exact HI | exact Hi | counts | counts | counts
         | by red_step; rewrite Hq
         | by intros _; apply (inv_started _ HI); rewrite Hq
         |
         | done
         | by apply Hoth; red_step; [rewrite ?Hd | ] ]);
        exists werr;
        first [ stage 1%nat | stage 2%nat | stage 3%nat | stage 4%nat
              | stage 5%nat | stage 6%nat | stage 7%nat | stage 8%nat
              | stage 9%nat | stage 10%nat | stage 11%nat | stage 12%nat ];
        (split; [by red_step |]);
        (split;
         [ unfold at_stage, res_view; red_step;
           rewrite ?Hm, ?Hnet, ?Himg, ?Hsf, ?Hnr, ?Hir, ?Hrem, ?Hso, ?Hse;
           simpl; congruence
         | split;
           [ by red_step; rewrite ?Hd
           | red_step; intros Hle Hwerr;
             first [ lia | done | congruence | apply He; [lia | done] ] ] ]) ]
    |]).
  assert (k = 0%nat) as -> by lia. simpl in Ha. discriminate Ha.
Qed.

Lemma no_closes (P : action → Prop) acts :
  Forall P acts → (∀ b, P b → b ≠ ACloseDone) → closes_in acts = 0%nat.
Proof.
  intros Hf HP. induction Hf as [| b l Hb _ IH]; [done |].
  rewrite closes_in_other; [done | by apply HP].
Qed.

(** A statement of the readiness monitor, of Kill or of
    SetHTTPHandler. *)
Lemma plain_step_inv c i a rest next o :
  next = M_Exit ∨ next = K_Return ∨ next = H_Return →
  Inv c → pool c !! i = Some (T_Seq (a :: rest) next) →
  exec a (vm c) (wd c) = Some o → o_panic o = false →
  Inv {| vm := o_vm o; wd := o_world o;
         pool := <[i := T_Seq rest next]> (pool c) ++ [];
         log := log c ++ o_events o; panicked := false |}.
Proof.
  intros Hnext HI Hi Hex Hp. pose proof (inv_threads _ HI _ _ Hi) as Hok.
  assert (Hw : closes_in (a :: rest) = 0%nat).
  { destruct Hnext as [-> | [-> | ->]]; simpl in Hok;
      (eapply no_closes; [exact Hok |]); by intros b Hb ->. }
  assert (Hw' : closes_in rest = 0%nat).
  { destruct (decide (a = ACloseDone)) as [-> | Hne].
    - rewrite closes_in_close in Hw. lia.
    - by rewrite closes_in_other in Hw. }
  assert (Hok' : ∀ v' w', thread_ok v' w' (T_Seq rest next)).
  { intros v' w'.
    destruct Hnext as [-> | [-> | ->]]; simpl in *;
      by apply Forall_cons in Hok as [_ Hok]. }
  assert (Hev : closes (o_events o) = 0%nat
                ∧ res_view (o_vm o) (o_world o) = res_view (vm c) (wd c)
                ∧ doneClosed (o_vm o) = doneClosed (vm c)
                ∧ Error (o_vm o) = Error (vm c)
                ∧ started (o_vm o) = started (vm c)
                ∧ (qemu (o_world o) = qemu (wd c)
                   ∨ qemu (wd c) = Running
                     ∧ qemu (o_world o) = Exited (Some killed))).
  { destruct Hnext as [-> | [-> | ->]]; simpl in Hok;
      apply Forall_cons in Hok as [Ha Hf];
      destruct a; try discriminate Ha; simpl in Hex;
      repeat match type of Hex with
             | context [match ?x with _ => _ end] => destruct x eqn:?
             | context [if ?x then _ else _] => destruct x eqn:?
             end;
      try discriminate Hex; injection Hex as <-; try discriminate Hp;
      repeat split; auto. }
  destruct Hev as (Hcl & Hrv & Hdc & Her & Hst & Hq).
  eapply inv_update; [exact HI | exact Hi | | | | | | apply Hok' | done |].
  - rewrite Hcl, Hdc. lia.
  - simpl. rewrite Hcl, Hw, Hw', Hst. lia.
  - assert (is_watcher (T_Seq rest next) = is_watcher (T_Seq (a :: rest) next))
      as -> by by destruct Hnext as [-> | [-> | ->]].
    simpl. destruct Hq as [-> | [-> ->]]; lia.
  - intros Hq'. destruct Hq as [Hq | [_ Hq]]; [| congruence].
    rewrite Hq in Hq'. unfold at_stage. rewrite Hrv. by apply HI.
  - intros Hq'. rewrite Hst. apply (inv_started _ HI).
    destruct Hq as [Hq | [Hq _]]; congruence.
  - intros j tj _ Hj. pose proof (inv_threads _ HI _ _ Hj) as Hokj.
    eapply others_ok; [exact Hokj | by rewrite Hdc | | |].
    + destruct Hq as [Hq | [Hq ->]]; congruence.
    + destruct Hq as [Hq | [Hq Hq']]; congruence.
    + intros _. rewrite Hrv, Hdc, Her. repeat split; try done.
      intros werr. destruct Hq as [Hq | [Hq Hq']]; congruence.
Qed.

(** A step that leaves machine and world as they are. *)
Lemma inv_same c i t t' new evs :
  Inv c → pool c !! i = Some t → closes evs = 0%nat →
  (weight t' + total weight new = weight t)%nat →
  (is_watcher t' + total is_watcher new = is_watcher t)%nat →
  thread_ok (vm c) (wd c) t' →
  Forall (thread_ok (vm c) (wd c)) new →
  Inv {| vm := vm c; wd := wd c; pool := <[i := t']> (pool c) ++ new;
         log := log c ++ evs; panicked := false |}.
Proof.
  intros HI Hi Hcl Hw Hwa Hok Hnew.
  eapply inv_update;
    [exact HI | exact Hi | | | | apply HI | apply HI | done | done |].
  - rewrite Hcl. lia.
  - rewrite Hcl. lia.
  - lia.
  - intros j tj _ Hj. by eapply inv_threads.
Qed.

Lemma seq_end_ok v w next :
  thread_ok v w (T_Seq [] next) →
  thread_ok v w next ∧ weight next = 0%nat
  ∧ is_watcher next = is_watcher (T_Seq [] next).
Proof.
  destruct next; simpl; try done.
  - intros (_ & _ & [Hc | H]); [| done].
    change (closes_in []) with 0%nat in Hc. lia.
  - intros (werr & k & Hk & Ha & Hw). split; [| done]. exists werr.
    do 12 (destruct k as [| k]; [discriminate Ha |]).
    by assert (k = 0%nat) as -> by lia.
Qed.

(** Every step of a thread that does not panic keeps the invariant. *)
Lemma thread_step_inv c i ch t o t' new :
  Inv c → pool c !! i = Some t →
  thread_step t ch (vm c) (wd c) = Some (o, t', new) → o_panic o = false →
  Inv {| vm := o_vm o; wd := o_world o; pool := <[i := t']> (pool c) ++ new;
         log := log c ++ o_events o; panicked := false |}.
Proof.
  intros HI Hi Hts Hp. pose proof (inv_threads _ HI _ _ Hi) as Hok.
  destruct t as [acts next | | | | | | | | vnc qmp | | se | | | | |].
  - (* statements *)
    destruct acts as [| a rest]; destruct ch; simpl in Hts; try done.
    + injection Hts as <- <- <-.
      destruct (seq_end_ok _ _ _ Hok) as (Hok' & Hw & Hwa).
      eapply inv_same; [done | done | done | | | done | done].
      * rewrite Hw. simpl. change (closes_in []) with 0%nat. lia.
      * rewrite Hwa. simpl. lia.
    + destruct (exec a (vm c) (wd c)) as [o1 |] eqn:Hex; [| done].
      injection Hts as <- <- <-.
      destruct next; try done.
      * by eapply tail_step_inv.
      * by eapply watcher_step_inv.
      * eapply plain_step_inv; eauto.
      * eapply plain_step_inv; eauto.
      * eapply plain_step_inv; eauto.
  - (* Start: the started flag *)
    destruct ch; simpl in Hts; try done.
    destruct (m (vm c)) eqn:Hm; [done |].
    destruct (started (vm c)) eqn:Hs; injection Hts as <- <- <-; [done |].
    assert (Hq : qemu (wd c) = NotStarted).
    { destruct (qemu (wd c)) eqn:Hq; [done | |];
        pose proof (inv_started _ HI) as Hst; rewrite Hq, Hs in Hst;
        by discriminate Hst. }
    eapply inv_update;
      [exact HI | exact Hi | counts | counts | counts | | | done | done |].
    + intros _. unfold at_stage. by apply HI.
    + done.
    + intros j tj _ Hj. eapply others_frame; [by eapply inv_threads | done..].
  - (* Start: waitForSockets *)
    simpl in Hok.
    destruct ch as [| nw add | | | | | | |]; simpl in Hts; try done.
    destruct nw as [err |]; [| destruct add as [err |]];
      injection Hts as <- <- <-.
    + eapply inv_same; [done | done | done | | | | done].
      * simpl. repeat (rewrite closes_in_close || rewrite closes_in_other by done).
        done.
      * done.
      * split; [by repeat constructor |]. split; [done |]. left.
        repeat (rewrite closes_in_close || rewrite closes_in_other by done). lia.
    + eapply inv_same; [done | done | done | | | | done].
      * simpl. repeat (rewrite closes_in_close || rewrite closes_in_other by done).
        done.
      * done.
      * split; [by repeat constructor |]. split; [done |]. left.
        repeat (rewrite closes_in_close || rewrite closes_in_other by done). lia.
    + eapply inv_same; [done | done | done | done | done | done |].
      by repeat constructor.
  - (* Start: qemu.Start() *)
    simpl in Hok.
    destruct ch as [| | r | | | | | |]; simpl in Hts; try done.
    rewrite Hok in Hts.
    destruct (heavy_open _ _ _ HI Hi ltac:(simpl; lia)) as [Hd Hs].
    destruct r as [err |]; injection Hts as <- <- <-.
    + eapply inv_update;
        [exact HI | exact Hi | counts | | counts | | | | done |].
      * red_step. rewrite closes_in_close. change (closes_in []) with 0%nat.
        change (closes []) with 0%nat. lia.
      * intros _. unfold at_stage. by apply HI.
      * intros Hq. by destruct Hq.
      * split; [by repeat constructor |]. split; [done |]. left.
        rewrite closes_in_close. lia.
      * intros j tj _ Hj. pose proof (inv_threads _ HI _ _ Hj) as Hokj.
        eapply others_ok; [exact Hokj | done..|].
        intros Hw. by destruct (watcher_started _ _ _ Hokj Hw).
    + eapply inv_update;
        [exact HI | exact Hi | counts | counts | counts | done | done | done
        | |].
      * repeat constructor; try done.
        unfold at_stage. by apply HI.
      * intros j tj Hne Hj. pose proof (inv_threads _ HI _ _ Hj) as Hokj.
        pose proof (light_others _ _ _ _ _ HI Hi ltac:(simpl; lia) Hne Hj)
          as Hl.
        eapply others_ok; [exact Hokj | done | done | |].
        -- rewrite Hl. lia.
        -- intros Hw. by destruct (watcher_started _ _ _ Hokj Hw).
  - (* Start: the select *)
    simpl in Hok.
    destruct ch; simpl in Hts; try done.
    + destruct (socketsReady (wd c)) eqn:Hsr; try done;
        injection Hts as <- <- <-.
      * eapply inv_update;
          [exact HI | exact Hi | counts | | counts | | | | done |].
        -- red_step.
           repeat (rewrite closes_in_close || rewrite closes_in_other by done).
           change (closes_in []) with 0%nat. change (closes []) with 0%nat.
           lia.
        -- intros Hq. unfold at_stage. by apply HI.
        -- apply HI.
        -- split; [by repeat constructor |]. split; [| by right; right].
           repeat (rewrite closes_in_close || rewrite closes_in_other by done).
           change (closes_in []) with 0%nat. lia.
        -- intros j tj _ Hj.
           eapply others_frame; [by eapply inv_threads | done..].
      * eapply inv_same; [done | done | done | done | done | | done].
        by right.
    + destruct (doneClosed (vm c)) eqn:Hd; [| done].
      injection Hts as <- <- <-.
      eapply inv_same; [done | done | done | done | done | | done].
      left. done.
  - done.
  - (* exit watcher: qemu.Wait() *)
    simpl in Hok. destruct Hok as (Hq & Hst & Hd).
    destruct ch; simpl in Hts; try done.
    destruct (qemu (wd c)) as [| | werr] eqn:Hq'; try done.
    injection Hts as <- <- <-.
    eapply inv_same; [done | done | done | | done | | done].
    + simpl. unfold exit_watcher.
      repeat (rewrite closes_in_close || rewrite closes_in_other by done).
      done.
    + exists werr, 0%nat. split; [lia |]. split; [done |].
      split; [done |]. split; [done |]. split; [done | lia].
  - done.
  - (* readiness monitor *)
    destruct ch; simpl in Hts.
    + destruct vnc, qmp; try done. injection Hts as <- <- <-.
      eapply inv_same; [done | done | done | | done | | done].
      * simpl. by repeat (rewrite closes_in_close || rewrite closes_in_other by done).
      * simpl. by repeat constructor.
    + destruct vnc, qmp; done.
    + destruct vnc, qmp; done.
    + destruct vnc, qmp; done.
    + destruct (vnc && qmp); [by destruct vnc, qmp |].
      destruct (doneClosed (vm c)); [| by destruct vnc, qmp].
      assert (Hts' : Some (ok (vm c) (wd c) [], T_Seq [AWatcherClose] M_Exit,
                           @nil thread) = Some (o, t', new))
        by by destruct vnc, qmp.
      injection Hts' as <- <- <-.
      eapply inv_same; [done | done | done | | done | | done].
      * simpl. by repeat (rewrite closes_in_close || rewrite closes_in_other by done).
      * simpl. by repeat constructor.
    + destruct (vnc && qmp); [by destruct vnc, qmp |].
      match type of Hts with
      | context [Some ?x] =>
          assert (Hts' : Some x = Some (o, t', new)) by by destruct vnc, qmp
      end.
      injection Hts' as <- <- <-.
      by eapply inv_same.
    + destruct (vnc && qmp); [by destruct vnc, qmp |].
      match type of Hts with
      | context [Some ?x] =>
          assert (Hts' : Some x = Some (o, t', new)) by by destruct vnc, qmp
      end.
      injection Hts' as <- <- <-.
      eapply inv_same; [done | done | done | | done | | done].
      * simpl. by repeat (rewrite closes_in_close || rewrite closes_in_other by done).
      * simpl. by repeat constructor.
    + destruct (vnc && qmp); [by destruct vnc, qmp |].
      match type of Hts with
      | context [Some ?x] =>
          assert (Hts' : Some x = Some (o, t', new)) by by destruct vnc, qmp
      end.
      injection Hts' as <- <- <-.
      eapply inv_same; [done | done | done | | done | | done].
      * simpl. by repeat (rewrite closes_in_close || rewrite closes_in_other by done).
      * simpl. by repeat constructor.
    + destruct vnc, qmp; done.
  - done.
  - (* forwarding of stdout and stderr *)
    destruct ch; simpl in Hts; try done.
    + destruct (if se then stderr_closed (wd c) else stdout_closed (wd c));
        [| done].
      injection Hts as <- <- <-. by eapply inv_same.
    + destruct (if se then stderr_closed (wd c) else stdout_closed (wd c));
        [done |].
      injection Hts as <- <- <-.
      eapply inv_same; [done | done | | done | done | done | done].
      apply closes_other. by destruct se.
  - done.
  - done.
  - done.
  - (* VNCSocket *)
    destruct ch; simpl in Hts; try done.
    destruct (m (vm c)); [done |]. injection Hts as <- <- <-.
    by eapply inv_same.
  - done.
Qed.

(** QEMU ends by itself. *)
Lemma process_exit_inv c werr :
  Inv c → qemu (wd c) = Running →
  Inv {| vm := vm c; wd := set_qemu (Exited werr) (wd c); pool := pool c;
         log := log c; panicked := false |}.
Proof.
  intros HI Hq. split; cbn [vm wd pool log].
  - apply HI.
  - apply HI.
  - rewrite (inv_watcher _ HI), Hq. done.
  - done.
  - intros _. apply (inv_started _ HI). by rewrite Hq.
  - intros j tj Hj. pose proof (inv_threads _ HI _ _ Hj) as Hokj.
    eapply others_ok; [exact Hokj | done | done | |].
    + intros _ Hq'. congruence.
    + intros _. repeat split; try done. intros werr' Hq'. congruence.
Qed.

Lemma fresh_inv calls :
  m v0 = false → started v0 = false → doneClosed v0 = false →
  Forall (λ t, entry t = true) calls → Inv (init v0 calls).
Proof.
  intros Hm Hs Hd Hcalls.
  assert (Hq : ∀ t, t ∈ calls →
                 weight t = 0%nat ∧ is_watcher t = 0%nat
                 ∧ thread_ok v0 new_world t).
  { intros t Hin. apply (proj1 (Forall_forall _ _) Hcalls) in Hin.
    destruct t as [acts next | | | | | | | | | | | | | | |]; try done.
    destruct acts as [| a [| ? ?]]; try done;
      destruct a; try done; destruct next; try done; simpl;
      (split; [by rewrite closes_in_other |]); split; try done;
      by repeat constructor. }
  assert (Ht : ∀ f, (∀ t, t ∈ calls → f t = 0%nat) → total f calls = 0%nat).
  { intros f. clear. induction calls as [| t p IH]; [done |]. intros Hf.
    simpl. rewrite (Hf t) by apply list_elem_of_here.
    apply IH. intros t' Hin. apply Hf. by apply list_elem_of_further. }
  split; cbn [init vm wd pool log].
  - by rewrite Hd.
  - rewrite Hs, Ht; [done |]. intros t Hin. by apply Hq.
  - rewrite Ht; [done |]. intros t Hin. by apply Hq.
  - intros _. unfold at_stage, res_view. simpl. by rewrite Hm.
  - done.
  - intros i t Hi. apply Hq. by eapply list_elem_of_lookup_2.
Qed.

(** Once QEMU was spawned there is an exit watcher. *)
Lemma watcher_exists c :
  Inv c → qemu (wd c) ≠ NotStarted →
  ∃ i t, pool c !! i = Some t ∧ is_watcher t = 1%nat.
Proof.
  intros HI Hq. destruct (total_pos is_watcher (pool c)) as (i & t & Hi & Ht).
  - rewrite (inv_watcher _ HI). destruct (qemu (wd c)); [done | lia | lia].
  - exists i, t. split; [done |].
    destruct t as [acts next | | | | | | | | | | | | | | |]; simpl in *;
      try lia. destruct next; simpl in *; lia.
Qed.

End Invariant.

(** A panic does nothing else. *)
Lemma exec_panic_silent a v w o :
  exec a v w = Some o → o_panic o = true → o_events o = [].
Proof.
  destruct a; simpl; intros H Hp;
    repeat match type of H with
           | context [match ?x with _ => _ end] => destruct x
           | context [if ?x then _ else _] => destruct x
           end;
    try discriminate H; injection H as <-; done.
Qed.

Lemma thread_panic_silent t ch v w o t' new :
  thread_step t ch v w = Some (o, t', new) → o_panic o = true →
  o_events o = [].
Proof.
  intros H Hp.
  destruct t as [acts next | | | | | | | | vnc qmp | | se | | | | |];
    destruct ch; simpl in H; try done;
    repeat match type of H with
           | context [match ?x with _ => _ end] => destruct x eqn:?
           | context [if ?x then _ else _] => destruct x eqn:?
           end;
    try discriminate H; injection H as <- <- <-; try done;
    by eapply exec_panic_silent.
Qed.

(** What holds of every configuration a run reaches: the done channel was
    closed at most once, and unless the program has panicked the invariant
    holds. *)
Definition Reach (v0 : VirtualMachine) (c : config) : Prop :=
  (closes (log c) ≤ 1)%nat ∧ (panicked c = false → Inv v0 c).

Lemma inv_closes_le v0 c : Inv v0 c → (closes (log c) ≤ 1)%nat.
Proof.
  intros HI. rewrite (inv_closes _ _ HI). destruct (doneClosed (vm c)); lia.
Qed.

Lemma step_reach v0 l c c' : Reach v0 c → step l c = Some c' → Reach v0 c'.
Proof.
  intros [Hle HI] Hstep. unfold step in Hstep.
  destruct (panicked c) eqn:Hp; [done |]. specialize (HI eq_refl).
  destruct l as [i ch | werr].
  - destruct (pool c !! i) as [t |] eqn:Hi; [| done].
    destruct (thread_step t ch (vm c) (wd c)) as [[[o t'] new] |] eqn:Hts;
      [| done].
    injection Hstep as <-. destruct (o_panic o) eqn:Hpo.
    + split; [| done]. cbn [log].
      rewrite (thread_panic_silent _ _ _ _ _ _ _ Hts Hpo). by rewrite app_nil_r.
    + pose proof (thread_step_inv _ _ _ _ _ _ _ _ HI Hi Hts Hpo) as HI'.
      split; [by apply inv_closes_le in HI' | done].
  - destruct (qemu (wd c)) eqn:Hq; try done. injection Hstep as <-.
    pose proof (process_exit_inv _ _ werr HI Hq) as HI'.
    split; [by apply inv_closes_le in HI' | done].
Qed.

Lemma run_reach v0 ls c c' : Reach v0 c → run ls c = Some c' → Reach v0 c'.
Proof.
  revert c. induction ls as [| l ls IH]; simpl; intros c HR Hrun.
  - by injection Hrun as <-.
  - destruct (step l c) as [c1 |] eqn:Hs; [| done].
    eapply IH; [| done]. by eapply step_reach.
Qed.

Lemma reachable img net folder slug calls ls c :
  Forall (λ t, entry t = true) calls →
  run ls (init (NewVirtualMachine img net folder slug) calls) = Some c →
  Reach (NewVirtualMachine img net folder slug) c.
Proof.
  intros Hcalls Hrun. eapply run_reach; [| done]. split.
  - cbn [init log]. change (closes []) with 0%nat. lia.
  - intros _. by apply fresh_inv.
Qed.



(** The machine is finished: Start has returned without spawning QEMU, or
    the exit watcher has run to its end. *)
Definition finished (c : config) : Prop :=
  (qemu (wd c) = NotStarted ∧ ∃ i, pool c !! i = Some S_Return)
  ∨ (∃ j, pool c !! j = Some W_Done).

(** Everything the exit watcher releases has been released. *)
Definition released (v0 : VirtualMachine) (c : config) : Prop :=
  ∃ werr, qemu (wd c) = Exited werr
          ∧ (werr ≠ None → Error (vm c) ≠ None)
          ∧ stdout_closed (wd c) = true ∧ stderr_closed (wd c) = true
          ∧ net_released (wd c) = true ∧ network (vm c) = None
          ∧ image_released (wd c) = true ∧ image (vm c) = None
          ∧ removed (wd c) = [socketFolder v0] ∧ socketFolder (vm c) = "".

Lemma watcher_at_released v0 k werr c :
  (10 ≤ k)%nat → (k ≤ 12)%nat → watcher_at v0 k werr (vm c) (wd c) →
  released v0 c.
Proof.
  intros H10 H12 (Hq & Hst & Hd & He). exists werr.
  unfold at_stage, res_view in Hst.
  injection Hst as Hm Hnet Himg Hsf Hnr Hir Hrem Hso Hse.
  assert (k = 10 ∨ k = 11 ∨ k = 12)%nat as [-> | [-> | ->]] by lia;
    simpl in *; repeat split; try done; apply He; lia.
Qed.


(** The three paths, run to the end: each closes the channel once. *)
Example three_paths_close_once :
  finished (final_of setup_failure_schedule)
  ∧ closes (log (final_of setup_failure_schedule)) = 1%nat
  ∧ finished (final_of spawn_failure_schedule)
  ∧ closes (log (final_of spawn_failure_schedule)) = 1%nat
  ∧ finished (final_of normal_schedule)
  ∧ closes (log (final_of normal_schedule)) = 1%nat.
Proof.
  repeat split.
  - left. split; [done |]. by exists 0%nat.
  - left. split; [done |]. by exists 0%nat.
  - right. by exists 4%nat.
Qed.


(** C3: when the exit watcher is about to close the done channel, and
    whenever the channel is closed on a machine whose QEMU was spawned,
    the exit error is recorded (the watcher writes it only onto a nil
    Error), both pipes are closed, network and image are released and nil,
    and the socket folder is removed and cleared. *)
Theorem done_closes_last (img : Image) (net : Network)
    (folder slug : string) (calls : list thread) (ls : list label)
    (c : config) :
  Forall (λ t, entry t = true) calls →
  run ls (init (NewVirtualMachine img net folder slug) calls) = Some c →
  panicked c = false →
  (∀ i rest,
     pool c !! i = Some (T_Seq (ACloseDone :: rest) W_Done) →
     doneClosed (vm c) = false
     ∧ released (NewVirtualMachine img net folder slug) c)
  ∧ (qemu (wd c) ≠ NotStarted → doneClosed (vm c) = true →
     released (NewVirtualMachine img net folder slug) c)
  ∧ (∀ v w werr,
       o_vm <$> exec (ASetErrorIfNil werr) v w
       = Some (match Error v with
               | Some _ => v
               | None => set_Error werr v
               end)).
Proof.
  intros Hcalls Hrun Hp.
  destruct (reachable _ _ _ _ _ _ _ Hcalls Hrun) as [_ HI].
  specialize (HI Hp). split; [| split].
  - intros i rest Hi. pose proof (inv_threads _ _ HI _ _ Hi) as Hok.
    simpl in Hok. destruct Hok as (werr & k & Hk & Ha & Hat).
    assert (k = 10%nat) as ->.
    { do 10 (destruct k as [| k]; [discriminate Ha |]).
      destruct k as [| k]; [done |].
      destruct k as [| k]; [discriminate Ha |].
      assert (k = 0%nat) as -> by lia. discriminate Ha. }
    split; [by destruct Hat as (_ & _ & Hd & _) |].
    eapply watcher_at_released; [| | exact Hat]; lia.
  - intros Hq Hd.
    destruct (watcher_exists _ _ HI Hq) as (i & t & Hi & Hw).
    pose proof (inv_threads _ _ HI _ _ Hi) as Hok.
    destruct t as [acts next | | | | | | | | | | | | | | |]; try done.
    + destruct next; try done. simpl in Hok.
      destruct Hok as (werr & k & Hk & Ha & Hat).
      pose proof Hat as (_ & _ & Hdk & _). rewrite Hd in Hdk.
      symmetry in Hdk. apply Nat.leb_le in Hdk.
      eapply watcher_at_released; [| exact Hk | exact Hat]. lia.
    + simpl in Hok. destruct Hok as (_ & _ & Hdk). congruence.
    + simpl in Hok. destruct Hok as (werr & Hat).
      eapply watcher_at_released; [| | exact Hat]; lia.
  - intros v w werr. simpl. by destruct (Error v).
Qed.

Lemma done_closes_last_witness :
  released demo_vm (final_of normal_schedule).
Proof.
  refine (proj1 (proj2 (done_closes_last
            {| DiskFile := "/images/disk.qcow2"; Format := "qcow2" |}
            {| NetDev := "tap0" |} "/tmp/sockets" "Zm9vYmFy" [Start]
            normal_schedule (final_of normal_schedule) _ _ _)) _ _).
  - repeat constructor.
  - vm_compute. reflexivity.
  - vm_compute. reflexivity.
  - vm_compute. congruence.
  - vm_compute. reflexivity.
Defined.

(** C9: SetHTTPHandler never panics; when the network field is nil it
    changes neither the machine nor the world nor the log; and it installs
    a handler only on a network that has not been released. *)
Theorem SetHTTPHandler_released_noop (img : Image) (net : Network)
    (folder slug : string) (calls : list thread) (ls : list label)
    (c c' : config) (i : nat) (h : nat) (rest : list action) (next : thread) :
  Forall (λ t, entry t = true) calls →
  run ls (init (NewVirtualMachine img net folder slug) calls) = Some c →
  pool c !! i = Some (T_Seq (ASetHTTPHandler h :: rest) next) →
  step (LThread i Go) c = Some c' →
  panicked c' = false
  ∧ (network (vm c) = None → vm c' = vm c ∧ wd c' = wd c ∧ log c' = log c)
  ∧ (network (vm c) ≠ None →
     net_released (wd c) = false ∧ handler (wd c') = Some h).
Proof.
  intros Hcalls Hrun Hi Hstep.
  destruct (reachable _ _ _ _ _ _ _ Hcalls Hrun) as [_ HI].
  unfold step in Hstep. destruct (panicked c) eqn:Hp; [done |].
  specialize (HI eq_refl). rewrite Hi in Hstep. simpl in Hstep.
  destruct (m (vm c)) eqn:Hm; [done |].
  destruct (network (vm c)) as [n |] eqn:Hn; injection Hstep as <-; simpl.
  - split; [done |]. split; [done |]. intros _. split; [| done].
    destruct (qemu (wd c)) eqn:Hq.
    + pose proof (inv_pristine _ _ HI Hq) as Hst.
      unfold at_stage, res_view in Hst. by injection Hst.
    + destruct (watcher_exists _ _ HI ltac:(by rewrite Hq)) as (j & t & Hj & Hw).
      pose proof (inv_threads _ _ HI _ _ Hj) as Hok.
      destruct t as [acts nx | | | | | | | | | | | | | | |]; try done.
      * destruct nx; try done. simpl in Hok.
        destruct Hok as (werr & k & _ & _ & Hq' & _). congruence.
      * simpl in Hok. destruct Hok as (_ & Hst & _).
        unfold at_stage, res_view in Hst. by injection Hst.
      * simpl in Hok. destruct Hok as (werr & Hq' & _). congruence.
    + destruct (watcher_exists _ _ HI ltac:(by rewrite Hq)) as (j & t & Hj & Hw).
      pose proof (inv_threads _ _ HI _ _ Hj) as Hok.
      destruct t as [acts nx | | | | | | | | | | | | | | |]; try done.
      * destruct nx; try done. simpl in Hok.
        destruct Hok as (werr' & k & Hk & _ & _ & Hst & _).
        unfold at_stage, res_view in Hst.
        injection Hst as Hm' Hnet _ _ Hnr _ _ _ _.
        rewrite Hm in Hm'. rewrite Hn in Hnet. rewrite Hnr.
        do 13 (destruct k as [| k]; [simpl in *; congruence |]). lia.
      * simpl in Hok. destruct Hok as (_ & Hst & _).
        unfold at_stage, res_view in Hst. by injection Hst.
      * simpl in Hok. destruct Hok as (werr' & _ & Hst & _).
        unfold at_stage, res_view in Hst.
        injection Hst as _ Hnet _ _ _ _ _ _ _. simpl in Hnet. congruence.
  - split; [done |]. split; [| done]. intros _. by rewrite app_nil_r.
Qed.

(** Start next to a call of SetHTTPHandler (thread 1) that runs only when
    the exit watcher (thread 5) has finished. *)
Definition late_handler_calls : list thread := [Start; SetHTTPHandler 42].

Definition late_handler_schedule : list label :=
  [LThread 0 Go; LThread 0 (Setup None None); LThread 0 (Spawn None);
   LThread 2 (FsEvent true "vnc.sock"); LThread 2 (FsEvent true "qmp.sock")]
  ++ replicate 4 (LThread 2 Go)
  ++ [LThread 0 RecvReady; LProcessExit None]
  ++ replicate 14 (LThread 5 Go).

Definition late_handler_before : config :=
  default (init demo_vm late_handler_calls)
          (run late_handler_schedule (init demo_vm late_handler_calls)).

Definition late_handler_after : config :=
  default late_handler_before (step (LThread 1 Go) late_handler_before).

Lemma SetHTTPHandler_released_noop_witness :
  panicked late_handler_after = false
  ∧ (network (vm late_handler_before) = None →
     vm late_handler_after = vm late_handler_before
     ∧ wd late_handler_after = wd late_handler_before
     ∧ log late_handler_after = log late_handler_before)
  ∧ (network (vm late_handler_before) ≠ None →
     net_released (wd late_handler_before) = false
     ∧ handler (wd late_handler_after) = Some 42%nat).
Proof.
  apply (SetHTTPHandler_released_noop
           {| DiskFile := "/images/disk.qcow2"; Format := "qcow2" |}
           {| NetDev := "tap0" |} "/tmp/sockets" "Zm9vYmFy"
           late_handler_calls late_handler_schedule late_handler_before
           late_handler_after 1 42 [] H_Return).
  - repeat constructor.
  - vm_compute. reflexivity.
  - vm_compute. reflexivity.
  - vm_compute. reflexivity.
Defined.

(** C6, on the code: the readiness monitor times out while QEMU runs and
    no error is recorded.  Start logs the timeout and kills QEMU, but the
    timeout never reaches the Error field, which ends up holding the exit
    error of the killed process; on a nil Error field the statement that
    should record the readiness error changes nothing. *)
Theorem readiness_timeout_not_recorded :
  run timeout_schedule (init demo_vm [Start])
  = Some (final_of timeout_schedule)
  ∧ EvLogError ("Error monitoring socketFolder, error: "
                  +:+ error_string timeout_error)
    ∈ log (final_of timeout_schedule)
  ∧ EvProcessKill ∈ log (final_of timeout_schedule)
  ∧ finished (final_of timeout_schedule)
  ∧ Error (vm (final_of timeout_schedule)) = Some killed
  ∧ Error (vm (final_of timeout_schedule)) ≠ Some timeout_error
  ∧ (∀ v w err,
       exec (ARecordReadyError err) (set_Error None (set_m false v)) w
       = Some (ok (set_Error None (set_m false v)) w [])).
Proof.
  split; [vm_compute; reflexivity |].
  split; [vm_compute; set_solver |].
  split; [vm_compute; set_solver |].
  split; [right; by exists 4%nat |].
  split; [vm_compute; reflexivity |].
  split; [vm_compute; congruence |].
  done.
Qed.

End VMProps.

Module ImageProps.
Import Image.

(** C10: inspectImageFile always returns; it returns nil exactly when
    qemu-img fails or its output does not unmarshal, and otherwise the
    information that was unmarshalled from the output. *)
Theorem inspectImageFile_total
    (Output : string → list string → string → string * option error)
    (Unmarshal : string → information → information * option error)
    (Base Dir : string → string) (imageFile : string) (format : imageFormat) :
  let f := if decide (format = imageQCOW2Format) then "qcow2" else "raw" in
  let out := Output "qemu-img"
               ["info"; "-f"; f; "--output"; "json"; "--"; Base imageFile]
               (Dir imageFile) in
  let parsed := Unmarshal out.1 empty_information in
  (inspectImageFile Output Unmarshal Base Dir imageFile format = None
   ↔ out.2 ≠ None ∨ parsed.2 ≠ None)
  ∧ (∀ info,
       inspectImageFile Output Unmarshal Base Dir imageFile format = Some info
       ↔ out.2 = None ∧ parsed.2 = None ∧ info = parsed.1).
Proof.
  intros f out parsed. unfold inspectImageFile. fold f. fold out.
  destruct out as [data [e |]] eqn:Hout; simpl.
  - split; [split; [by left | done] |]. intros info. split; [done |].
    by intros [? _].
  - unfold parsed. simpl.
    destruct (Unmarshal data empty_information) as [info' [e |]]; simpl.
    + split; [split; [by right | done] |]. intros info. split; [done |].
      by intros (_ & ? & _).
    + split.
      * split; [done |]. by intros [? | ?].
      * intros info. split.
        -- by intros [= ->].
        -- by intros (_ & _ & ->).
Qed.

End ImageProps.

(** * More of the virtual machine: what callers of Start, Kill and
      VNCSocket can rely on *)

Module VMUse.
Import VM VMProps.


(** The machine in the state [NewVirtualMachine] left it in, as far as its
    resources go. *)
Definition untouched (img : Image) (net : Network) (folder slug : string)
    (c : config) : Prop :=
  m (vm c) = false
  ∧ network (vm c) = Some net ∧ image (vm c) = Some img
  ∧ socketFolder (vm c) = Join folder slug
  ∧ net_released (wd c) = false ∧ image_released (wd c) = false
  ∧ removed (wd c) = []
  ∧ stdout_closed (wd c) = false ∧ stderr_closed (wd c) = false.

Lemma at_stage_0_untouched img net folder slug c :
  at_stage (NewVirtualMachine img net folder slug) 0 (vm c) (wd c) →
  untouched img net folder slug c.
Proof.
  unfold at_stage, res_view. simpl. intros H.
  injection H as Hm Hnet Himg Hsf Hnr Hir Hrem Hso Hse.
  by repeat split.
Qed.

(** X9: nothing is released before QEMU has exited: while QEMU has not been
    spawned (also after Start has closed the done channel on a failure) or
    is running, network and image are set and unreleased, the socket folder
    is in place and the pipes are open. *)
Theorem resources_held_until_exit (img : Image) (net : Network)
    (folder slug : string) (calls : list thread) (ls : list label)
    (c : config) :
  Forall (λ t, entry t = true) calls →
  run ls (init (NewVirtualMachine img net folder slug) calls) = Some c →
  panicked c = false →
  (qemu (wd c) = NotStarted ∨ qemu (wd c) = Running) →
  untouched img net folder slug c.
Proof.
  intros Hcalls Hrun Hp Hq.
  destruct (reachable _ _ _ _ _ _ _ Hcalls Hrun) as [_ HI].
  specialize (HI Hp). apply at_stage_0_untouched.
  destruct Hq as [Hq | Hq]; [by apply (inv_pristine _ _ HI) |].
  destruct (watcher_exists _ _ HI ltac:(by rewrite Hq)) as (i & t & Hi & Hw).
  pose proof (inv_threads _ _ HI _ _ Hi) as Hok.
  destruct t as [acts next | | | | | | | | | | | | | | |]; try done.
  - destruct next; try done. simpl in Hok.
    destruct Hok as (werr & k & _ & _ & Hq' & _). congruence.
  - simpl in Hok. by destruct Hok as (_ & Hst & _).
  - simpl in Hok. destruct Hok as (werr & Hq' & _). congruence.
Qed.

Lemma resources_held_until_exit_witness :
  doneClosed (vm (final_of spawn_failure_schedule)) = true
  ∧ untouched {| DiskFile := "/images/disk.qcow2"; Format := "qcow2" |}
      {| NetDev := "tap0" |} "/tmp/sockets" "Zm9vYmFy"
      (final_of spawn_failure_schedule).
Proof.
  split; [vm_compute; reflexivity |].
  apply (resources_held_until_exit _ _ _ _ [Start] spawn_failure_schedule).
  - repeat constructor.
  - vm_compute. reflexivity.
  - vm_compute. reflexivity.
  - left. vm_compute. reflexivity.
Defined.





End VMUse.

(** * Start runs once, and what [Error] says once Done is closed *)

Module VMStart.
Import VM VMProps.

(** 1 for a thread that is past the check of [started] in Start, also when
    it has returned. *)
Fixpoint in_start (t : thread) : nat :=
  match t with
  | T_Seq _ next => in_start next
  | S_WaitForSockets | S_QemuStart | S_Select | S_Return => 1
  | _ => 0
  end.

(** Whether [vm.Error] is assigned before the done channel is closed. *)
Fixpoint will_err (acts : list action) : bool :=
  match acts with
  | [] => false
  | ASetError _ :: _ => true
  | ACloseDone :: _ => false
  | _ :: rest => will_err rest
  end.

Definition pending_ok (v : VirtualMachine) (t : thread) : Prop :=
  match t with
  | T_Seq acts S_Return =>
      (1 ≤ closes_in acts)%nat → will_err acts = true ∨ Error v ≠ None
  | _ => True
  end.

Record Started (c : config) : Prop := {
  st_count :
    total in_start (pool c) = if started (vm c) then 1%nat else 0%nat;
  st_failed :
    doneClosed (vm c) = true → qemu (wd c) = NotStarted → Error (vm c) ≠ None;
  st_pending : ∀ i t, pool c !! i = Some t → pending_ok (vm c) t
}.

Lemma exec_frame a v w o :
  exec a v w = Some o →
  started (o_vm o) = started v
  ∧ (Error v ≠ None → Error (o_vm o) ≠ None)
  ∧ (a ≠ ACloseDone → doneClosed (o_vm o) = doneClosed v)
  ∧ (qemu (o_world o) = NotStarted → qemu w = NotStarted)
  ∧ (o_panic o = true → o_vm o = v).
Proof.
  intros H.
  destruct a; simpl in H; repeat case_match; simplify_eq; simpl;
    repeat split; try done; congruence.
Qed.

Lemma pending_mono v v' t :
  pending_ok v t → (Error v ≠ None → Error v' ≠ None) → pending_ok v' t.
Proof.
  destruct t as [acts next | | | | | | | | | | | | | | |]; try done.
  destruct next; try done. simpl. intros H He Hc.
  destruct (H Hc); auto.
Qed.

Lemma closes_in_cons_le a rest :
  (closes_in rest ≤ closes_in (a :: rest))%nat.
Proof.
  destruct (decide (a = ACloseDone)) as [-> | Hne].
  - rewrite closes_in_close. lia.
  - by rewrite closes_in_other.
Qed.

Section Preservation.
Variable v0 : VirtualMachine.

Lemma started_thread_step c i ch t o t' new :
  Inv v0 c → Started c → pool c !! i = Some t →
  thread_step t ch (vm c) (wd c) = Some (o, t', new) → o_panic o = false →
  Started {| vm := o_vm o; wd := o_world o; pool := <[i := t']> (pool c) ++ new;
             log := log c ++ o_events o; panicked := false |}.
Proof.
  intros HI [Hcount Hfail Hpend] Hi Hstep Hnp.
  assert (Hcnt : ∀ n,
    (in_start t' + total in_start new + (if started (vm c) then 1 else 0)
     = in_start t + n)%nat →
    total in_start (<[i := t']> (pool c) ++ new) = n).
  { intros n H. rewrite total_app.
    pose proof (total_insert in_start (pool c) i t t' Hi). lia. }
  assert (Hothers : ∀ v',
    (Error (vm c) ≠ None → Error v' ≠ None) →
    pending_ok v' t' → Forall (pending_ok v') new →
    ∀ j tj, (<[i := t']> (pool c) ++ new) !! j = Some tj → pending_ok v' tj).
  { intros v' He Ht' Hnew j tj Hj.
    apply lookup_stepped in Hj as [[-> ->] | [[? Hj] | Hin]].
    - done.
    - eapply pending_mono; [by eapply Hpend | done].
    - by eapply (proj1 (Forall_forall _ _) Hnew). }
  pose proof (inv_threads _ _ HI _ _ Hi) as Hok.
  destruct t as [acts next | | | | | | | | vnc qmp | | stderr | | | | |].
  1: { (* statements *)
    destruct acts as [| a rest]; destruct ch; simpl in Hstep; try done.
    - injection Hstep as <- <- <-. split; cbn [vm wd pool o_vm o_world ok].
      + apply Hcnt. simpl. lia.
      + done.
      + apply Hothers; [done | | constructor].
        destruct next; try done.
    - destruct (exec a (vm c) (wd c)) as [o1 |] eqn:Hex; [| done].
      injection Hstep as <- <- <-.
      destruct (exec_frame _ _ _ _ Hex) as (Hs & He & Hd & Hq & _).
      split; cbn [vm wd pool].
      + apply Hcnt. simpl. rewrite Hs. lia.
      + intros Hdc Hq'. specialize (Hq Hq').
        destruct (decide (a = ACloseDone)) as [-> | Hne].
        * destruct next; simpl in Hok; try done.
          -- specialize (Hpend _ _ Hi). simpl in Hpend.
             rewrite closes_in_close in Hpend.
             destruct Hpend as [Hw | Hw]; [lia | done | by apply He].
          -- destruct Hok as (werr & k & _ & _ & Hq0 & _). congruence.
          -- apply Forall_cons in Hok as [Ha _]. done.
          -- apply Forall_cons in Hok as [Ha _]. done.
          -- apply Forall_cons in Hok as [Ha _]. done.
        * apply He, Hfail; [by rewrite <- Hd | done].
      + apply Hothers; [done | | constructor].
        destruct next; try done. simpl. intros Hc.
        specialize (Hpend _ _ Hi). simpl in Hpend.
        pose proof (closes_in_cons_le a rest).
        destruct Hpend as [Hw | Hw]; [lia | | right; by apply He].
        destruct a; simpl in Hw; try done; try (by left).
        right. simpl in Hex. by injection Hex as <-. }
  3: { (* Start: qemu.Start() *)
    destruct ch; simpl in Hstep; try done.
    destruct r as [err |]; destruct (qemu (wd c)) eqn:Hq; try done;
      injection Hstep as <- <- <-; split; cbn [vm wd pool o_vm o_world ok].
    - apply Hcnt. simpl. lia.
    - done.
    - intros j tj Hj.
      apply lookup_stepped in Hj as [[-> ->] | [[? Hj] | Hin]].
      + simpl. by right.
      + eapply pending_mono; [by eapply Hpend | done].
      + by apply elem_of_nil in Hin.
    - apply Hcnt. simpl. lia.
    - done.
    - intros j tj Hj.
      apply lookup_stepped in Hj as [[-> ->] | [[Hne Hj] | Hin]].
      + done.
      + pose proof (light_others _ _ _ _ _ _ HI Hi ltac:(simpl; lia) Hne Hj)
          as Hw.
        destruct tj as [acts next | | | | | | | | | | | | | | |]; try done.
        destruct next; try done. simpl in *. lia.
      + repeat (apply elem_of_cons in Hin as [-> | Hin]); try done.
        by apply elem_of_nil in Hin. }
  (* the steps that leave the error and the done channel alone *)
  all: destruct ch; simpl in Hstep; try done;
    repeat case_match; simplify_eq; cbn [o_panic panic ok] in Hnp; try done;
    (split; cbn [vm wd pool o_vm o_world ok set_started started doneClosed
                 Error set_socketsReady qemu];
     [ apply Hcnt; simpl;
       repeat match goal with H : started _ = _ |- _ => rewrite H end; lia
     | first [done | intros; congruence | intros; apply Hfail; congruence]
     | apply Hothers; [simpl; auto | | repeat constructor];
       first [ by simpl; auto
             | simpl; unfold closes_in; simpl; intros; lia ] ]).
Qed.

Lemma started_step l c c' :
  Inv v0 c → Started c → step l c = Some c' → panicked c' = false →
  Started c'.
Proof.
  intros HI HS Hstep Hp'. unfold step in Hstep.
  destruct (panicked c); [done |].
  destruct l as [i ch | werr].
  - destruct (pool c !! i) as [t |] eqn:Hi; [| done].
    destruct (thread_step t ch (vm c) (wd c)) as [[[o t'] new] |] eqn:Hts;
      [| done].
    injection Hstep as <-. simpl in Hp'. rewrite Hp'.
    by eapply started_thread_step.
  - destruct (qemu (wd c)) eqn:Hq; try done. injection Hstep as <-.
    destruct HS as [Hc Hf Hpd]. split; cbn [vm wd pool]; try done.
Qed.

Lemma started_run ls c c' :
  Inv v0 c → Started c → run ls c = Some c' → panicked c' = false →
  Started c'.
Proof.
  revert c. induction ls as [| l ls IH]; intros c HI HS Hrun Hp'; simpl in Hrun.
  - by injection Hrun as <-.
  - destruct (step l c) as [c1 |] eqn:Hstep; [| done].
    destruct (panicked c1) eqn:Hp1.
    + destruct ls as [| l' ls']; simpl in Hrun.
      * injection Hrun as <-. congruence.
      * unfold step in Hrun. by rewrite Hp1 in Hrun.
    + assert (HR : Reach v0 c1).
      { eapply step_reach; [| exact Hstep]. split; [| done].
        by eapply inv_closes_le. }
      eapply IH; [by apply HR | | exact Hrun | done].
      by eapply started_step.
Qed.

End Preservation.

Lemma started_init v calls :
  started v = false → doneClosed v = false →
  Forall (λ t, entry t = true) calls → Started (init v calls).
Proof.
  intros Hs Hd Hcalls. split; cbn [vm wd pool init].
  - rewrite Hs. induction Hcalls as [| t calls Ht _ IH]; [done |].
    simpl. rewrite IH.
    destruct t as [acts next | | | | | | | | | | | | | | |]; try done.
    destruct acts as [| a [| ? ?]]; try done;
      destruct a; try done; destruct next; done.
  - by rewrite Hd.
  - intros i t Hi.
    pose proof (proj1 (Forall_forall _ _) Hcalls t
                  (list_elem_of_lookup_2 _ _ _ Hi)) as Ht.
    destruct t as [acts next | | | | | | | | | | | | | | |]; try done.
    destruct next; try done.
    destruct acts as [| a [| ? ?]]; try done; destruct a; done.
Qed.

Lemma started_reachable img net folder slug calls ls c :
  Forall (λ t, entry t = true) calls →
  run ls (init (NewVirtualMachine img net folder slug) calls) = Some c →
  panicked c = false →
  Inv (NewVirtualMachine img net folder slug) c ∧ Started c.
Proof.
  intros Hcalls Hrun Hp. split.
  - by apply (reachable _ _ _ _ _ _ _ Hcalls Hrun).
  - eapply started_run; [| | exact Hrun | done].
    + by apply fresh_inv.
    + by apply started_init.
Qed.

(** X11: Start runs once: no two threads are ever past its check of [started],
    and once one thread is, also when it has returned, any other call of
    Start panics as soon as it has the mutex, leaving machine and log as
    they are. *)
Theorem Start_runs_once (img : Image) (net : Network) (folder slug : string)
    (calls : list thread) (ls : list label) (c : config)
    (j : nat) (tj : thread) :
  Forall (λ t, entry t = true) calls →
  run ls (init (NewVirtualMachine img net folder slug) calls) = Some c →
  panicked c = false →
  pool c !! j = Some tj → in_start tj = 1%nat →
  (∀ i ti, pool c !! i = Some ti → in_start ti = 1%nat → i = j)
  ∧ (∀ i c', pool c !! i = Some Start → step (LThread i Go) c = Some c' →
       panicked c' = true ∧ vm c' = vm c ∧ wd c' = wd c ∧ log c' = log c).
Proof.
  intros Hcalls Hrun Hp Hj Htj.
  destruct (started_reachable _ _ _ _ _ _ _ Hcalls Hrun Hp) as [HI [Hc _ _]].
  assert (Hs : started (vm c) = true).
  { pose proof (total_ge in_start _ _ _ Hj) as Hge.
    destruct (started (vm c)); [done | lia]. }
  rewrite Hs in Hc. split.
  - intros i ti Hi Hti. destruct (decide (i = j)) as [| Hne]; [done |].
    pose proof (total_two in_start _ _ _ _ _ Hi Hj Hne). lia.
  - intros i c' Hi Hstep. unfold step in Hstep. rewrite Hp, Hi in Hstep.
    simpl in Hstep. destruct (m (vm c)); [done |]. rewrite Hs in Hstep.
    injection Hstep as <-. simpl. by rewrite app_nil_r.
Qed.

Definition twice_before : config :=
  default (init demo_vm [Start; Start])
          (run [LThread 0 Go] (init demo_vm [Start; Start])).

Definition twice_after : config :=
  default twice_before (step (LThread 1 Go) twice_before).

Lemma Start_runs_once_witness :
  panicked twice_after = true ∧ vm twice_after = vm twice_before.
Proof.
  destruct (Start_runs_once
              {| DiskFile := "/images/disk.qcow2"; Format := "qcow2" |}
              {| NetDev := "tap0" |} "/tmp/sockets" "Zm9vYmFy"
              [Start; Start] [LThread 0 Go] twice_before 0 S_WaitForSockets)
    as [_ H].
  - repeat constructor.
  - vm_compute. reflexivity.
  - vm_compute. reflexivity.
  - vm_compute. reflexivity.
  - reflexivity.
  - destruct (H 1%nat twice_after) as (Hp & Hv & _).
    + vm_compute. reflexivity.
    + vm_compute. reflexivity.
    + by split.
Defined.

(** X12: once the done channel is closed, a nil [Error] means that QEMU was
    spawned and ended by itself without error: a Start that failed, a QEMU
    that ended with an error and a QEMU that was killed all leave [Error]
    set. *)
Theorem nil_Error_means_clean_exit (img : Image) (net : Network)
    (folder slug : string) (calls : list thread) (ls : list label)
    (c : config) :
  Forall (λ t, entry t = true) calls →
  run ls (init (NewVirtualMachine img net folder slug) calls) = Some c →
  panicked c = false →
  doneClosed (vm c) = true → Error (vm c) = None →
  qemu (wd c) = Exited None.
Proof.
  intros Hcalls Hrun Hp Hd He.
  destruct (started_reachable _ _ _ _ _ _ _ Hcalls Hrun Hp) as [HI [_ Hf _]].
  destruct (qemu (wd c)) as [| | werr] eqn:Hq.
  - by destruct (Hf Hd eq_refl).
  - destruct (watcher_exists _ _ HI ltac:(by rewrite Hq)) as (i & t & Hi & Hw).
    pose proof (inv_threads _ _ HI _ _ Hi) as Hok.
    destruct t as [acts next | | | | | | | | | | | | | | |]; try done.
    + destruct next; try done. simpl in Hok.
      destruct Hok as (werr & k & _ & _ & Hq' & _). congruence.
    + simpl in Hok. destruct Hok as (_ & _ & Hd'). congruence.
    + simpl in Hok. destruct Hok as (werr & Hq' & _). congruence.
  - destruct (watcher_exists _ _ HI ltac:(by rewrite Hq)) as (i & t & Hi & Hw).
    pose proof (inv_threads _ _ HI _ _ Hi) as Hok.
    assert (Hat : ∃ k, (11 ≤ k)%nat
                       ∧ watcher_at (NewVirtualMachine img net folder slug)
                           k werr (vm c) (wd c)).
    { destruct t as [acts next | | | | | | | | | | | | | | |]; try done.
      - destruct next; try done. simpl in Hok.
        destruct Hok as (werr' & k & _ & _ & Hat).
        pose proof Hat as (Hq' & _ & Hd' & _).
        assert (werr' = werr) as -> by congruence.
        exists k. split; [| done]. rewrite Hd in Hd'.
        symmetry in Hd'. by apply Nat.leb_le in Hd'.
      - simpl in Hok. destruct Hok as (_ & _ & Hd'). congruence.
      - simpl in Hok. destruct Hok as (werr' & Hat).
        pose proof Hat as (Hq' & _).
        assert (werr' = werr) as -> by congruence.
        exists 12%nat. split; [lia | done]. }
    destruct Hat as (k & Hk & _ & _ & _ & Herr).
    destruct werr as [e |]; [| done].
    destruct (Herr ltac:(lia) ltac:(done)). done.
Qed.

Lemma nil_Error_means_clean_exit_witness :
  qemu (wd (final_of normal_schedule)) = Exited None.
Proof.
  apply (nil_Error_means_clean_exit
           {| DiskFile := "/images/disk.qcow2"; Format := "qcow2" |}
           {| NetDev := "tap0" |} "/tmp/sockets" "Zm9vYmFy"
           [Start] normal_schedule).
  - repeat constructor.
  - vm_compute. reflexivity.
  - vm_compute. reflexivity.
  - vm_compute. reflexivity.
  - vm_compute. reflexivity.
Defined.

End VMStart.

(** * Readiness of the sockets *)

Module VMReady.
Import VM VMProps.

(** Thread [j] has received a create event for the file [name]. *)
Definition seen (j : nat) (name : string) (ls : list label) : Prop :=
  LThread j (FsEvent true name) ∈ ls.

Definition both_seen (j : nat) (ls : list label) : Prop :=
  seen j vncSocketFile ls ∧ seen j qmpSocketFile ls.

Definition monitor_ok (ls : list label) (j : nat) (t : thread) : Prop :=
  match t with
  | M_Loop vncReady qmpReady =>
      (vncReady = true → seen j vncSocketFile ls)
      ∧ (qmpReady = true → seen j qmpSocketFile ls)
  | T_Seq acts M_Exit => ACloseReady ∈ acts → both_seen j ls
  | _ => True
  end.

Record Ready (ls : list label) (c : config) : Prop := {
  rd_threads : ∀ j t, pool c !! j = Some t → monitor_ok ls j t;
  rd_closed : socketsReady (wd c) = ChanClosed → ∃ j, both_seen j ls
}.

Lemma seen_mono j name ls l : seen j name ls → seen j name (ls ++ [l]).
Proof. unfold seen. intros H. apply elem_of_app. by left. Qed.

Lemma both_seen_mono j ls l : both_seen j ls → both_seen j (ls ++ [l]).
Proof. intros [? ?]. split; by apply seen_mono. Qed.

Lemma monitor_ok_mono ls l j t :
  monitor_ok ls j t → monitor_ok (ls ++ [l]) j t.
Proof.
  destruct t as [acts next | | | | | | | | vnc qmp | | | | | | |]; try done.
  - destruct next; try done. simpl. intros H Hin.
    by apply both_seen_mono, H.
  - simpl. intros [Hv Hq]. split; intros ?; apply seen_mono; auto.
Qed.

Lemma run_snoc ls l c c' :
  run (ls ++ [l]) c = Some c' ↔ ∃ c1, run ls c = Some c1 ∧ step l c1 = Some c'.
Proof.
  revert c. induction ls as [| l0 ls IH]; intros c; simpl.
  - split.
    + destruct (step l c) as [c1 |] eqn:Hs; [| done]. intros H.
      exists c. by rewrite Hs.
    + intros (c1 & Hc & Hs). injection Hc as <-. by rewrite Hs.
  - destruct (step l0 c) as [c0 |]; [apply IH |].
    split; [done | by intros (c1 & Hc & _)].
Qed.

(** Only the statement [close(done)] of the monitor closes the channel. *)
Lemma exec_closes_ready a v w o :
  exec a v w = Some o → socketsReady (o_world o) = ChanClosed →
  socketsReady w = ChanClosed ∨ a = ACloseReady.
Proof.
  intros H Hc.
  destruct a; simpl in H; repeat case_match; simplify_eq; simpl in Hc;
    first [by auto | congruence].
Qed.

(** The steps of the monitoring goroutine. *)
Lemma monitor_step vnc qmp ch v w o t' new :
  thread_step (M_Loop vnc qmp) ch v w = Some (o, t', new) →
  o = ok v w [] ∧ new = []
  ∧ ((vnc = true ∧ qmp = true ∧ ch = Go
      ∧ t' = T_Seq [AWatcherClose; ACloseReady] M_Exit)
     ∨ (∃ create name,
          ch = FsEvent create name
          ∧ t' = M_Loop (if create && bool_decide (name = vncSocketFile)
                         then true else vnc)
                        (if create && bool_decide (name = qmpSocketFile)
                         then true else qmp))
     ∨ (∃ acts, t' = T_Seq acts M_Exit ∧ ACloseReady ∉ acts)).
Proof.
  intros H.
  destruct vnc, qmp, ch; simpl in H; try done;
    repeat case_match; simplify_eq; (split; [done | split; [done |]]);
    first [ by left
          | right; left; eexists _, _; split; [reflexivity |];
            repeat match goal with
                   | H : _ && _ = _ |- _ => rewrite H; clear H
                   end; done
          | right; right; eexists; split; [done |];
            intros Hin;
            repeat (apply elem_of_cons in Hin as [Hin | Hin]; [done |]);
            by apply elem_of_nil in Hin ].
Qed.

Lemma ready_thread_step v0 ls c i ch t o t' new :
  Inv v0 c → Ready ls c → pool c !! i = Some t →
  thread_step t ch (vm c) (wd c) = Some (o, t', new) →
  Ready (ls ++ [LThread i ch])
    {| vm := o_vm o; wd := o_world o; pool := <[i := t']> (pool c) ++ new;
       log := log c ++ o_events o; panicked := o_panic o |}.
Proof.
  intros HI [Hthr Hcl] Hi Hstep.
  pose proof (inv_threads _ _ HI _ _ Hi) as Hok.
  pose proof (Hthr _ _ Hi) as Hmon.
  assert (Hpool : monitor_ok (ls ++ [LThread i ch]) i t' →
                  Forall (λ t, ∀ j, monitor_ok (ls ++ [LThread i ch]) j t) new →
                  ∀ j tj, (<[i := t']> (pool c) ++ new) !! j = Some tj →
                          monitor_ok (ls ++ [LThread i ch]) j tj).
  { intros Ht' Hnew j tj Hj.
    apply lookup_stepped in Hj as [[-> ->] | [[? Hj] | Hin]].
    - done.
    - by apply monitor_ok_mono, Hthr.
    - by apply (proj1 (Forall_forall _ _) Hnew). }
  assert (Hkeep : socketsReady (o_world o) = ChanClosed →
                  socketsReady (wd c) = ChanClosed →
                  ∃ j, both_seen j (ls ++ [LThread i ch])).
  { intros _ H. destruct (Hcl H) as [j Hj]. exists j.
    by apply both_seen_mono. }
  destruct t as [acts next | | | | | | | | vnc qmp | | stderr | | | | |].
  1: { (* statements *)
    destruct acts as [| a rest]; destruct ch; simpl in Hstep; try done.
    - injection Hstep as <- <- <-. split; cbn [vm wd pool o_world ok].
      + apply Hpool; [| constructor]. destruct next; try done.
      + intros H. by apply Hkeep.
    - destruct (exec a (vm c) (wd c)) as [o1 |] eqn:Hex; [| done].
      injection Hstep as <- <- <-. split; cbn [vm wd pool].
      + apply Hpool; [| constructor]. destruct next; try done.
        simpl. intros Hin. apply both_seen_mono, Hmon.
        apply elem_of_cons. by right.
      + intros H.
        destruct (exec_closes_ready _ _ _ _ Hex H) as [Hc | ->];
          [by apply Hkeep |].
        exists i. destruct next; simpl in Hok; try done.
        * destruct Hok as (Hf & _). apply Forall_cons in Hf as [Ha _]. done.
        * destruct Hok as (werr & k & Hk & Hacts & _).
          assert (Hin : ACloseReady ∈ exit_watcher werr).
          { eapply (subseteq_drop k). rewrite <- Hacts.
            apply elem_of_cons. by left. }
          unfold exit_watcher in Hin.
          repeat (apply elem_of_cons in Hin as [Hin | Hin]; [done |]).
          by apply elem_of_nil in Hin.
        * apply both_seen_mono, Hmon. apply elem_of_cons. by left.
        * apply Forall_cons in Hok as [Ha _]. done.
        * apply Forall_cons in Hok as [Ha _]. done. }
  8: { (* the monitor *)
    destruct Hmon as [Hv Hq].
    destruct (monitor_step _ _ _ _ _ _ _ _ Hstep)
      as (-> & -> & [(-> & -> & -> & ->)
                    | [(create & name & -> & ->) | (acts & -> & Hnot)]]);
      (split; cbn [vm wd pool o_world ok]; [| by intros H; apply Hkeep]);
      (apply Hpool; [| constructor]); simpl.
    - intros _. apply both_seen_mono. split; auto.
    - split.
      + destruct create; simpl.
        * destruct (bool_decide (name = vncSocketFile)) eqn:Hn.
          -- intros _. apply bool_decide_eq_true in Hn as ->.
             unfold seen. apply elem_of_app. right.
             by apply list_elem_of_singleton.
          -- intros H. by apply seen_mono, Hv.
        * intros H. by apply seen_mono, Hv.
      + destruct create; simpl.
        * destruct (bool_decide (name = qmpSocketFile)) eqn:Hn.
          -- intros _. apply bool_decide_eq_true in Hn as ->.
             unfold seen. apply elem_of_app. right.
             by apply list_elem_of_singleton.
          -- intros H. by apply seen_mono, Hq.
        * intros H. by apply seen_mono, Hq.
    - done. }
  (* the other threads neither close the channel nor become a monitor *)
  all: destruct ch; simpl in Hstep; try done;
    repeat case_match; simplify_eq;
    (split; cbn [vm wd pool o_world ok panic set_socketsReady socketsReady];
     [ apply Hpool; [done | repeat constructor; done]
     | first [ done
             | intros Hready; apply Hkeep;
               first [exact Hready | done | congruence] ] ]).
Qed.

Lemma ready_step v0 ls l c c' :
  Inv v0 c → Ready ls c → step l c = Some c' → Ready (ls ++ [l]) c'.
Proof.
  intros HI HR Hstep. unfold step in Hstep.
  destruct (panicked c); [done |].
  destruct l as [i ch | werr].
  - destruct (pool c !! i) as [t |] eqn:Hi; [| done].
    destruct (thread_step t ch (vm c) (wd c)) as [[[o t'] new] |] eqn:Hts;
      [| done].
    injection Hstep as <-. by eapply ready_thread_step.
  - destruct (qemu (wd c)); try done. injection Hstep as <-.
    destruct HR as [Hthr Hcl]. split; cbn [wd pool set_qemu socketsReady].
    + intros j t Hj. by apply monitor_ok_mono, Hthr.
    + intros H. destruct (Hcl H) as [j Hj]. exists j.
      by apply both_seen_mono.
Qed.

Lemma ready_init v calls :
  Forall (λ t, entry t = true) calls → Ready [] (init v calls).
Proof.
  intros Hcalls. split; [| done]. intros j t Hj.
  pose proof (proj1 (Forall_forall _ _) Hcalls t
                (list_elem_of_lookup_2 _ _ _ Hj)) as Ht.
  destruct t as [acts next | | | | | | | | | | | | | | |]; try done.
  destruct next; try done.
  destruct acts as [| a [| ? ?]]; try done; destruct a; done.
Qed.

(** X13: the channel that [waitForSockets] returns is closed only after its
    goroutine has received a create event for vnc.sock and one for
    qmp.sock. *)
Theorem ready_only_after_both_sockets (img : Image) (net : Network)
    (folder slug : string) (calls : list thread) (ls : list label)
    (c : config) :
  Forall (λ t, entry t = true) calls →
  run ls (init (NewVirtualMachine img net folder slug) calls) = Some c →
  socketsReady (wd c) = ChanClosed →
  ∃ j, LThread j (FsEvent true vncSocketFile) ∈ ls
       ∧ LThread j (FsEvent true qmpSocketFile) ∈ ls.
Proof.
  intros Hcalls Hrun Hc.
  enough (HR : Ready ls c) by exact (rd_closed _ _ HR Hc).
  clear Hc. revert c Hrun.
  induction ls as [| l ls IH] using rev_ind; intros c Hrun.
  - injection Hrun as <-. by apply ready_init.
  - apply run_snoc in Hrun as (c1 & Hrun & Hstep).
    assert (Hp : panicked c1 = false).
    { unfold step in Hstep. by destruct (panicked c1). }
    eapply ready_step; [| by apply IH | exact Hstep].
    by apply (reachable _ _ _ _ _ _ _ Hcalls Hrun).
Qed.

Lemma ready_only_after_both_sockets_witness :
  ∃ j, LThread j (FsEvent true vncSocketFile) ∈ normal_schedule
       ∧ LThread j (FsEvent true qmpSocketFile) ∈ normal_schedule.
Proof.
  apply (ready_only_after_both_sockets
           {| DiskFile := "/images/disk.qcow2"; Format := "qcow2" |}
           {| NetDev := "tap0" |} "/tmp/sockets" "Zm9vYmFy"
           [Start] normal_schedule (final_of normal_schedule)).
  - repeat constructor.
  - vm_compute. reflexivity.
  - vm_compute. reflexivity.
Defined.

End VMReady.

(** * The sessions of a sandbox and what a resolution leaves behind *)

Module NativeSessions.
Import Native NativeProps.

(** 1 for the goroutine [NewShell] starts for a shell, until it has marked
    the session done. *)
Definition is_session (t : thread) : Z :=
  match t with TShellWait _ | TShellRemove _ => 1 | _ => 0 end.

Fixpoint live (p : list thread) : Z :=
  match p with
  | [] => 0
  | t :: p' => is_session t + live p'
  end.

Definition has_session (p : list thread) (sh : nat) : Prop :=
  ∃ j, p !! j = Some (TShellWait sh) ∨ p !! j = Some (TShellRemove sh).

Definition is_plain (e : event) : bool :=
  match e with EvShellAbort _ => false | _ => true end.

(** The log without the aborts of shells. *)
Definition plain (lg : list event) : list event := filter is_plain lg.

(** What a statement of a resolution body does to the operating system,
    the aborts of shells aside. *)
Definition trace (s : sandbox) (a : action) : list event :=
  match a with
  | AKillProcessTree => [EvKillProcessTree (process s)]
  | AKillByOwner => if createUser s then [EvKillByOwner (user s)] else []
  | AUserRemove => if createUser s then [EvUserRemove (user s)] else []
  | AFolderRemove =>
      match workingFolder s with
      | Some f => [EvFolderRemove f]
      | None => []
      end
  | _ => []
  end.

(** The fields of a sandbox that are never assigned after construction. *)
Definition frame (s : sandbox) :=
  (createUser s, workingFolder s, user s, process s).

(** A sandbox as [newSandbox] returns it. *)
Definition pristine (s : sandbox) : Prop :=
  fresh s ∧ wg_count (sessions s) = 0 ∧ shells s = [].

Lemma live_nonneg p : 0 ≤ live p.
Proof. induction p as [| t p IH]; simpl; [lia |]. destruct t; simpl; lia. Qed.

Lemma live_app p1 p2 : live (p1 ++ p2) = live p1 + live p2.
Proof. induction p1 as [| t p1 IH]; simpl; lia. Qed.

Lemma live_insert p i t t' :
  p !! i = Some t → live (<[i := t']> p) = live p - is_session t + is_session t'.
Proof.
  revert i. induction p as [| x p IH]; intros [| i] Hi; simpl in *; try done.
  - injection Hi as ->. lia.
  - rewrite (IH _ Hi). lia.
Qed.

Lemma live_ge p i t : p !! i = Some t → is_session t ≤ live p.
Proof.
  revert i. induction p as [| x p IH]; intros [| i] Hi; simpl in *; try done.
  - injection Hi as ->. pose proof (live_nonneg p). lia.
  - specialize (IH _ Hi). destruct x; simpl; lia.
Qed.

Lemma has_session_live p sh : has_session p sh → 1 ≤ live p.
Proof.
  intros [j [Hj | Hj]]; apply live_ge in Hj; simpl in Hj; lia.
Qed.

Lemma has_session_insert p i t t' sh :
  p !! i = Some t → has_session p sh →
  (t = TShellWait sh → t' = TShellRemove sh) → t ≠ TShellRemove sh →
  has_session (<[i := t']> p) sh.
Proof.
  intros Hi [j Hj] H1 H2. destruct (decide (j = i)) as [-> | Hne].
  - exists i. rewrite list_lookup_insert_eq by by eapply lookup_lt_Some.
    rewrite Hi in Hj. destruct Hj as [Hj | Hj]; injection Hj as ->.
    + right. by rewrite H1.
    + done.
  - exists j. by rewrite list_lookup_insert_ne.
Qed.

Lemma has_session_app p extra sh :
  has_session p sh → has_session (p ++ extra) sh.
Proof.
  intros [j Hj]. exists j.
  destruct Hj as [Hj | Hj]; [left | right]; by apply lookup_app_l_Some.
Qed.

Lemma plain_app l1 l2 : plain (l1 ++ l2) = plain l1 ++ plain l2.
Proof. apply filter_app. Qed.

Lemma plain_aborts (l : list nat) : plain (EvShellAbort <$> l) = [].
Proof. induction l as [| x l IH]; [done | apply IH]. Qed.

Lemma resolutions_plain lg : resolutions (plain lg) = resolutions lg.
Proof.
  induction lg as [| e lg IH]; [done |].
  destruct e; unfold plain, resolutions in *; simpl;
    rewrite ?filter_cons; simpl; try done; by rewrite <- IH.
Qed.

Lemma teardowns_plain lg : teardowns (plain lg) = teardowns lg.
Proof.
  unfold teardowns. f_equal.
  induction lg as [| e lg IH]; [done |].
  destruct e; unfold plain in *; simpl; rewrite ?filter_cons; simpl;
    try done; by rewrite <- IH.
Qed.

(** What a statement of a body changes. *)
Lemma exec_trace a s ex s' ex' evs :
  exec a s ex = Some (s', ex', evs) →
  plain evs = trace s a ∧ frame s' = frame s ∧ resolve s' = resolve s
  ∧ (∀ b, ex = Some b → ex' = Some b)
  ∧ (a = AKillProcessTree → ex' ≠ None)
  ∧ (a ≠ AKillProcessTree → ex' = ex)
  ∧ wg_count (sessions s') = wg_count (sessions s)
  ∧ (a = ASessionsWait → wg_count (sessions s) = 0)
  ∧ wg_draining (sessions s')
    = (if decide (a = AAbortShells) then true else wg_draining (sessions s))
  ∧ shells s' = (if decide (a = AAbortShells) then [] else shells s).
Proof.
  destruct a; simpl; intros H;
    try (injection H as <- <- <-; repeat split; try done;
         by intros b ->).
  - injection H as <- <- <-. rewrite plain_aborts. repeat split; done.
  - unfold wg_Wait in H. case_decide; [| done]. injection H as <- <- <-.
    repeat split; done.
  - injection H as <- <- <-. by destruct (createUser s).
  - injection H as <- <- <-. by destruct (createUser s).
  - injection H as <- <- <-. by destruct (workingFolder s).
Qed.

Lemma trace_frame s s' a : frame s' = frame s → trace s' a = trace s a.
Proof.
  unfold frame. intros H. injection H as H1 H2 H3 H4.
  destruct a; simpl; by rewrite ?H1, ?H2, ?H3, ?H4.
Qed.

(** Membership in a list that is written out. *)
Ltac is_in := simpl; repeat (apply elem_of_cons; first [by left | right]).

Ltac not_in H :=
  simpl in H; repeat (apply elem_of_cons in H as [H | H]; [done |]);
  by apply elem_of_nil in H.

Ltac decide_in Hn Hin := first [not_in Hin | exfalso; apply Hn; by is_in].

(** In a body the shells are aborted before the sessions are waited for. *)
Lemma abort_before_wait k pre rest :
  body_of k = pre ++ rest → ASessionsWait ∉ rest → AAbortShells ∉ rest.
Proof.
  intros H. assert (Hr : rest = drop (length pre) (body_of k)).
  { by rewrite H, drop_app_length. }
  rewrite Hr. clear H Hr. generalize (length pre) as n. intros n.
  intros Hn Hin.
  destruct k; do 8 (destruct n as [| n]; [simpl in *; decide_in Hn Hin |]);
    simpl in *; decide_in Hn Hin.
Qed.

Section Sessions.
(** The sandbox as [newSandbox] returned it. *)
Variable s0 : sandbox.

Definition tok (s : sandbox) (ex : option bool) (lg : list event)
    (t : thread) : Prop :=
  match t with
  | TWaitAndDrain success => ex = Some success
  | TDo (BWatch success) =>
      ex = Some success
      ∧ wg_draining (sessions s) = true ∧ wg_count (sessions s) = 0
  | TBody k rest =>
      ∃ pre, body_of k = pre ++ rest
             ∧ plain lg = ev_of k :: flat_map (trace s0) pre
             ∧ (∀ success, k = BWatch success → ex = Some success)
             ∧ (AAbortShells ∉ rest → wg_draining (sessions s) = true)
             ∧ (ASessionsWait ∉ rest → wg_count (sessions s) = 0)
             ∧ (AKillProcessTree ∉ rest → ex ≠ None)
  | _ => True
  end.

Definition gate_ok2 (c : config) : Prop :=
  match resolve (sb c) with
  | OnceIdle => log c = []
  | OnceRunning => ∃ j k rest, pool c !! j = Some (TBody k rest)
  | OnceDone =>
      wg_draining (sessions (sb c)) = true
      ∧ wg_count (sessions (sb c)) = 0
      ∧ exited c ≠ None
      ∧ ∃ k, plain (log c) = ev_of k :: flat_map (trace s0) (body_of k)
             ∧ ∀ success, k = BWatch success → exited c = Some success
  end.

Record Sess (c : config) : Prop := {
  ss_frame : frame (sb c) = frame s0;
  ss_count : wg_count (sessions (sb c)) = live (pool c);
  ss_shells : ∀ sh, sh ∈ shells (sb c) → has_session (pool c) sh;
  ss_gate : gate_ok2 c;
  ss_threads : ∀ j t, pool c !! j = Some t →
                      tok (sb c) (exited c) (log c) t
}.

(** What a step has to respect for the facts of another thread to stay. *)
Lemma tok_keep s ex lg s' ex' lg' t :
  tok s ex lg t →
  (is_body t = true → plain lg' = plain lg) →
  (∀ b, ex = Some b → ex' = Some b) →
  (wg_draining (sessions s) = true → wg_draining (sessions s') = true) →
  (wg_draining (sessions s) = true → wg_count (sessions s) = 0 →
   wg_count (sessions s') = 0) →
  tok s' ex' lg' t.
Proof.
  intros Hok Hlg Hex Hd Hc.
  destruct t as [| success | k | k rest | | | | | | |]; simpl in *; try done.
  - by apply Hex.
  - destruct k; try done. destruct Hok as (He & Hdr & Hz).
    split; [by apply Hex |]. split; [by apply Hd | by apply Hc].
  - destruct Hok as (pre & Hb & Hp & Hw & Hab & Hsw & Hkt).
    exists pre. rewrite Hlg by done.
    split; [done |]. split; [done |]. split; [| split; [| split]].
    + intros b Hk. by apply Hex, Hw.
    + intros Hn. by apply Hd, Hab.
    + intros Hn. apply Hc; [| by apply Hsw].
      by apply Hab, (abort_before_wait _ _ _ Hb).
    + intros Hn. specialize (Hkt Hn).
      destruct ex as [b |]; [| done]. by rewrite (Hex b).
Qed.

(** A step of thread [i] that assigns nothing but, at most, the draining
    flag, and logs nothing. *)
Lemma sess_quiet c i t t' s' ex' :
  Sess c → pool c !! i = Some t →
  frame s' = frame (sb c) → resolve s' = resolve (sb c) →
  wg_count (sessions s') = wg_count (sessions (sb c)) →
  shells s' = shells (sb c) →
  (wg_draining (sessions (sb c)) = true → wg_draining (sessions s') = true) →
  (∀ b, exited c = Some b → ex' = Some b) →
  is_session t' = is_session t →
  (∀ sh, t = TShellWait sh → t' = TShellRemove sh) →
  (∀ sh, t ≠ TShellRemove sh) →
  is_body t = false →
  tok s' ex' (log c) t' →
  Sess {| sb := s'; exited := ex'; pool := <[i := t']> (pool c);
          log := log c ++ [] |}.
Proof.
  intros [Hf Hc Hsh Hg Ht] Hi Hf' Hr' Hc' Hsh' Hd' Hex' Hs Hw Hnr Hnb Hok.
  rewrite app_nil_r. split; cbn [sb exited pool log].
  - by rewrite Hf'.
  - rewrite Hc', Hc, (live_insert _ _ _ _ Hi). lia.
  - intros sh Hin. rewrite Hsh' in Hin.
    eapply has_session_insert; [done | by apply Hsh | apply Hw | apply Hnr].
  - unfold gate_ok2 in *. cbn [sb exited pool log]. rewrite Hr'.
    destruct (resolve (sb c)).
    + done.
    + destruct Hg as (j & k & rest & Hj). exists j, k, rest.
      rewrite list_lookup_insert_ne; [done |]. intros <-.
      rewrite Hi in Hj. injection Hj as ->. done.
    + destruct Hg as (Hdr & Hz & Hne & k & Hp & Hb).
      split; [by apply Hd' |]. split; [by rewrite Hc' |].
      split.
      * destruct (exited c) as [b |]; [| done]. by rewrite (Hex' b).
      * exists k. split; [done |]. intros b Hk. by apply Hex', Hb.
  - intros j tj Hj.
    apply list_lookup_insert_Some in Hj as [(<- & <- & _) | [Hne Hj]];
      [done |].
    eapply tok_keep; [by eapply Ht | done | done | done |].
    intros _ Hz. by rewrite Hc'.
Qed.

Lemma sess_step blocking l c c' :
  Inv c → Sess c → step blocking l c = Some c' → Sess c'.
Proof.
  intros HI HS Hstep. destruct l as [i | i spawn | success]; simpl in Hstep.
  - destruct (pool c !! i) as [t |] eqn:Hi; [| done].
    destruct (thread_step blocking t (sb c) (exited c))
      as [[[[s' ex'] t'] evs] |] eqn:Hts; [| done].
    injection Hstep as <-.
    pose proof (inv_threads _ HI _ _ Hi) as Hok.
    pose proof (ss_threads _ HS _ _ Hi) as Htok.
    destruct t as [| success | k | k rest | cl | | | | sh | sh |];
      simpl in Hts; try done.
    + (* s.process.Wait() *)
      destruct (exited c) as [b |] eqn:Hex; [| done].
      injection Hts as <- <- <- <-.
      eapply sess_quiet; eauto; try done. by rewrite Hex.
    + (* s.sessions.WaitAndDrain() *)
      unfold wg_WaitAndDrain in Hts. case_decide as Hz; [| done].
      injection Hts as <- <- <- <-.
      eapply sess_quiet; eauto; done.
    + (* s.resolve.Do *)
      destruct (resolve (sb c)) eqn:Hr.
      * injection Hts as <- <- <- <-.
        pose proof (ss_gate _ HS) as Hg. unfold gate_ok2 in Hg.
        rewrite Hr in Hg.
        assert (Hself : tok (set_resolve OnceRunning (sb c)) (exited c)
                          (log c ++ [ev_of k]) (TBody k (body_of k))).
        { exists []. rewrite Hg. split; [done |].
          split; [by destruct k |].
          destruct k as [b | |]; simpl in Htok.
          - destruct Htok as (He & Hd & Hz).
            split; [by intros ? [= <-] |]. split; [done |]. split; [done |].
            intros _. by rewrite He.
          - split; [done |].
            split; [| split]; intros Hn; exfalso; apply Hn; by is_in.
          - split; [done |].
            split; [| split]; intros Hn; exfalso; apply Hn; by is_in. }
        destruct HS as [Hf Hc Hsh _ Ht].
        split; cbn [sb exited pool log set_resolve sessions shells resolve].
        -- done.
        -- rewrite Hc, (live_insert _ _ _ _ Hi). simpl. lia.
        -- intros sh Hin. eapply has_session_insert; eauto; done.
        -- unfold gate_ok2. cbn [sb pool set_resolve resolve].
           exists i, k, (body_of k).
           apply list_lookup_insert_eq. by eapply lookup_lt_Some.
        -- intros j tj Hj.
           apply list_lookup_insert_Some in Hj as [(<- & <- & _) | [Hne Hj]];
             [done |].
           eapply tok_keep; [by eapply Ht | | done | done | done].
           intros Hb.
           pose proof (others_quiet_idle _ HI Hr _ _ Hj) as Hq.
           apply quiet_not_body in Hq. congruence.
      * destruct blocking; [done |]. injection Hts as <- <- <- <-.
        eapply sess_quiet; eauto; try done; by destruct k.
      * injection Hts as <- <- <- <-.
        eapply sess_quiet; eauto; try done; by destruct k.
    + (* inside the body *)
      destruct Hok as (Hrun & _).
      destruct Htok as (pre & Hb & Hp & Hw & Hab & Hsw & Hkt).
      pose proof HS as [Hf Hc Hsh _ Ht].
      destruct rest as [| a rest].
      * injection Hts as <- <- <- <-. rewrite app_nil_r in *.
        split; cbn [sb exited pool log set_resolve sessions shells resolve].
        -- done.
        -- rewrite Hc, (live_insert _ _ _ _ Hi). destruct k; simpl; lia.
        -- intros sh Hin. eapply has_session_insert; eauto; done.
        -- unfold gate_ok2. cbn [sb exited pool log set_resolve resolve sessions].
           split; [apply Hab, not_elem_of_nil |].
           split; [apply Hsw, not_elem_of_nil |].
           split; [apply Hkt, not_elem_of_nil |].
           exists k. by rewrite Hb.
        -- intros j tj Hj.
           apply list_lookup_insert_Some in Hj as [(<- & <- & _) | [Hne Hj]];
             [by destruct k |].
           eapply tok_keep; [by eapply Ht | done | done | done | done].
      * destruct (exec a (sb c) (exited c)) as [[[s1 ex1] evs1] |] eqn:Hex;
          [| done].
        injection Hts as <- <- <- <-.
        destruct (exec_trace _ _ _ _ _ _ Hex)
          as (Hpl & Hfr & Hres & Hmono & Hkill & Hsame & Hcnt & Hwait
              & Hdr & Hshl).
        split; cbn [sb exited pool log].
        -- by rewrite Hfr.
        -- rewrite Hcnt, Hc, (live_insert _ _ _ _ Hi). simpl. lia.
        -- intros sh Hin. rewrite Hshl in Hin.
           destruct (decide (a = AAbortShells)); [by apply elem_of_nil in Hin |].
           eapply has_session_insert; eauto; done.
        -- unfold gate_ok2. cbn [sb exited pool log]. rewrite Hres.
           unfold view in Hrun. simpl in Hrun. rewrite Hrun.
           exists i, k, rest.
           apply list_lookup_insert_eq. by eapply lookup_lt_Some.
        -- intros j tj Hj.
           apply list_lookup_insert_Some in Hj as [(<- & <- & _) | [Hne Hj]].
           ++ exists (pre ++ [a]). rewrite <- app_assoc. split; [done |].
              rewrite plain_app, Hpl, Hp, flat_map_app. simpl.
              rewrite app_nil_r, (trace_frame s0 (sb c)) by done.
              split; [done |]. split; [| split; [| split]].
              ** intros b Hk. by apply Hmono, Hw.
              ** intros Hn. rewrite Hdr.
                 destruct (decide (a = AAbortShells)); [done |].
                 apply Hab. by apply not_elem_of_cons.
              ** intros Hn. rewrite Hcnt.
                 destruct (decide (a = ASessionsWait)); [by apply Hwait |].
                 apply Hsw. by apply not_elem_of_cons.
              ** intros Hn.
                 destruct (decide (a = AKillProcessTree)); [by apply Hkill |].
                 rewrite Hsame by done. apply Hkt. by apply not_elem_of_cons.
           ++ eapply tok_keep; [by eapply Ht | | done | |].
              ** intros Hbody.
                 pose proof (others_quiet_body _ _ _ _ HI Hi _ _ (not_eq_sym Hne) Hj)
                   as Hq.
                 apply quiet_not_body in Hq. congruence.
              ** intros Hd. rewrite Hdr. by destruct (decide (a = AAbortShells)).
              ** intros _ Hz. by rewrite Hcnt.
    + (* s.resolve.Wait() *)
      destruct (resolve (sb c)) eqn:Hr; try done.
      injection Hts as <- <- <- <-.
      eapply sess_quiet; eauto; try done; by destruct cl.
    + (* S.Wait() has returned *)
      injection Hts as <- <- <- <-.
      eapply sess_quiet; eauto; try done. by intros ? [= <-].
    + (* the session is marked done *)
      injection Hts as <- <- <- <-.
      pose proof HS as [Hf Hc Hsh Hg Ht].
      assert (Hpos : 1 ≤ wg_count (sessions (sb c))).
      { rewrite Hc. by apply (live_ge _ _ _ Hi). }
      rewrite app_nil_r.
      split; cbn [sb exited pool log shell_finished set_sessions set_shells
                  sessions shells wg_Done wg_count wg_draining resolve].
      * done.
      * rewrite Hc, (live_insert _ _ _ _ Hi). simpl. lia.
      * intros sh' Hin. apply list_elem_of_filter in Hin as [Hne Hin].
        eapply has_session_insert; eauto; [done | congruence].
      * unfold gate_ok2 in *.
        cbn [sb exited pool log shell_finished set_sessions set_shells
             sessions shells wg_Done wg_count wg_draining resolve].
        destruct (resolve (sb c)).
        -- done.
        -- destruct Hg as (j & k & rest & Hj). exists j, k, rest.
           rewrite list_lookup_insert_ne; [done |]. intros <-.
           rewrite Hi in Hj. done.
        -- destruct Hg as (_ & Hz & _). lia.
      * intros j tj Hj.
        apply list_lookup_insert_Some in Hj as [(<- & <- & _) | [Hne Hj]];
          [done |].
        eapply tok_keep; [by eapply Ht | done | done | done |].
        simpl. intros _ Hz. lia.
  - (* NewShell *)
    destruct (pool c !! i) as [t |] eqn:Hi; [| done].
    destruct t as [| | | | | | command tty | | | |]; try done.
    pose proof HS as [Hf Hc Hsh Hg Ht].
    unfold NewShell, wg_Add in Hstep.
    destruct (wg_draining (sessions (sb c))) eqn:Hd.
    + injection Hstep as <-.
      rewrite app_nil_r, <- (app_nil_r (log c)).
      eapply sess_quiet; eauto; done.
    + destruct spawn as [sh | err]; injection Hstep as <-.
      * split; cbn [sb exited pool log set_sessions set_shells sessions shells
                    wg_count wg_draining resolve].
        -- done.
        -- rewrite live_app, (live_insert _ _ _ _ Hi), Hc. simpl. lia.
        -- intros sh' Hin. apply elem_of_app in Hin as [Hin | Hin].
           ++ apply has_session_app.
              eapply has_session_insert; eauto; done.
           ++ apply list_elem_of_singleton in Hin as ->.
              exists (length (pool c)). left.
              apply list_lookup_middle. by rewrite length_insert.
        -- unfold gate_ok2 in *.
           cbn [sb exited pool log set_sessions set_shells sessions shells
                wg_count wg_draining resolve].
           destruct (resolve (sb c)).
           ++ done.
           ++ destruct Hg as (j & k & rest & Hj). exists j, k, rest.
              apply lookup_app_l_Some.
              rewrite list_lookup_insert_ne; [done |]. intros <-.
              rewrite Hi in Hj. done.
           ++ destruct Hg as (Hd' & _). congruence.
        -- intros j tj Hj.
           apply lookup_updated in Hj as [[-> ->] | [[Hne Hj] | [_ Hin]]].
           ++ done.
           ++ eapply tok_keep; [by eapply Ht | done | done | |];
                simpl; congruence.
           ++ apply list_elem_of_singleton in Hin as ->. done.
      * rewrite app_nil_r.
        split; cbn [sb exited pool log set_sessions set_shells sessions shells
                    wg_Done wg_count wg_draining resolve].
        -- done.
        -- rewrite (live_insert _ _ _ _ Hi), Hc. simpl. lia.
        -- intros sh' Hin. eapply has_session_insert; eauto; done.
        -- unfold gate_ok2 in *.
           cbn [sb exited pool log set_sessions set_shells sessions shells
                wg_Done wg_count wg_draining resolve].
           destruct (resolve (sb c)).
           ++ done.
           ++ destruct Hg as (j & k & rest & Hj). exists j, k, rest.
              rewrite list_lookup_insert_ne; [done |]. intros <-.
              rewrite Hi in Hj. done.
           ++ destruct Hg as (Hd' & _). congruence.
        -- intros j tj Hj.
           apply list_lookup_insert_Some in Hj as [(<- & <- & _) | [Hne Hj]];
             [done |].
           eapply tok_keep; [by eapply Ht | done | done | |];
             simpl; congruence.
  - (* the main process ends by itself *)
    destruct (exited c) eqn:Hex; [done |]. injection Hstep as <-.
    destruct HS as [Hf Hc Hsh Hg Ht]. split; cbn [sb exited pool log]; try done.
    + unfold gate_ok2 in *. cbn [sb exited pool log].
      destruct (resolve (sb c)); try done.
      destruct Hg as (_ & _ & Hne & _). congruence.
    + intros j tj Hj. eapply tok_keep; [by eapply Ht | done | | done | done].
      rewrite Hex. done.
Qed.

Lemma sess_run blocking ls c c' :
  Inv c → Sess c → run blocking ls c = Some c' → Sess c'.
Proof.
  revert c. induction ls as [| l ls IH]; simpl; intros c HI HS Hrun.
  - by injection Hrun as <-.
  - destruct (step blocking l c) as [c1 |] eqn:Hs; [| done].
    eapply IH; [by eapply step_inv | by eapply sess_step | done].
Qed.

End Sessions.

Lemma sess_init s calls :
  pristine s → Forall (λ t, entry t = true) calls → Sess s (init s calls).
Proof.
  intros ((Hr & _) & Hz & Hsh) Hcalls.
  split; cbn [sb exited pool log init].
  - done.
  - rewrite Hz. induction Hcalls as [| t calls Ht _ IH]; [done |].
    simpl. rewrite <- IH. by destruct t.
  - rewrite Hsh. intros sh Hin. by apply elem_of_nil in Hin.
  - unfold gate_ok2. cbn [sb init log]. by rewrite Hr.
  - intros j t Hj.
    pose proof (proj1 (Forall_forall _ _) Hcalls t
                  (list_elem_of_lookup_2 _ _ _ Hj)) as Ht.
    destruct t as [| | k | | | | | | | |]; try done. by destruct k.
Qed.

Lemma sess_reachable blocking s calls ls c :
  pristine s → Forall (λ t, entry t = true) calls →
  run blocking ls (init s calls) = Some c → Inv c ∧ Sess s c.
Proof.
  intros Hs Hcalls Hrun. split.
  - eapply reachable_inv; [apply Hs | done | done].
  - eapply sess_run; [| by apply sess_init | done].
    apply init_inv; [apply Hs | done].
Qed.

(** What each resolution does to the operating system, in order. *)
Definition owner_kill (s : sandbox) : list event :=
  if createUser s then [EvKillByOwner (user s)] else [].

Definition removals (s : sandbox) : list event :=
  (if createUser s then [EvUserRemove (user s)] else [])
  ++ match workingFolder s with
     | Some f => [EvFolderRemove f]
     | None => []
     end.

Definition footprint (s : sandbox) (k : body) : list event :=
  match k with
  | BWatch _ => owner_kill s
  | BKill => EvKillProcessTree (process s) :: owner_kill s
  | BAbort => EvKillProcessTree (process s) :: owner_kill s ++ removals s
  end.

Definition is_removal (e : event) : bool :=
  match e with EvUserRemove _ | EvFolderRemove _ => true | _ => false end.

Lemma body_trace s k : flat_map (trace s) (body_of k) = footprint s k.
Proof.
  destruct k; unfold footprint, owner_kill, removals; simpl;
    destruct (createUser s), (workingFolder s); done.
Qed.

Lemma resolutions_footprint s k : resolutions (ev_of k :: footprint s k) = [ev_of k].
Proof.
  destruct k; unfold footprint, owner_kill, removals;
    destruct (createUser s), (workingFolder s); done.
Qed.

Lemma ev_of_inj k k' : ev_of k = ev_of k' → k = k'.
Proof. destruct k, k'; simpl; congruence. Qed.

Lemma resolved_body s c :
  Inv c → Sess s c → resolve (sb c) = OnceDone →
  ∃ k, resolutions (log c) = [ev_of k]
       ∧ fields (sb c) = final (mk_resultSet (sb c)) k
       ∧ plain (log c) = ev_of k :: footprint s k
       ∧ (∀ success, k = BWatch success → exited c = Some success).
Proof.
  intros [Hg _ _] [_ _ _ Hg2 _] Hd.
  unfold view in Hg. unfold gate_ok2 in Hg2. rewrite Hd in Hg, Hg2.
  destruct Hg as (_ & k' & Hres & Hfin).
  destruct Hg2 as (_ & _ & _ & k & Hpl & Hex).
  rewrite body_trace in Hpl.
  assert (k' = k) as ->.
  { apply ev_of_inj.
    rewrite <- resolutions_plain, Hpl, resolutions_footprint in Hres.
    congruence. }
  by exists k.
Qed.

Lemma mk_resultSet_frame s s' :
  frame s' = frame s → mk_resultSet s' = mk_resultSet s.
Proof.
  unfold frame, mk_resultSet. intros H. injection H as _ H2 H3 _.
  by rewrite H2, H3.
Qed.

(** X1: the session count is the number of goroutines that NewShell has started
    and that have not yet marked their session done, so it never goes below
    zero; and every shell in the list has such a goroutine. *)
Theorem session_count_is_running_sessions (blocking : bool) (s : sandbox)
    (calls : list thread) (ls : list label) (c : config) :
  pristine s → Forall (λ t, entry t = true) calls →
  run blocking ls (init s calls) = Some c →
  wg_count (sessions (sb c)) = live (pool c)
  ∧ 0 ≤ wg_count (sessions (sb c))
  ∧ (∀ sh, sh ∈ shells (sb c) → has_session (pool c) sh).
Proof.
  intros Hs Hcalls Hrun.
  destruct (sess_reachable _ _ _ _ _ Hs Hcalls Hrun) as [_ [_ Hc Hsh _ _]].
  split; [done |]. split; [| done]. rewrite Hc. apply live_nonneg.
Qed.

(** Two calls of NewShell, one whose shell starts and one whose shell does
    not, next to the watcher and a call of Kill. *)
Definition two_shells_calls : list thread :=
  [waitForTermination; TNewShell ["sh"] false; TNewShell ["nosuch"] false;
   Kill].

Definition two_shells : config :=
  default (init demo_sandbox two_shells_calls)
    (run true [LNewShell 1 (Ok 7%nat);
               LNewShell 2 (Err (Errorf "executable not found"))]
       (init demo_sandbox two_shells_calls)).

Lemma demo_pristine : pristine demo_sandbox.
Proof. repeat split. Qed.

Lemma session_count_is_running_sessions_witness :
  wg_count (sessions (sb two_shells)) = live (pool two_shells)
  ∧ 0 ≤ wg_count (sessions (sb two_shells))
  ∧ (∀ sh, sh ∈ shells (sb two_shells) → has_session (pool two_shells) sh).
Proof.
  apply (session_count_is_running_sessions true demo_sandbox two_shells_calls
           [LNewShell 1 (Ok 7%nat);
            LNewShell 2 (Err (Errorf "executable not found"))]).
  - exact demo_pristine.
  - repeat constructor.
  - vm_compute. reflexivity.
Defined.

(** X2: once the sandbox is resolved, as it is when Kill, Abort or
    WaitForResult has returned, the sessions are drained: the registry is
    draining with count zero, no session goroutine is left, the list of
    shells is empty, the main process has ended, and NewShell fails with
    the terminated error. *)
Theorem resolved_sandbox_is_drained (blocking : bool) (s : sandbox)
    (calls : list thread) (ls : list label) (c : config) :
  pristine s → Forall (λ t, entry t = true) calls →
  run blocking ls (init s calls) = Some c →
  (resolve (sb c) = OnceDone
   ∨ ∃ i cl rs err, pool c !! i = Some (TRet cl rs err)) →
  wg_draining (sessions (sb c)) = true
  ∧ wg_count (sessions (sb c)) = 0
  ∧ live (pool c) = 0
  ∧ shells (sb c) = []
  ∧ exited c ≠ None
  ∧ (∀ spawn command,
       (NewShell spawn command (sb c)).2 = Err ErrSandboxTerminated).
Proof.
  intros Hs Hcalls Hrun Hdone.
  destruct (sess_reachable _ _ _ _ _ Hs Hcalls Hrun) as [HI HS].
  assert (Hd : resolve (sb c) = OnceDone).
  { destruct Hdone as [Hd | (i & cl & rs & err & Hi)]; [done |].
    by destruct (returned_fields _ _ _ _ _ HI Hi). }
  destruct HS as [_ Hc Hsh Hg _]. unfold gate_ok2 in Hg. rewrite Hd in Hg.
  destruct Hg as (Hdr & Hz & Hex & _).
  split; [done |]. split; [done |]. split; [by rewrite <- Hc |].
  split; [| split; [done |]].
  - destruct (shells (sb c)) as [| sh l] eqn:Hl; [done |].
    pose proof (has_session_live _ _ (Hsh sh (list_elem_of_here _ _))). lia.
  - intros spawn command. unfold NewShell, wg_Add. by rewrite Hdr.
Qed.

(** A shell is started, Kill (thread 2) aborts it and waits for its
    goroutine (thread 4), and Kill and WaitForResult return. *)
Definition shell_calls : list thread :=
  [waitForTermination; TNewShell ["sh"] false; Kill; WaitForResult].

Definition shell_schedule : list label :=
  [LNewShell 1 (Ok 7%nat)] ++ replicate 3 (LThread 2)
  ++ replicate 2 (LThread 4) ++ replicate 6 (LThread 2) ++ [LThread 3].

Definition shell_final : config :=
  default (init demo_sandbox shell_calls)
          (run true shell_schedule (init demo_sandbox shell_calls)).

Lemma resolved_sandbox_is_drained_witness :
  wg_draining (sessions (sb shell_final)) = true
  ∧ wg_count (sessions (sb shell_final)) = 0
  ∧ live (pool shell_final) = 0
  ∧ shells (sb shell_final) = []
  ∧ exited shell_final ≠ None
  ∧ (∀ spawn command,
       (NewShell spawn command (sb shell_final)).2 = Err ErrSandboxTerminated).
Proof.
  apply (resolved_sandbox_is_drained true demo_sandbox shell_calls
           shell_schedule).
  - exact demo_pristine.
  - repeat constructor.
  - vm_compute. reflexivity.
  - left. vm_compute. reflexivity.
Defined.

(** X3: a resolved sandbox has run exactly one of the three bodies, and its log
    is, the aborts of shells aside, what that body does: natural completion
    only kills by owner; Kill kills the process tree and then by owner;
    Abort does the same and then removes the user and the working folder.
    Killing by owner and removing the user happen only with a created
    user. *)
Theorem resolved_log_is_one_body (blocking : bool) (s : sandbox)
    (calls : list thread) (ls : list label) (c : config) :
  pristine s → Forall (λ t, entry t = true) calls →
  run blocking ls (init s calls) = Some c →
  resolve (sb c) = OnceDone →
  ∃ k, resolutions (log c) = [ev_of k]
       ∧ plain (log c) = ev_of k :: footprint s k.
Proof.
  intros Hs Hcalls Hrun Hd.
  destruct (sess_reachable _ _ _ _ _ Hs Hcalls Hrun) as [HI HS].
  destruct (resolved_body _ _ HI HS Hd) as (k & Hres & _ & Hpl & _).
  by exists k.
Qed.

Lemma resolved_log_is_one_body_witness :
  ∃ k, resolutions (log shell_final) = [ev_of k]
       ∧ plain (log shell_final) = ev_of k :: footprint demo_sandbox k.
Proof.
  apply (resolved_log_is_one_body true demo_sandbox shell_calls
           shell_schedule).
  - exact demo_pristine.
  - repeat constructor.
  - vm_compute. reflexivity.
  - vm_compute. reflexivity.
Defined.

Lemma trace_removal s a e :
  e ∈ trace s a → is_removal e = true → a = AUserRemove ∨ a = AFolderRemove.
Proof.
  intros Hin He.
  destruct a; simpl in Hin; auto;
    repeat case_match; try (by apply elem_of_nil in Hin);
    apply list_elem_of_singleton in Hin as ->; done.
Qed.

Lemma removal_in_Abort k pre rest a :
  body_of k = pre ++ rest → a ∈ pre →
  a = AUserRemove ∨ a = AFolderRemove → k = BAbort.
Proof.
  intros Hb Hin Ha.
  assert (Hin' : a ∈ body_of k) by (rewrite Hb; apply elem_of_app; by left).
  destruct k; [| | done]; destruct Ha as [-> | ->]; not_in Hin'.
Qed.

(** X4: only an Abort that won the gate removes the user or the working
    folder: in every state, a removal in the log means that the resolution
    is Abort's.  A sandbox resolved by Kill or by natural completion keeps
    both for its result set. *)
Theorem only_Abort_removes (blocking : bool) (s : sandbox)
    (calls : list thread) (ls : list label) (c : config) (e : event) :
  pristine s → Forall (λ t, entry t = true) calls →
  run blocking ls (init s calls) = Some c →
  e ∈ log c → is_removal e = true →
  resolutions (log c) = [EvResolveAbort].
Proof.
  intros Hs Hcalls Hrun Hin He.
  destruct (sess_reachable _ _ _ _ _ Hs Hcalls Hrun) as [HI HS].
  assert (Hpl : e ∈ plain (log c)).
  { apply list_elem_of_filter. split; [| done]. by destruct e. }
  assert (Hcase : ∀ k pre rest,
    body_of k = pre ++ rest →
    plain (log c) = ev_of k :: flat_map (trace s) pre → k = BAbort).
  { intros k pre rest Hb Hlog. rewrite Hlog in Hpl.
    apply elem_of_cons in Hpl as [-> | Hpl]; [by destruct k |].
    apply list_elem_of_In, in_flat_map in Hpl as (a & Ha & Hea).
    apply list_elem_of_In in Ha, Hea.
    eapply removal_in_Abort; [done | done |]. by eapply trace_removal. }
  destruct (resolve (sb c)) eqn:Hr.
  - pose proof (ss_gate _ _ HS) as Hg. unfold gate_ok2 in Hg.
    rewrite Hr in Hg. rewrite Hg in Hin. by apply elem_of_nil in Hin.
  - pose proof (ss_gate _ _ HS) as Hg. unfold gate_ok2 in Hg.
    rewrite Hr in Hg. destruct Hg as (j & k & rest & Hj).
    destruct (ss_threads _ _ HS _ _ Hj) as (pre & Hb & Hlog & _).
    destruct (inv_threads _ HI _ _ Hj) as (_ & Hres & _).
    unfold view in Hres. simpl in Hres. rewrite Hres.
    by rewrite (Hcase _ _ _ Hb Hlog).
  - destruct (resolved_body _ _ HI HS Hr) as (k & Hres & _ & Hlog & _).
    rewrite <- body_trace in Hlog. rewrite Hres.
    by rewrite (Hcase k (body_of k) [] ltac:(by rewrite app_nil_r) Hlog).
Qed.

Lemma only_Abort_removes_witness :
  resolutions (log abort_final) = [EvResolveAbort].
Proof.
  apply (only_Abort_removes true demo_sandbox [Abort] abort_schedule
           abort_final (EvUserRemove (user demo_sandbox))).
  - exact demo_pristine.
  - repeat constructor.
  - vm_compute. reflexivity.
  - vm_compute. is_in.
  - reflexivity.
Defined.

(** X5: natural completion: when the watcher's body is the one that ran, the
    main process ended by itself, the result set carries its exit status
    as the success flag, WaitForResult and Kill get a nil error and Abort
    the terminated error, and nothing was killed but the processes of a
    created user: the process tree is never killed and nothing is
    removed. *)
Theorem natural_completion_outcome (blocking : bool) (s : sandbox)
    (calls : list thread) (ls : list label) (c : config) (success : bool) :
  pristine s → Forall (λ t, entry t = true) calls →
  run blocking ls (init s calls) = Some c →
  resolve (sb c) = OnceDone →
  resolutions (log c) = [EvResolveWatch success] →
  exited c = Some success
  ∧ resultSet_ (sb c) = Some (mk_resultSet s success)
  ∧ resultErr (sb c) = None
  ∧ abortErr (sb c) = Some ErrSandboxTerminated
  ∧ teardowns (log c) = 0%nat
  ∧ plain (log c) = EvResolveWatch success :: owner_kill s.
Proof.
  intros Hs Hcalls Hrun Hd Hw.
  destruct (sess_reachable _ _ _ _ _ Hs Hcalls Hrun) as [HI HS].
  destruct (resolved_body _ _ HI HS Hd) as (k & Hres & Hfin & Hpl & Hex).
  rewrite Hw in Hres. destruct k as [b | |]; simpl in Hres; try done.
  injection Hres as ->.
  rewrite (mk_resultSet_frame s (sb c)) in Hfin by apply HS.
  unfold fields in Hfin. simpl in Hfin. injection Hfin as H1 H2 H3.
  split; [by apply Hex |]. split; [done |]. split; [done |].
  split; [done |]. split; [| done].
  rewrite <- teardowns_plain, Hpl. simpl. unfold owner_kill.
  by destruct (createUser s).
Qed.

(** The main process ends by itself with success, the watcher (thread 0)
    resolves, and WaitForResult and a late Kill return. *)
Definition natural_calls : list thread :=
  [waitForTermination; WaitForResult; Kill].

Definition natural_schedule : list label :=
  [LProcessExit true] ++ replicate 7 (LThread 0)
  ++ [LThread 1; LThread 2; LThread 2].

Definition natural_final : config :=
  default (init demo_sandbox natural_calls)
          (run true natural_schedule (init demo_sandbox natural_calls)).

Lemma natural_completion_outcome_witness :
  exited natural_final = Some true
  ∧ resultSet_ (sb natural_final) = Some (mk_resultSet demo_sandbox true)
  ∧ resultErr (sb natural_final) = None
  ∧ abortErr (sb natural_final) = Some ErrSandboxTerminated
  ∧ teardowns (log natural_final) = 0%nat
  ∧ plain (log natural_final) = EvResolveWatch true :: owner_kill demo_sandbox.
Proof.
  apply (natural_completion_outcome true demo_sandbox natural_calls
           natural_schedule).
  - exact demo_pristine.
  - repeat constructor.
  - vm_compute. reflexivity.
  - vm_compute. reflexivity.
  - vm_compute. reflexivity.
Defined.

End NativeSessions.

(** * Construction of a sandbox: what every path of [newSandbox] leaves
      behind *)

Module NativeConstruction.
Import Native NativeProps NativeSessions.

(** The ways a failed construction can end: nothing was acquired; the
    folder could not be created, which is reported to the monitor; the
    folder was created and is removed; folder and user were created and are
    removed, the user first. *)
Definition released (evs : list event) : Prop :=
  evs = []
  ∨ (∃ msg, evs = [EvMonitorError msg])
  ∨ (∃ wf, evs = [EvNewFolder wf; EvFolderRemove wf])
  ∨ (∃ wf u, evs = [EvNewFolder wf; EvCreateUser u; EvUserRemove u;
                    EvFolderRemove wf]).



End NativeConstruction.

(** * Kill next to Start *)

Module VMKill.
Import VM VMProps.


(** Start has returned with both sockets ready and QEMU runs; a call of
    Kill is thread 1. *)
Definition running_schedule : list label :=
  [LThread 0 Go; LThread 0 (Setup None None); LThread 0 (Spawn None);
   LThread 2 (FsEvent true "vnc.sock"); LThread 2 (FsEvent true "qmp.sock")]
  ++ replicate 4 (LThread 2 Go) ++ [LThread 0 RecvReady].

Definition running_machine : config :=
  default (init demo_vm [Start; Kill])
          (run running_schedule (init demo_vm [Start; Kill])).


End VMKill.

(** * The context of a task: which files [fetchContext] unpacks *)

Module NativeFetch.
Import Native NativeProps.

Lemma list_ascii_app (a b : string) :
  String.list_ascii_of_string (a +:+ b)
  = String.list_ascii_of_string a ++ String.list_ascii_of_string b.
Proof.
  induction a as [| x a IH]; [done |].
  change (String x a +:+ b) with (String x (a +:+ b)). simpl. by rewrite IH.
Qed.

(** Neither a dot nor a path separator. *)
Definition plain_char (c : ascii) : bool :=
  negb (Ascii.eqb c "/"%char) && negb (Ascii.eqb c "."%char).

Lemma ext_scan_suffix (e r suffix : list ascii) :
  forallb plain_char e = true →
  ext_scan (e ++ "."%char :: r) suffix = "."%char :: rev e ++ suffix.
Proof.
  revert suffix. induction e as [| c e IH]; intros suffix He; [done |].
  simpl in He. apply andb_prop in He as [Hc He].
  unfold plain_char in Hc. apply andb_prop in Hc as [H1 H2].
  apply negb_true_iff in H1, H2.
  cbn [app ext_scan]. rewrite H1, H2, (IH _ He).
  cbn [rev]. by rewrite <- app_assoc.
Qed.

(** [filepath.Ext] of a path that ends in a dot and then characters that
    are neither dots nor separators is that ending. *)
Lemma Ext_suffix (p e : string) :
  forallb plain_char (String.list_ascii_of_string e) = true →
  Ext (p +:+ "." +:+ e) = "." +:+ e.
Proof.
  intros He. unfold Ext.
  rewrite list_ascii_app, rev_app_distr.
  change (String.list_ascii_of_string ("." +:+ e))
    with ("."%char :: String.list_ascii_of_string e).
  change (rev ("."%char :: String.list_ascii_of_string e))
    with (rev (String.list_ascii_of_string e) ++ ["."%char]).
  rewrite <- app_assoc. cbn [app].
  rewrite ext_scan_suffix.
  - rewrite rev_involutive, app_nil_r.
    change ("."%char :: String.list_ascii_of_string e)
      with (String.list_ascii_of_string ("." +:+ e)).
    apply String.string_of_list_ascii_of_string.
  - rewrite forallb_forall in *. intros c Hc. apply He.
    by apply in_rev.
Qed.

Section Fetch.
Context `{Sys : System}.

(** How [fetchContext] reports a failure to unpack. *)
Definition unpack_error (context : string) (r : option error) : option error :=
  match r with
  | Some err =>
      Some (Errorf ("Error unpacking '" +:+ context +:+ "': "
                      +:+ error_string err))
  | None => None
  end.

(** X8: what [fetchContext] does with a file it has downloaded and handed to
    the user depends on the ending of its name alone: a file ending in .zip
    is unzipped; a file ending in .gz is gunzipped and the result, if its
    name ends in .tar, untarred; a file ending in .tar is left as it is,
    without an error: [Untar] runs on the output of [Gunzip] only. *)
Theorem fetchContext_by_ending (context : string) (u : User)
    (filename : string) :
  Download context (Home u) = Ok filename →
  Chmod filename = None → ChangeOwner filename u = None →
  (∀ p, filename = p +:+ ".zip" →
     fetchContext context u = unpack_error context (Unzip filename))
  ∧ (∀ p, filename = p +:+ ".gz" →
       fetchContext context u
       = match Gunzip filename with
         | (_, Some err) => unpack_error context (Some err)
         | (unpacked, None) =>
             if decide (Ext unpacked = ".tar")
             then unpack_error context (Untar unpacked)
             else None
         end)
  ∧ (∀ p, filename = p +:+ ".tar" → fetchContext context u = None).
Proof.
  intros Hd Hc Ho. unfold fetchContext. rewrite Hd, Hc, Ho.
  split; [| split]; intros p ->.
  - pose proof (Ext_suffix p "zip" eq_refl) as He.
    change ("." +:+ "zip") with ".zip" in He. rewrite He.
    rewrite decide_True by done. by destruct (Unzip _).
  - pose proof (Ext_suffix p "gz" eq_refl) as He.
    change ("." +:+ "gz") with ".gz" in He. rewrite He.
    rewrite decide_False by done. rewrite decide_True by done.
    destruct (Gunzip _) as [unpacked [err |]]; [done |].
    destruct (decide (Ext unpacked = ".tar")); [| done].
    by destruct (Untar unpacked).
  - pose proof (Ext_suffix p "tar" eq_refl) as He.
    change ("." +:+ "tar") with ".tar" in He. rewrite He.
    rewrite decide_False by done. by rewrite decide_False by done.
Qed.

End Fetch.

(** A host whose download is a tar archive and on which [Untar] would
    fail, were it called. *)
Definition tar_host : System :=
  {| NewFolder := Ok {| Path := "/tmp/task" |};
     CreateUser := λ home _, Ok {| Name := "task"; Home := home |};
     CurrentUser := Ok {| Name := "worker"; Home := "/home/worker" |};
     Download := λ _ home, Ok (home +:+ "/context.tar");
     Chmod := λ _, None;
     ChangeOwner := λ _ _, None;
     Unzip := λ _, None;
     Gunzip := λ _, ("", None);
     Untar := λ _, Some (Errorf "tar: unexpected EOF");
     StartProcess := λ _, Ok {| pid := 1 |} |}.

Lemma fetchContext_by_ending_witness :
  @fetchContext tar_host "https://example.com/context"
    {| Name := "task"; Home := "/tmp/task" |} = None.
Proof.
  refine (proj2 (proj2 (@fetchContext_by_ending tar_host
                          "https://example.com/context"
                          {| Name := "task"; Home := "/tmp/task" |}
                          "/tmp/task/context.tar" _ _ _))
            "/tmp/task/context" _); reflexivity.
Defined.

End NativeFetch.

(** * What holds when Start has returned *)

Module VMReturn.
Import VM VMProps VMReady.

(** The machine is done, or QEMU has ended, or both sockets have shown
    up. *)
Definition settled (ls : list label) (v : VirtualMachine) (w : world) : Prop :=
  doneClosed v = true ∨ (∃ werr, qemu w = Exited werr)
  ∨ ∃ j, both_seen j ls.

Definition return_ok (ls : list label) (v : VirtualMachine) (w : world)
    (t : thread) : Prop :=
  match t with
  | S_Return => settled ls v w
  | T_Seq acts S_Return => AKill ∈ acts ∨ ACloseDone ∈ acts ∨ settled ls v w
  | _ => True
  end.

Definition Returned (ls : list label) (c : config) : Prop :=
  ∀ j t, pool c !! j = Some t → return_ok ls (vm c) (wd c) t.

Lemma settled_keep ls l v w v' w' :
  settled ls v w →
  (doneClosed v = true → doneClosed v' = true) →
  (∀ werr, qemu w = Exited werr → ∃ werr', qemu w' = Exited werr') →
  settled (ls ++ [l]) v' w'.
Proof.
  intros [Hd | [[werr Hq] | [j Hj]]] Hd' Hq'.
  - left. by apply Hd'.
  - right; left. by eapply Hq'.
  - right; right. exists j. by apply both_seen_mono.
Qed.

Lemma return_ok_keep ls l v w v' w' t :
  return_ok ls v w t →
  (doneClosed v = true → doneClosed v' = true) →
  (∀ werr, qemu w = Exited werr → ∃ werr', qemu w' = Exited werr') →
  return_ok (ls ++ [l]) v' w' t.
Proof.
  intros Hok Hd Hq.
  destruct t as [acts next | | | | | | | | | | | | | | |]; try done.
  - destruct next; try done. simpl in *.
    destruct Hok as [? | [? | Hs]]; auto.
    right; right. by eapply settled_keep.
  - simpl in *. by eapply settled_keep.
Qed.

(** No statement reopens the done channel or revives QEMU; Kill and the
    close of the done channel leave the machine settled. *)
Lemma exec_settles a v w o :
  exec a v w = Some o → o_panic o = false →
  (doneClosed v = true → doneClosed (o_vm o) = true)
  ∧ (∀ werr, qemu w = Exited werr → ∃ werr', qemu (o_world o) = Exited werr')
  ∧ (a = AKill →
     doneClosed (o_vm o) = true ∨ ∃ werr, qemu (o_world o) = Exited werr)
  ∧ (a = ACloseDone → doneClosed (o_vm o) = true).
Proof.
  intros H Hp.
  destruct a; simpl in H; repeat case_match; simplify_eq; simpl in *;
    repeat split; try done; eauto.
Qed.

Lemma returned_thread_step v0 ls c i ch t o t' new :
  Inv v0 c → Ready ls c → Returned ls c → pool c !! i = Some t →
  thread_step t ch (vm c) (wd c) = Some (o, t', new) → o_panic o = false →
  Returned (ls ++ [LThread i ch])
    {| vm := o_vm o; wd := o_world o; pool := <[i := t']> (pool c) ++ new;
       log := log c ++ o_events o; panicked := false |}.
Proof.
  intros HI HR Hret Hi Hstep Hnp.
  pose proof (inv_threads _ _ HI _ _ Hi) as Hok.
  pose proof (Hret _ _ Hi) as Hmine.
  assert (Hpool :
    (doneClosed (vm c) = true → doneClosed (o_vm o) = true) →
    (∀ werr, qemu (wd c) = Exited werr →
             ∃ werr', qemu (o_world o) = Exited werr') →
    return_ok (ls ++ [LThread i ch]) (o_vm o) (o_world o) t' →
    Forall (return_ok (ls ++ [LThread i ch]) (o_vm o) (o_world o)) new →
    ∀ j tj, (<[i := t']> (pool c) ++ new) !! j = Some tj →
            return_ok (ls ++ [LThread i ch]) (o_vm o) (o_world o) tj).
  { intros Hd Hq Ht' Hnew j tj Hj.
    apply lookup_stepped in Hj as [[-> ->] | [[? Hj] | Hin]].
    - done.
    - eapply return_ok_keep; [by eapply Hret | done | done].
    - by apply (proj1 (Forall_forall _ _) Hnew). }
  unfold Returned. cbn [vm wd pool].
  destruct t as [acts next | | | | | | | | vnc qmp | | stderr | | | | |].
  1: { (* statements *)
    destruct acts as [| a rest]; destruct ch; simpl in Hstep; try done.
    - injection Hstep as <- <- <-.
      apply Hpool; [simpl; auto | simpl; eauto | | constructor].
      destruct next; try done; simpl in *.
      destruct Hmine as [Hin | [Hin | Hs]];
        [by apply elem_of_nil in Hin | by apply elem_of_nil in Hin |].
      eapply settled_keep; eauto.
    - destruct (exec a (vm c) (wd c)) as [o1 |] eqn:Hex; [| done].
      injection Hstep as <- <- <-.
      destruct (exec_settles _ _ _ _ Hex Hnp) as (Hd & Hq & Hk & Hc).
      apply Hpool; [done | done | | constructor].
      destruct next; try done. simpl in *.
      destruct Hmine as [Hin | [Hin | Hs]].
      + apply elem_of_cons in Hin as [<- | Hin]; [| by left].
        right; right. destruct (Hk eq_refl) as [? | ?]; [by left |].
        right; by left.
      + apply elem_of_cons in Hin as [<- | Hin]; [| by right; left].
        right; right. left. by apply Hc.
      + right; right. by eapply settled_keep. }
  4: { (* Start: the select *)
    destruct ch; simpl in Hstep; try done.
    - destruct (socketsReady (wd c)) eqn:Hsr; try done;
        injection Hstep as <- <- <-;
        (apply Hpool; [simpl; auto | simpl; eauto | | constructor]).
      + simpl. left.
        repeat (apply elem_of_cons; first [by left | right]).
      + simpl. right; right.
        destruct (rd_closed _ _ HR Hsr) as [j Hj]. exists j.
        by apply both_seen_mono.
    - destruct (doneClosed (vm c)) eqn:Hd; [| done].
      injection Hstep as <- <- <-.
      apply Hpool; [simpl; auto | simpl; eauto | | constructor].
      simpl. by left. }
  (* the other threads *)
  all: destruct ch; simpl in Hstep; try done;
    repeat case_match; simplify_eq; cbn [o_panic panic ok] in Hnp; try done;
    (apply Hpool; cbn [o_vm o_world ok set_started set_Error set_qemu
                       doneClosed qemu];
     [ done
     | first [ by eauto | intros werr Hq; congruence ]
     | first [ done
             | simpl; right; left;
               repeat (apply elem_of_cons; first [by left | right])
             | simpl; eapply settled_keep; eauto ]
     | repeat constructor ]).
Qed.

Lemma returned_step v0 ls l c c' :
  Inv v0 c → Ready ls c → Returned ls c → step l c = Some c' →
  panicked c' = false → Returned (ls ++ [l]) c'.
Proof.
  intros HI HR Hret Hstep Hp'. unfold step in Hstep.
  destruct (panicked c); [done |].
  destruct l as [i ch | werr].
  - destruct (pool c !! i) as [t |] eqn:Hi; [| done].
    destruct (thread_step t ch (vm c) (wd c)) as [[[o t'] new] |] eqn:Hts;
      [| done].
    injection Hstep as <-. simpl in Hp'. rewrite Hp'.
    by eapply returned_thread_step.
  - destruct (qemu (wd c)) eqn:Hq; try done. injection Hstep as <-.
    intros j t Hj. cbn [vm wd pool] in *.
    eapply return_ok_keep; [by eapply Hret | done |].
    intros werr' Hq'. congruence.
Qed.

Lemma returned_init v calls :
  Forall (λ t, entry t = true) calls → Returned [] (init v calls).
Proof.
  intros Hcalls j t Hj.
  pose proof (proj1 (Forall_forall _ _) Hcalls t
                (list_elem_of_lookup_2 _ _ _ Hj)) as Ht.
  destruct t as [acts next | | | | | | | | | | | | | | |]; try done.
  destruct next; try done.
  destruct acts as [| a [| ? ?]]; try done; destruct a; done.
Qed.

(** X14: when Start has returned, the machine is done, or QEMU has ended, by
    itself or killed by Start after an error of the socket monitor, or
    create events for vnc.sock and for qmp.sock have been received: Start
    does not return on a running machine whose sockets are not there. *)
Theorem Start_returns_settled (img : Image) (net : Network)
    (folder slug : string) (calls : list thread) (ls : list label)
    (c : config) (i : nat) :
  Forall (λ t, entry t = true) calls →
  run ls (init (NewVirtualMachine img net folder slug) calls) = Some c →
  panicked c = false →
  pool c !! i = Some S_Return →
  doneClosed (vm c) = true
  ∨ (∃ werr, qemu (wd c) = Exited werr)
  ∨ (∃ j, LThread j (FsEvent true vncSocketFile) ∈ ls
          ∧ LThread j (FsEvent true qmpSocketFile) ∈ ls).
Proof.
  intros Hcalls Hrun Hp Hi.
  enough (HR : Ready ls c ∧ (panicked c = false → Returned ls c)).
  { destruct HR as [_ Hret]. exact (Hret Hp _ _ Hi). }
  clear Hp Hi. revert c Hrun.
  induction ls as [| l ls IH] using rev_ind; intros c Hrun.
  - injection Hrun as <-. split; [by apply ready_init |].
    intros _. by apply returned_init.
  - apply run_snoc in Hrun as (c1 & Hrun & Hstep).
    assert (Hp1 : panicked c1 = false).
    { unfold step in Hstep. by destruct (panicked c1). }
    destruct (IH _ Hrun) as [HR Hret]. specialize (Hret Hp1).
    assert (HI : Inv (NewVirtualMachine img net folder slug) c1)
      by by apply (reachable _ _ _ _ _ _ _ Hcalls Hrun).
    split; [by eapply ready_step |].
    intros Hp. by eapply returned_step.
Qed.

Lemma Start_returns_settled_witness :
  doneClosed (vm VMKill.running_machine) = true
  ∨ (∃ werr, qemu (wd VMKill.running_machine) = Exited werr)
  ∨ (∃ j, LThread j (FsEvent true vncSocketFile) ∈ VMKill.running_schedule
          ∧ LThread j (FsEvent true qmpSocketFile) ∈ VMKill.running_schedule).
Proof.
  apply (Start_returns_settled
           {| DiskFile := "/images/disk.qcow2"; Format := "qcow2" |}
           {| NetDev := "tap0" |} "/tmp/sockets" "Zm9vYmFy"
           [Start; Kill] VMKill.running_schedule VMKill.running_machine 0).
  - repeat constructor.
  - vm_compute. reflexivity.
  - vm_compute. reflexivity.
  - vm_compute. reflexivity.
Defined.

End VMReturn.

(** * A resolution body always gets to its end *)

Module NativeProgress.
Import Native NativeProps NativeSessions.





Section Progress.
Variable blocking : bool.
Variable s0 : sandbox.



End Progress.




End NativeProgress.

(** * The options for QEMU: [arg] *)

Module VMOptionsProps.
Import VMOptions.

Definition pair_string (kv : string * string) : string :=
  kv.1 +:+ "=" +:+ kv.2.

Lemma string_app_cons x (a b : string) :
  String x a +:+ b = String x (a +:+ b).
Proof. reflexivity. Qed.

Lemma string_app_assoc (a b c : string) : (a +:+ b) +:+ c = a +:+ (b +:+ c).
Proof.
  induction a as [| x a IH]; [done |]. by rewrite !string_app_cons, IH.
Qed.

Lemma string_app_nonempty (a b : string) : a ≠ "" → a +:+ b ≠ "".
Proof. destruct a; [done |]. by rewrite string_app_cons. Qed.

Lemma pair_string_nonempty kv : pair_string kv ≠ "".
Proof.
  unfold pair_string. destruct (kv.1) as [| x k].
  - change ("" +:+ "=" +:+ kv.2) with (String "=" (kv.2)). done.
  - by rewrite string_app_cons.
Qed.

Lemma concat_cons_merge (r x : string) (l : list string) :
  String.concat "," ((r +:+ "," +:+ x) :: l) = String.concat "," (r :: x :: l).
Proof.
  destruct l as [| y l]; [done |].
  cbn [String.concat]. by rewrite !string_app_assoc.
Qed.

Lemma arg_from_nonempty (r : string) (entries : list (string * string)) :
  r ≠ "" →
  arg r entries = String.concat "," (r :: (pair_string <$> entries)).
Proof.
  unfold arg. revert r.
  induction entries as [| kv entries IH]; intros r Hr; [done |].
  cbn [foldl fmap list_fmap]. rewrite decide_False by done.
  rewrite IH by by apply string_app_nonempty, string_app_nonempty.
  rewrite string_app_assoc. apply concat_cons_merge.
Qed.

(** X16: [arg] joins with commas: the result is the kind, unless it is empty,
    and then every entry as key=value, separated by single commas, with no
    comma in front and none at the end, in whatever order the map is
    ranged over. *)
Theorem arg_joins_with_commas (kind : string)
    (entries : list (string * string)) :
  arg kind entries
  = String.concat ","
      ((if decide (kind = "") then [] else [kind])
       ++ (pair_string <$> entries)).
Proof.
  destruct (decide (kind = "")) as [-> | Hk].
  - destruct entries as [| kv entries]; [done |].
    change (arg "" (kv :: entries)) with (arg (pair_string kv) entries).
    apply arg_from_nonempty, pair_string_nonempty.
  - by apply arg_from_nonempty.
Qed.

End VMOptionsProps.

(** * [buildImage]: what it cleans up, in which order, and what it returns *)

Module QemuBuildProps.
Import QemuBuild.

(** The folders created and removed, in order, and what else happened. *)
Definition created (evs : list event) : list string :=
  omap (λ e, match e with EvTempDir f => Some f | _ => None end) evs.

Definition removed (evs : list event) : list string :=
  omap (λ e, match e with EvRemoveAll f => Some f | _ => None end) evs.

Definition is_remove (e : event) : bool :=
  match e with EvRemoveAll _ => true | _ => false end.

Definition work (evs : list event) : list event :=
  filter (λ e, is_remove e = false) evs.

Definition count (p : event → bool) (evs : list event) : nat :=
  length (filter (λ e, p e = true) evs).

Definition is_start (e : event) : bool :=
  match e with EvStart => true | _ => false end.
Definition is_dispose (e : event) : bool :=
  match e with EvDispose => true | _ => false end.
Definition is_kill (e : event) : bool :=
  match e with EvKill => true | _ => false end.
Definition is_package (e : event) : bool :=
  match e with EvPackage _ => true | _ => false end.
Definition is_wait (e : event) : bool :=
  match e with EvWaitDone => true | _ => false end.

(** Where the machine is, as far as [buildImage] knows. *)
Inductive phase : Type :=
| NoMachine       (* not started *)
| MaybeRunning    (* started, done channel not yet awaited *)
| Finished        (* the done channel is closed *)
| Disposed.       (* the image is disposed *)

(** The order [buildImage] has to keep: the machine is started once; it is
    killed only while it may be running; the image is packaged and disposed
    only when the machine is finished; folders are removed only when there
    is no machine or its image is disposed. *)
Fixpoint in_order (ph : phase) (evs : list event) : bool :=
  match evs with
  | [] => match ph with NoMachine | Disposed => true | _ => false end
  | e :: evs' =>
      match e, ph with
      | EvStart, NoMachine => in_order MaybeRunning evs'
      | EvStart, _ => false
      | EvKill, MaybeRunning => in_order MaybeRunning evs'
      | EvKill, _ => false
      | EvWaitDone, MaybeRunning => in_order Finished evs'
      | EvWaitDone, _ => false
      | EvPackage _, Finished => in_order Finished evs'
      | EvPackage _, _ => false
      | EvDispose, Finished => in_order Disposed evs'
      | EvDispose, _ => false
      | EvRemoveAll _, (NoMachine | Disposed) => in_order ph evs'
      | EvRemoveAll _, _ => false
      | _, _ => in_order ph evs'
      end
  end.

Section Build.
Context `{H : Host}.

(** Unfold [buildImage] along every path. *)
Ltac paths :=
  unfold buildImage, with_image, run_machine, newMachineFromFile;
  repeat (case_match; simplify_eq; try done).

(** X17: every temporary folder [buildImage] has created it removes again, on
    every path, after everything else it does, and in the reverse order:
    the folder of the sockets before the folder of the image. *)
Theorem buildImage_removes_its_folders (inputFile outputFile : string)
    (fromImage : bool) (vncPort : Z) (boot cdrom : string) (size : Z) :
  (buildImage inputFile outputFile fromImage vncPort boot cdrom size).1
  = work (buildImage inputFile outputFile fromImage vncPort boot cdrom size).1
    ++ (EvRemoveAll
          <$> rev (created (buildImage inputFile outputFile fromImage vncPort
                              boot cdrom size).1)).
Proof. paths. Qed.

(** X18: [buildImage] never pulls anything from under a machine that may still
    run: once it has started the machine it awaits the done channel on
    every path, also after an interrupt, which only makes it kill the
    machine first; it packages and disposes the image only after that, and
    removes the folders only after the image is disposed.  Without a
    started machine it disposes nothing. *)
Theorem buildImage_keeps_order (inputFile outputFile : string)
    (fromImage : bool) (vncPort : Z) (boot cdrom : string) (size : Z) :
  in_order NoMachine
    (buildImage inputFile outputFile fromImage vncPort boot cdrom size).1
  = true
  ∧ count is_dispose
      (buildImage inputFile outputFile fromImage vncPort boot cdrom size).1
    = count is_start
        (buildImage inputFile outputFile fromImage vncPort boot cdrom size).1.
Proof. paths. Qed.

(** X19: [buildImage] returns nil only when it has packaged the image and was
    not interrupted; when it was interrupted it has killed the machine,
    returns the SIGINT error, whatever the machine's own error, and has not
    packaged. *)
Theorem buildImage_result (inputFile outputFile : string)
    (fromImage : bool) (vncPort : Z) (boot cdrom : string) (size : Z) :
  match (buildImage inputFile outputFile fromImage vncPort boot cdrom size).2
  with
  | None =>
      count is_package
        (buildImage inputFile outputFile fromImage vncPort boot cdrom size).1
      = 1%nat
      ∧ count is_kill
          (buildImage inputFile outputFile fromImage vncPort boot cdrom size).1
        = 0%nat
  | Some err =>
      (count is_package
         (buildImage inputFile outputFile fromImage vncPort boot cdrom size).1
       ≤ 1)%nat
      ∧ (count is_kill
           (buildImage inputFile outputFile fromImage vncPort boot cdrom
              size).1
         = 0%nat
         ∨ (err = sigint
            ∧ count is_package
                (buildImage inputFile outputFile fromImage vncPort boot cdrom
                   size).1
              = 0%nat))
  end.
Proof.
  paths; cbn [fst snd] in *; simplify_eq;
    (split; [vm_compute; lia
            | first [left; reflexivity | right; split; reflexivity]]).
Qed.

End Build.

End QemuBuildProps.
